(** * Test discovery and execution engine: tree, reload, batching, exit handling

    Shallow embedding of [src/AbstractTest.ts], [src/AbstractRunnable.ts],
    [src/RootSuite.ts], [src/TestSuiteInfoFactory.ts],
    [src/framework/GoogleTestRunnable.ts] and of the doctest runnable / test /
    properties files, with the properties of the specification stated over
    it.

    Conventions.
    - A JavaScript object is identified by an allocation number [uid]; its
      [readonly] fields are part of the Rocq value, so [===] on objects is
      decidable equality of these values.  Mutable fields (a suite's
      [children] array, a test's private fields) live in a store keyed by
      the object.
    - [number | undefined] and [number | null] are [option]; lengths and array
      indices are [nat], exit codes, time stamps and time-outs are [Z].
    - [string.length] is [String.length]. *)

From stdpp Require Import gmap strings list fin_maps pretty.
From Stdlib Require Import ZArith Lia Ascii.

(** ** Data model *)

(** [Suite.ts] is not among the sources; the constructor signature
    [(shared, parent, label, description, tooltip, id)] is the one used by
    [RootSuite] and [_getOrCreateChildSuite].  [RootSuite] is the only suite
    built with [parent = undefined]. *)
Inductive Suite : Type :=
| RootSuite (uid : nat)
| ChildSuite (uid : nat) (label description tooltip : string) (parent : Suite).

Definition suite_uid (s : Suite) : nat :=
  match s with RootSuite u => u | ChildSuite u _ _ _ _ => u end.

Definition suite_label (s : Suite) : string :=
  match s with RootSuite _ => "C++ TestMate"%string | ChildSuite _ l _ _ _ => l end.

Definition suite_description (s : Suite) : string :=
  match s with RootSuite _ => ""%string | ChildSuite _ _ d _ _ => d end.

Definition suite_tooltip (s : Suite) : string :=
  match s with RootSuite _ => ""%string | ChildSuite _ _ _ t _ => t end.

Definition suite_parent (s : Suite) : option Suite :=
  match s with RootSuite _ => None | ChildSuite _ _ _ _ p => Some p end.

(** The two subclasses of [AbstractTest] that the sources construct: a
    doctest test case, and the anonymous class of [_createError]. *)
Inductive TestClass : Type := DOCTest | ErrorTest.

(** The [readonly] part of an [AbstractTest]. *)
Record AbstractTest : Type := mkTest {
  test_uid : nat;
  test_class : TestClass;
  aRunnable : nat;
  parent : Suite;
  testNameAsId : string;
}.

(** [TestItem = Suite | AbstractTest], the element type of [children]. *)
Inductive TestItem : Type :=
| ISuite (s : Suite)
| ITest (t : AbstractTest).

Global Instance TestClass_eq_dec : EqDecision TestClass.
Proof. solve_decision. Defined.
Global Instance Suite_eq_dec : EqDecision Suite.
Proof. solve_decision. Defined.
Global Instance AbstractTest_eq_dec : EqDecision AbstractTest.
Proof. solve_decision. Defined.
Global Instance TestItem_eq_dec : EqDecision TestItem.
Proof. solve_decision. Defined.

(** Keys of the object stores. *)
Fixpoint suite_chain (s : Suite) : list (nat * option (string * string * string)) :=
  match s with
  | RootSuite u => [(u, None)]
  | ChildSuite u l d t p => (u, Some (l, d, t)) :: suite_chain p
  end.

Fixpoint suite_of_chain (c : list (nat * option (string * string * string)))
    : option Suite :=
  match c with
  | [] => None
  | (u, None) :: rest => match rest with [] => Some (RootSuite u) | _ => None end
  | (u, Some (l, d, t)) :: rest => ChildSuite u l d t <$> suite_of_chain rest
  end.

Lemma suite_of_chain_chain (s : Suite) : suite_of_chain (suite_chain s) = Some s.
Proof. induction s as [u|u l d t p IH]; simpl; [done | by rewrite IH]. Qed.

Global Instance Suite_countable : Countable Suite :=
  inj_countable suite_chain suite_of_chain suite_of_chain_chain.

Global Instance TestClass_countable : Countable TestClass :=
  inj_countable' (λ c, match c with DOCTest => false | ErrorTest => true end)
                 (λ b : bool, if b then ErrorTest else DOCTest)
                 (λ c, match c with DOCTest => eq_refl | ErrorTest => eq_refl end).

Global Instance AbstractTest_countable : Countable AbstractTest :=
  inj_countable'
    (λ t, (test_uid t, test_class t, aRunnable t, parent t, testNameAsId t))
    (λ p, let '(u, c, r, g, n) := p in mkTest u c r g n)
    (λ t, match t with mkTest _ _ _ _ _ => eq_refl end).

(** [vscode.TestRunState]. *)
Inductive TestRunState : Type :=
| Unset | Running | Passed | Failed | Errored | Skipped.

Global Instance TestRunState_eq_dec : EqDecision TestRunState.
Proof. solve_decision. Defined.

(** [TestState]: a run state and its messages. *)
Record TestState : Type := mkTestState {
  state : TestRunState;
  messages : list string;
}.

Global Instance TestState_eq_dec : EqDecision TestState.
Proof. solve_decision. Defined.

(** [StaticTestEventBase]. *)
Inductive StaticState : Type := StaticErrored | StaticPassed | StaticFailed.

Record StaticTestEventBase : Type := mkStatic {
  static_state : StaticState;
  static_message : string;
}.

Global Instance StaticState_eq_dec : EqDecision StaticState.
Proof. solve_decision. Defined.
Global Instance StaticTestEventBase_eq_dec : EqDecision StaticTestEventBase.
Proof. solve_decision. Defined.

(** The mutable private fields of an [AbstractTest]. *)
Record TestFields : Type := mkFields {
  _label : string;
  _file : option string;
  _line : option Z;
  _skipped : bool;
  _tags : list string;
  _testDescription : option string;
  _typeParam : option string;
  _valueParam : option string;
  _staticEvent : option StaticTestEventBase;
}.

Global Instance TestFields_eq_dec : EqDecision TestFields.
Proof. solve_decision. Defined.

(** Field initialisers of the class body. *)
Definition initialFields : TestFields :=
  {| _label := ""%string; _file := None; _line := None; _skipped := false;
     _tags := []; _testDescription := None; _typeParam := None;
     _valueParam := None; _staticEvent := None |}.

(** [Array.prototype.indexOf], [None] for [-1]. *)
Fixpoint indexOf {A} `{EqDecision A} (l : list A) (x : A) : option nat :=
  match l with
  | [] => None
  | y :: l' => if decide (y = x) then Some 0 else S <$> indexOf l' x
  end.

(** ** The test tree and its reload *)

Module Tree.

(** The runnable: its root suite and its external collaborators.
    [normalize] is [path.normalize].  The grouping rule chain is given with
    its template variables resolved: for a test name, source file and tag
    list, [groupingOf] is the sequence of (label, description, tooltip)
    triples that the [while (true)] loop of [_createSubtreeAndAddTest] hands,
    level by level, to [_getOrCreateChildSuite] under the configured
    [testGrouping]; [errorGrouping] is that sequence under
    [{ groupByExecutable }], used by [_createAndAddError]. *)
Record Runnable : Type := mkRunnable {
  runnableId : nat;
  _rootSuite : Suite;
  normalize : string → string;
  groupingOf : string → option string → list string → list (string * string * string);
  errorGrouping : list (string * string * string);
}.

(** The tree below [_rootSuite] and the runnable's own fields.  [_tests] is
    the [Set] in insertion order. *)
Record State : Type := mkState {
  children : gmap Suite (list TestItem);
  fields : gmap AbstractTest TestFields;
  _tests : list AbstractTest;
  _lastReloadTime : option Z;
  nextUid : nat;
}.

Definition childrenOf (st : State) (g : Suite) : list TestItem :=
  default [] (children st !! g).

Definition setChildren (g : Suite) (l : list TestItem) (st : State) : State :=
  mkState (<[g := l]> (children st)) (fields st) (_tests st)
          (_lastReloadTime st) (nextUid st).

Definition setFields (t : AbstractTest) (f : TestFields) (st : State) : State :=
  mkState (children st) (<[t := f]> (fields st)) (_tests st)
          (_lastReloadTime st) (nextUid st).

Definition fieldsOf (st : State) (t : AbstractTest) : TestFields :=
  default initialFields (fields st !! t).

(** [Set.prototype.add], [delete] and [has]. *)
Definition setAdd (t : AbstractTest) (l : list AbstractTest) : list AbstractTest :=
  if decide (t ∈ l) then l else l ++ [t].

Definition setDelete (t : AbstractTest) (l : list AbstractTest) : list AbstractTest :=
  filter (λ x, x ≠ t) l.

Definition setHas (l : list AbstractTest) (t : AbstractTest) : bool :=
  bool_decide (t ∈ l).

(** Modelled from the spec: [Suite.compare], not among the sources; a child
    "matches by (label, description)". *)
Definition Suite_compare (s : Suite) (label description : string) : bool :=
  bool_decide (suite_label s = label ∧ suite_description s = description).

(** [group.children.find(cond)] with
    [cond = v => v.type === 'suite' && v.compare(label, description)]. *)
Fixpoint findSuite (label description : string) (l : list TestItem) : option Suite :=
  match l with
  | [] => None
  | ISuite s :: l' =>
      if Suite_compare s label description then Some s
      else findSuite label description l'
  | ITest _ :: l' => findSuite label description l'
  end.

(** Modelled from the spec: [Suite.addSuite] and [Suite.addTest], not among
    the sources; the new child is "created and appended", and returned. *)
Definition addSuite (group child : Suite) (st : State) : State :=
  setChildren group (childrenOf st group ++ [ISuite child]) st.

Definition addTest (group : Suite) (child : AbstractTest) (st : State) : State :=
  setChildren group (childrenOf st group ++ [ITest child]) st.

(** [new Suite(shared, group, label, description, tooltip, undefined)]: a
    fresh object with no children. *)
Definition newSuite (label description tooltip : string) (group : Suite)
    (st : State) : Suite * State :=
  let s := ChildSuite (nextUid st) label description tooltip group in
  (s, mkState (<[s := []]> (children st)) (fields st) (_tests st)
              (_lastReloadTime st) (S (nextUid st))).

Definition _getOrCreateChildSuite (label description tooltip : string)
    (group : Suite) (st : State) : Suite * State :=
  match findSuite label description (childrenOf st group) with
  | Some found => (found, st)
  | None =>
      let '(newG, st1) := newSuite label description tooltip group st in
      (newG, addSuite group newG st1)
  end.

(** The grouping loop of [_createSubtreeAndAddTest], with the resolved
    triples of its levels given. *)
Fixpoint walkGrouping (levels : list (string * string * string)) (group : Suite)
    (st : State) : Suite * State :=
  match levels with
  | [] => (group, st)
  | (label, description, tooltip) :: rest =>
      let '(g, st1) := _getOrCreateChildSuite label description tooltip group st in
      walkGrouping rest g st1
  end.

(** Modelled from the spec: [Suite.removeIfLeaf], not among the sources.  "A
    Group with zero children after a removal is itself removed
    (leaf-pruning), propagating upward.  Root Group is long-lived."  The
    removal from the parent's array is the one of
    [removeWithLeafAscendants]. *)
Fixpoint removeIfLeaf (g : Suite) (st : State) : State :=
  match g with
  | RootSuite _ => st
  | ChildSuite _ _ _ _ p =>
      match childrenOf st g with
      | [] =>
          match indexOf (childrenOf st p) (ISuite g) with
          | None => st
          | Some index =>
              removeIfLeaf p (setChildren p (delete index (childrenOf st p)) st)
          end
      | _ :: _ => st
      end
  end.

Definition removeWithLeafAscendants (this : AbstractTest) (st : State) : State :=
  match indexOf (childrenOf st (parent this)) (ITest this) with
  | None => st
  | Some index =>
      removeIfLeaf (parent this)
        (setChildren (parent this) (delete index (childrenOf st (parent this))) st)
  end.

(** *** Reload *)

(** A completion of code that may throw: the state reached comes with
    either a value or the exception. *)
Inductive Outcome (A : Type) : Type :=
| Return (a : A) (st : State)
| Throw (st : State).
Arguments Return {A} a st.
Arguments Throw {A} st.

Definition finalState {A} (o : Outcome A) : State :=
  match o with Return _ st => st | Throw st => st end.

(** The value returned, if the code returned. *)
Definition returned {A} (o : Outcome A) : option A :=
  match o with Return a _ => Some a | Throw _ => None end.

(** [_updateBase]: [None] is [throw Error('line smaller than zero')].
    JavaScript's [NaN] is not among the line numbers.  [staticEvent] is
    compared by reference in the source; every caller modelled here hands
    over either the test's own object or a fresh one at construction, so
    comparing the values agrees with it. *)
Definition _updateBase (r : Runnable) (label : string) (file : option string)
    (line : option Z) (skipped : bool) (tags : list string)
    (testDescription typeParam valueParam : option string)
    (staticEvent : option StaticTestEventBase) (this : TestFields)
    : option (TestFields * bool) :=
  if match line with
     | Some l => bool_decide (l ≠ 0 ∧ l < 0)%Z
     | None => false
     end
  then None
  else
    let changed := false in
    let changed := changed || bool_decide (_label this ≠ label) in
    let newFile := match file with
                   | Some f => if decide (f = ""%string) then None else Some (normalize r f)
                   | None => None
                   end in
    let changed := changed || bool_decide (_file this ≠ newFile) in
    let changed := changed || bool_decide (_line this ≠ line) in
    let changed := changed || bool_decide (_skipped this ≠ skipped) in
    let changed := changed || bool_decide (_testDescription this ≠ testDescription) in
    let tagsChanged :=
      bool_decide (length tags ≠ length (_tags this))
      || existsb (λ t, bool_decide (indexOf (_tags this) t = None)) tags in
    let changed := changed || tagsChanged in
    let changed := changed || bool_decide (_typeParam this ≠ typeParam) in
    let changed := changed || bool_decide (_valueParam this ≠ valueParam) in
    let changed := changed || bool_decide (_staticEvent this ≠ staticEvent) in
    Some ({| _label := label; _file := newFile; _line := line;
             _skipped := skipped;
             _tags := if tagsChanged then tags else _tags this;
             _testDescription := testDescription; _typeParam := typeParam;
             _valueParam := valueParam; _staticEvent := staticEvent |},
          changed).

(** One entry of what a reload found: a doctest test case, after
    [_reloadFromString] has read name, resolved file, line, skip flag and
    suite tag from the listing, or the error node of [_createAndAddError]. *)
Inductive TestSpec : Type :=
| DocCase (testName : string) (filePath : option string) (line : option Z)
          (skipped : bool) (tags : list string)
| ErrorCase (label message : string).

Definition specName (spec : TestSpec) : string :=
  match spec with DocCase n _ _ _ _ => n | ErrorCase l _ => l end.

Definition specGrouping (r : Runnable) (spec : TestSpec)
    : list (string * string * string) :=
  match spec with
  | DocCase n f _ _ _ => groupingOf r n f []
  | ErrorCase _ _ => errorGrouping r
  end.

(** The label the [DOCTest] constructor passes on. *)
Definition docLabel (testNameAsId : string) : string :=
  if String.prefix "  Scenario:" testNameAsId
  then ("⒮" ++ String.substring 11 (String.length testNameAsId - 11) testNameAsId)%string
  else testNameAsId.

(** [createTest(group)]: the constructor of the subclass runs
    [_updateBase] on the initial fields; the object exists only if that
    returns. *)
Definition createTest (r : Runnable) (spec : TestSpec) (group : Suite) (uid : nat)
    : option (AbstractTest * TestFields) :=
  match spec with
  | DocCase n f line skipped tags =>
      match _updateBase r (docLabel n) f line skipped tags None None None None
                        initialFields with
      | Some (fs, _) => Some (mkTest uid DOCTest (runnableId r) group n, fs)
      | None => None
      end
  | ErrorCase title message =>
      match _updateBase r title None None true []
                        (Some "⚡️ Run me for details ⚡️"%string) None None
                        (Some (mkStatic StaticErrored message)) initialFields with
      | Some (fs, _) => Some (mkTest uid ErrorTest (runnableId r) group title, fs)
      | None => None
      end
  end.

(** [updateTest(old)].  For a test case it is
    [(old as DOCTest).update(filePath, line, tags, skipped)]; the class of
    [_createError] has no [update], and the call throws a [TypeError].  For
    the error node it is [() => false]. *)
Definition updateTest (r : Runnable) (spec : TestSpec) (old : AbstractTest)
    (this : TestFields) : option (TestFields * bool) :=
  match spec with
  | DocCase _ f line skipped tags =>
      match test_class old with
      | DOCTest =>
          _updateBase r (_label this) f line skipped tags (_testDescription this)
                      (_typeParam this) (_valueParam this) (_staticEvent this) this
      | ErrorTest => None
      end
  | ErrorCase _ _ => Some (this, false)
  end.

(** [compare (testNameAsId)]: [DOCTest] compares with its own identity;
    the class of [_createError] compares the argument with itself. *)
Definition AbstractTest_compare (t : AbstractTest) (name : string) : bool :=
  match test_class t with
  | DOCTest => bool_decide (testNameAsId t = name)
  | ErrorTest => bool_decide (name = name)
  end.

(** [group.children.find(t => t instanceof AbstractTest && t.compare(name))]. *)
Fixpoint findTest (name : string) (l : list TestItem) : option AbstractTest :=
  match l with
  | [] => None
  | ITest t :: l' =>
      if AbstractTest_compare t name then Some t else findTest name l'
  | ISuite _ :: l' => findTest name l'
  end.

Definition _createSubtreeAndAddTest (r : Runnable) (spec : TestSpec) (st : State)
    : Outcome (AbstractTest * bool) :=
  let '(group, st1) := walkGrouping (specGrouping r spec) (_rootSuite r) st in
  match findTest (specName spec) (childrenOf st1 group) with
  | Some old =>
      match updateTest r spec old (fieldsOf st1 old) with
      | Some (fs, changed) => Return (old, changed) (setFields old fs st1)
      | None => Throw st1
      end
  | None =>
      match createTest r spec group (nextUid st1) with
      | Some (test, fs) =>
          let st2 := addTest group test st1 in
          Return (test, true)
                 (mkState (children st2) (<[test := fs]> (fields st2))
                          (setAdd test (_tests st2)) (_lastReloadTime st2)
                          (S (nextUid st2)))
      | None => Throw st1
      end
  end.

(** [RunnableReloadResult]. *)
Record RunnableReloadResult : Type := mkReloadResult {
  tests : list AbstractTest;
  changedAny : bool;
}.

Definition emptyReloadResult : RunnableReloadResult := mkReloadResult [] false.

Definition add (res : RunnableReloadResult) (test : AbstractTest) (changed : bool)
    : RunnableReloadResult :=
  mkReloadResult (setAdd test (tests res)) (changedAny res || changed).

(** A cancellation flag as seen by one reload: its value at the guard of
    [reloadTests] (read [0]) and at iteration [i] of the listing loop (read
    [S i]). *)
Definition CancellationFlag : Type := nat → bool.

(** The loop of [_reloadFromString] over the test cases of the listing. *)
Fixpoint reloadLoop (r : Runnable) (cancellationFlag : CancellationFlag)
    (testCases : list TestSpec) (i : nat) (reloadResult : RunnableReloadResult)
    (st : State) : Outcome RunnableReloadResult :=
  match testCases with
  | [] => Return reloadResult st
  | testCase :: rest =>
      if cancellationFlag (S i) then Return reloadResult st
      else
        match _createSubtreeAndAddTest r testCase st with
        | Return (test, changed) st1 =>
            reloadLoop r cancellationFlag rest (S i) (add reloadResult test changed) st1
        | Throw st1 => Throw st1
        end
  end.

(** What the enumeration of the executable gave: the test cases of its
    listing, unexpected output on stderr, or a failure to spawn or to parse
    (an exception before the tree is touched). *)
Inductive Enumeration : Type :=
| Listing (testCases : list TestSpec)
| UnexpectedStdErr (stdout stderr : string)
| EnumerationFailure.

(** [os.EOL] on POSIX systems. *)
Definition EOL : string := String (ascii_of_nat 10) EmptyString.

Definition unexpectedStdErrMessage (stdout stderr : string) : string :=
  String.concat EOL
    [ "❗️Unexpected stderr!";
      "(One might can use ignoreTestEnumerationStdErr as the LAST RESORT. Check README for details.)";
      "spawn"; "stout:"; stdout; "stderr:"; stderr ]%string.

Definition _createAndAddError (r : Runnable) (label message : string) (st : State)
    : Outcome RunnableReloadResult :=
  match _createSubtreeAndAddTest r (ErrorCase label message) st with
  | Return (test, changed) st1 => Return (add emptyReloadResult test changed) st1
  | Throw st1 => Throw st1
  end.

(** [_reloadFromString] of the doctest runnable on a listing that the
    parser of the XML accepted.  A listing without a test case has no
    [TestCase] property: reading [res.doctest.TestCase.length] throws a
    [TypeError] before the loop. *)
Definition _reloadFromString (r : Runnable) (testCases : list TestSpec)
    (cancellationFlag : CancellationFlag) (st : State) : Outcome RunnableReloadResult :=
  match testCases with
  | [] => Throw st
  | _ :: _ => reloadLoop r cancellationFlag testCases 0 emptyReloadResult st
  end.

(** [_reloadChildren] of the doctest runnable, after the listing was
    obtained from the cache or from the executable. *)
Definition _reloadChildren (r : Runnable) (enumeration : Enumeration)
    (cancellationFlag : CancellationFlag) (st : State) : Outcome RunnableReloadResult :=
  match enumeration with
  | Listing testCases => _reloadFromString r testCases cancellationFlag st
  | UnexpectedStdErr stdout stderr =>
      _createAndAddError r "⚡️ Unexpected ERROR while parsing"
                         (unexpectedStdErrMessage stdout stderr) st
  | EnumerationFailure => Throw st
  end.

(** The body of [toRemove.forEach]. *)
Definition removeTest (st : State) (t : AbstractTest) : State :=
  let st1 := removeWithLeafAscendants t st in
  mkState (children st1) (fields st1) (setDelete t (_tests st1))
          (_lastReloadTime st1) (nextUid st1).

Definition setLastReloadTime (time : option Z) (st : State) : State :=
  mkState (children st) (fields st) (_tests st) time (nextUid st).

(** The test of [reloadTests] on the modification time: the reload is not
    skipped. *)
Definition notSkipped (st : State) (lastModiTime : option Z) : Prop :=
  _lastReloadTime st = None ∨ lastModiTime = None ∨ _lastReloadTime st ≠ lastModiTime.

(** [reloadTests], for any implementation [reloadChildren] of the abstract
    [_reloadChildren].  [cancelled] is the flag at the call,
    [lastModiTime] what [_getModiTime] gives: the modification time of the
    executable, or [None] when it cannot be read. *)
Definition reloadTests (reloadChildren : State → Outcome RunnableReloadResult)
    (cancelled : bool) (lastModiTime : option Z) (st : State) : Outcome unit :=
  if cancelled then Return () st
  else if bool_decide (notSkipped st lastModiTime)
  then
    match reloadChildren (setLastReloadTime lastModiTime st) with
    | Return reloadResult st1 =>
        let toRemove := filter (λ t, t ∉ tests reloadResult) (_tests st1) in
        if bool_decide (0 < length toRemove) || changedAny reloadResult
        then Return () (foldl removeTest st1 toRemove)
        else Return () st1
    | Throw st1 => Throw st1
    end
  else Return () st.

(** [reloadTests] of the doctest runnable. *)
Definition reloadTestsDOC (r : Runnable) (enumeration : Enumeration)
    (cancellationFlag : CancellationFlag) (lastModiTime : option Z) (st : State)
    : Outcome unit :=
  reloadTests (_reloadChildren r enumeration cancellationFlag)
              (cancellationFlag 0) lastModiTime st.

(** *** Invariants of the tree *)

Definition itemUid (x : TestItem) : nat :=
  match x with ISuite s => suite_uid s | ITest t => test_uid t end.

Definition itemParent (x : TestItem) : option Suite :=
  match x with ISuite s => suite_parent s | ITest t => Some (parent t) end.

(** The (label, description) pairs of the sub-suites in a [children]
    array, in order. *)
Definition siblingKeys (l : list TestItem) : list (string * string) :=
  omap (λ x, match x with
             | ISuite s => Some (suite_label s, suite_description s)
             | ITest _ => None
             end) l.

(** No two sub-suites of one suite have the same (label, description). *)
Definition noDuplicateSiblings (st : State) : Prop :=
  ∀ g, NoDup (siblingKeys (childrenOf st g)).

(** A tree as the constructors build it: every entry of a [children]
    array is there once, has that suite as its [parent], and was allocated
    before [nextUid]; so was the root. *)
Definition arrayOk (n : nat) (g : Suite) (l : list TestItem) : Prop :=
  (l ≠ [] → suite_uid g < n) ∧ NoDup l
  ∧ Forall (λ x, itemParent x = Some g ∧ itemUid x < n) l.

Definition wellFormed (root : Suite) (st : State) : Prop :=
  suite_uid root < nextUid st ∧ map_Forall (arrayOk (nextUid st)) (children st).

Global Instance arrayOk_dec n g l : Decision (arrayOk n g l).
Proof. unfold arrayOk. apply _. Defined.

Global Instance wellFormed_dec root st : Decision (wellFormed root st).
Proof. unfold wellFormed. apply _. Defined.

(** The two parts of it that removals rely on. *)
Definition noRepeat (st : State) : Prop := ∀ g, NoDup (childrenOf st g).

Definition coherent (st : State) : Prop :=
  ∀ g x, x ∈ childrenOf st g → itemParent x = Some g.

(** A suite that had children in [st0] and has none in [st]. *)
Definition becameEmpty (st0 st : State) (g : Suite) : Prop :=
  childrenOf st0 g ≠ [] ∧ childrenOf st g = [].

(** With respect to a state [st0]: every suite that had children then and
    has none now is detached from its parent; one suite may be excepted. *)
Definition prunedExcept (st0 st : State) (except : option Suite) : Prop :=
  ∀ h p, Some h ≠ except → suite_parent h = Some p → becameEmpty st0 st h →
         ISuite h ∉ childrenOf st p.

(** The grouping levels looked up without creating anything. *)
Fixpoint walkFind (levels : list (string * string * string)) (group : Suite)
    (st : State) : option Suite :=
  match levels with
  | [] => Some group
  | (label, description, _) :: rest =>
      match findSuite label description (childrenOf st group) with
      | Some g => walkFind rest g st
      | None => None
      end
  end.

(** [st'] has what [st] has and possibly more: arrays grew at the end
    only. *)
Definition extends (st st' : State) : Prop :=
  (∀ g, childrenOf st g `prefix_of` childrenOf st' g)
  ∧ nextUid st ≤ nextUid st'
  ∧ (∀ t, t ∈ _tests st → t ∈ _tests st')
  ∧ _lastReloadTime st' = _lastReloadTime st.

(** In [st] the groups of [spec] all exist and the group they lead to
    holds [t] as the first test that compares equal to the name. *)
Definition resolves (r : Runnable) (st : State) (spec : TestSpec) (t : AbstractTest)
    : Prop :=
  ∃ group, walkFind (specGrouping r spec) (_rootSuite r) st = Some group
           ∧ findTest (specName spec) (childrenOf st group) = Some t.

(** Whether [_updateBase] throws on a line number. *)
Definition lineThrows (line : option Z) : bool :=
  match line with
  | Some l => bool_decide (l ≠ 0 ∧ l < 0)%Z
  | None => false
  end.

(** Whether [updateTest (old)] and [createTest (group)] throw. *)
Definition updateThrows (spec : TestSpec) (old : AbstractTest) : bool :=
  match spec with
  | DocCase _ _ line _ _ =>
      match test_class old with DOCTest => lineThrows line | ErrorTest => true end
  | ErrorCase _ _ => false
  end.

Definition createThrows (spec : TestSpec) : bool :=
  match spec with
  | DocCase _ _ line _ _ => lineThrows line
  | ErrorCase _ _ => false
  end.

(** In [st] the groups of [spec] all exist and [_createSubtreeAndAddTest]
    throws after looking them up. *)
Definition throwsIn (r : Runnable) (st : State) (spec : TestSpec) : Prop :=
  ∃ group, walkFind (specGrouping r spec) (_rootSuite r) st = Some group
           ∧ match findTest (specName spec) (childrenOf st group) with
             | Some old => updateThrows spec old = true
             | None => createThrows spec = true
             end.

(** The course of the listing loop from read [i] of the flag on: the test
    cases it got through, each with the test it returned, and the test
    case it threw on, if it did. *)
Inductive Course (cancellationFlag : CancellationFlag)
    : list TestSpec → nat → list (TestSpec * AbstractTest) → option TestSpec → Prop :=
| course_end i : Course cancellationFlag [] i [] None
| course_cancelled spec rest i :
    cancellationFlag (S i) = true → Course cancellationFlag (spec :: rest) i [] None
| course_step spec rest i t done thrown :
    cancellationFlag (S i) = false →
    Course cancellationFlag rest (S i) done thrown →
    Course cancellationFlag (spec :: rest) i ((spec, t) :: done) thrown
| course_throw spec rest i :
    cancellationFlag (S i) = false →
    Course cancellationFlag (spec :: rest) i [] (Some spec).

(** The test cases of a course are settled in [st]: each resolves to its
    test, and updating that test does not throw. *)
Definition settled (r : Runnable) (st : State) (done : list (TestSpec * AbstractTest))
    : Prop :=
  Forall (λ p, resolves r st p.1 p.2 ∧ updateThrows p.1 p.2 = false) done.

(** The tests of the reload result of a course. *)
Definition resultTests (start : list AbstractTest) (done : list (TestSpec * AbstractTest))
    : list AbstractTest :=
  foldl (λ l p, setAdd p.2 l) start done.

(** The loop that [_reloadChildren] runs for an enumeration, if it gets
    that far: its cancellation flag and its test cases. *)
Definition loopOf (enumeration : Enumeration) (cancellationFlag : CancellationFlag)
    : option (CancellationFlag * list TestSpec) :=
  match enumeration with
  | Listing [] => None
  | Listing testCases => Some (cancellationFlag, testCases)
  | UnexpectedStdErr stdout stderr =>
      Some (λ _, false,
            [ErrorCase "⚡️ Unexpected ERROR while parsing"
                       (unexpectedStdErrMessage stdout stderr)])
  | EnumerationFailure => None
  end.

(** A test case of a listing, as opposed to the error node. *)
Definition isDocCase (spec : TestSpec) : Prop :=
  match spec with DocCase _ _ _ _ _ => True | ErrorCase _ _ => False end.

Global Instance isDocCase_dec spec : Decision (isDocCase spec).
Proof. destruct spec; apply _. Defined.

(** The fields of [p.2] are what an update for [p.1] writes: a further
    update changes nothing. *)
Definition upToDate (r : Runnable) (st : State) (p : TestSpec * AbstractTest) : Prop :=
  ∃ f, fields st !! p.2 = Some f ∧ updateTest r p.1 p.2 f = Some (f, false).


(** [route ()] and the array [[...test.route()]]: the parent first, the
    root last. *)
Fixpoint suiteRoute (s : Suite) : list Suite :=
  s :: match s with
       | RootSuite _ => []
       | ChildSuite _ _ _ _ p => suiteRoute p
       end.

Definition route (t : AbstractTest) : list Suite := suiteRoute (parent t).

(** The root a suite hangs from. *)
Fixpoint rootOf (s : Suite) : Suite :=
  match s with
  | RootSuite _ => s
  | ChildSuite _ _ _ _ p => rootOf p
  end.

(** The tree contains an item when a chain of [children] arrays leads from
    the root to it. *)
Inductive contains (st : State) (root : Suite) : TestItem → Prop :=
| contains_child x : x ∈ childrenOf st root → contains st root x
| contains_below g x :
    contains st root (ISuite g) → x ∈ childrenOf st g → contains st root x.

(** The [children] arrays hold suites only: no test is in the tree. *)
Definition suitesOnly (st : State) : Prop :=
  ∀ g x, x ∈ childrenOf st g → ∃ s, x = ISuite s.

(** What a removal leaves in place: a test other than the ones removed,
    and a suite that still has children at the end. *)
Definition survives (final : State) (gone : list AbstractTest) (x : TestItem) : Prop :=
  match x with
  | ITest t => t ∉ gone
  | ISuite g => childrenOf final g ≠ []
  end.

(** [removeTests]: every test of the runnable is taken out of the tree,
    then [_tests] is replaced by an empty set. *)
Definition removeTests (st : State) : State :=
  let st1 := foldl (λ s t, removeWithLeafAscendants t s) st (_tests st) in
  mkState (children st1) (fields st1) [] (_lastReloadTime st1) (nextUid st1).

End Tree.

(** ** Selection: [AbstractTest.collectTestToRun] *)

Module Selection.

(** [get skipped()]: the test's own flag or the runnable's [markAsSkipped]. *)
Definition skipped (f : TestFields) (markAsSkipped : bool) : bool :=
  _skipped f || markAsSkipped.

Definition collectTestToRun (this : AbstractTest) (f : TestFields)
    (markAsSkipped : bool) (tests : list TestItem) (isParentIn : bool)
    (filter : AbstractTest → bool) : list AbstractTest :=
  if (isParentIn && negb (skipped f markAsSkipped))
     || bool_decide (is_Some (indexOf tests (ITest this)))
  then if filter this then [this] else []
  else [].

(** The default value of the [filter] parameter. *)
Definition defaultFilter : AbstractTest → bool := λ _, true.

End Selection.

(** ** Batching: [_splitTestsToSmallEnoughSubsets] *)

Module Batching.

Definition limit : Z := 30000.

Definition idLength (t : AbstractTest) : Z :=
  Z.of_nat (String.length (testNameAsId t)).

(** The [for ... of] loop.  [subsets] is [done ++ [lastSet]]: [lastSet] is
    the array most recently pushed, and [lastSet.push] extends it in place. *)
Fixpoint splitLoop (tests : list AbstractTest) (done : list (list AbstractTest))
    (lastSet : list AbstractTest) (charCount : Z) : list (list AbstractTest) :=
  match tests with
  | [] => done ++ [lastSet]
  | test :: rest =>
      if decide (limit ≤ charCount + idLength test)%Z
      then splitLoop rest (done ++ [lastSet]) [test] (charCount + idLength test)%Z
      else splitLoop rest done (lastSet ++ [test]) (charCount + idLength test)%Z
  end.

Definition _splitTestsToSmallEnoughSubsets (tests : list AbstractTest)
    : list (list AbstractTest) :=
  splitLoop tests [] [] 0%Z.

(** Cumulative [testNameAsId.length] of a batch. *)
Definition cumulativeLength (b : list AbstractTest) : Z :=
  foldr (λ t n, idLength t + n)%Z 0%Z b.

(** A test whose identity has [n] characters. *)
Fixpoint repeatChar (n : nat) : string :=
  match n with O => EmptyString | S n' => String "a"%char (repeatChar n') end.

Definition testOfLength (n : Z) : AbstractTest :=
  mkTest 1 DOCTest 0 (RootSuite 0) (repeatChar (Z.to_nat n)).

(** What the loop guarantees of a batch: its identities stay below the
    limit together, or it holds one test only. *)
Definition smallEnough (b : list AbstractTest) : Prop :=
  (cumulativeLength b < limit)%Z ∨ ∃ t, b = [t].

(** Loop invariant tying [charCount] to the open batch. *)
Definition openBatch (lastSet : list AbstractTest) (charCount : Z) : Prop :=
  (cumulativeLength lastSet ≤ charCount ∧ charCount < limit)%Z
  ∨ ((limit ≤ charCount)%Z ∧ ∃ t, lastSet = [t]).

End Batching.

(** ** Parallel buckets: [_splitTestSetForMultirunIfEnabled] *)

Module Multirun.

(** [Math.round (a / b)] for counts [a] and a positive [b]: the quotient
    rounded to the nearest integer, halves upwards. *)
Definition roundDiv (a b : nat) : nat := (2 * a + b) `div` (2 * b).

(** [buckets[j].push(test)]. *)
Definition pushAt (j : nat) (test : AbstractTest)
    (buckets : list (list AbstractTest)) : list (list AbstractTest) :=
  alter (λ b, b ++ [test]) j buckets.

(** The second [for] loop, from index [i] on. *)
Fixpoint distribute (tests : list AbstractTest) (i : nat)
    (buckets : list (list AbstractTest)) : list (list AbstractTest) :=
  match tests with
  | [] => buckets
  | test :: rest =>
      distribute rest (S i) (pushAt (i `mod` length buckets) test buckets)
  end.

Definition testPerTask (testsSize parallelizationLimit : nat) : nat :=
  1 `max` roundDiv testsSize parallelizationLimit.

Definition targetTaskCount (testsSize parallelizationLimit n : nat) : nat :=
  n `min` (1 `max` roundDiv n (testPerTask testsSize parallelizationLimit)).

(** [testsSize] is [this.tests.size], the number of tests the runnable
    knows; [tests] is the selection to run. *)
Definition _splitTestSetForMultirunIfEnabled (parallelizationLimit testsSize : nat)
    (tests : list AbstractTest) : list (list AbstractTest) :=
  if decide (1 < parallelizationLimit)
  then distribute tests 0
         (replicate (targetTaskCount testsSize parallelizationLimit (length tests)) [])
  else [tests].

(** The tests at the positions [i], [i + k], [i + 2k], ... of a list whose
    first element has position [i0]. *)
Fixpoint everyKth (k j i0 : nat) (tests : list AbstractTest) : list AbstractTest :=
  match tests with
  | [] => []
  | t :: rest =>
      if decide (i0 `mod` k = j) then t :: everyKth k j (S i0) rest
      else everyKth k j (S i0) rest
  end.

(** The size of bucket [j] after [i] tests have been dealt into [k]
    buckets that were empty before: [i / k], and one more if
    [j < i mod k]. *)
Definition dealt (k i j : nat) : nat :=
  i `div` k + (if decide (j < i `mod` k) then 1 else 0).

End Multirun.

(** ** Events *)

(** [AbstractTestEvent], the type the doctest runnable gives to the
    events it hands to [sendTestRunEvent]. *)
Record AbstractTestEvent : Type := mkTestEvent {
  ev_test : AbstractTest;
  ev_state : string;
  ev_message : string;
}.

(** What a run reports, in order.  [Suite.ts] is not among the sources, so
    a call of [sendRunningEventIfNeeded] or [sendCompletedEventIfNeeded] on
    a suite is recorded as such ([RootSuite] overrides both with an empty
    body).  [TestChanged t s] is the assignment [t.state = s] followed by
    [onDidChangeTest (t, false)]; [TestRunEvent ev] is [sendTestRunEvent
    (ev)], with [None] for [undefined]. *)
Inductive Event : Type :=
| SuiteRunning (s : Suite)
| SuiteCompleted (s : Suite)
| TestChanged (t : AbstractTest) (s : TestState)
| TestRunEvent (ev : option AbstractTestEvent).

(** The test a report is about, if it is about a test. *)
Definition eventTest (e : Event) : option AbstractTest :=
  match e with
  | TestChanged t _ => Some t
  | TestRunEvent ev => ev_test <$> ev
  | SuiteRunning _ | SuiteCompleted _ => None
  end.

Definition eventsOfTest (t : AbstractTest) (events : list Event) : list Event :=
  filter (λ e, eventTest e = Some t) events.

(** A call of one of the two methods of a suite. *)
Definition isSuiteEvent (e : Event) : Prop :=
  match e with
  | SuiteRunning _ | SuiteCompleted _ => True
  | TestChanged _ _ | TestRunEvent _ => False
  end.

Global Instance isSuiteEvent_dec e : Decision (isSuiteEvent e).
Proof. destruct e; apply _. Defined.

(** [RootSuite] overrides [sendRunningEventIfNeeded] and
    [sendCompletedEventIfNeeded] with an empty body: a call on the root
    suite reports nothing.  What a call on another suite reports is decided
    in [Suite.ts]. *)
Definition onRootSuite (e : Event) : bool :=
  match e with
  | SuiteRunning (RootSuite _) | SuiteCompleted (RootSuite _) => true
  | _ => false
  end.

(** The calls that are left when those with an empty body are taken
    out. *)
Definition withoutRoot (events : list Event) : list Event :=
  filter (λ e, onRootSuite e = false) events.

(** ** Streaming result parser *)

Module Streaming.
Import Tree.

(** The second loop of the scan in [sendMinimalEventsIfNeeded]:
    [do { ++completedIndex; runningIndex = running.indexOf(...) } while (...)]
    [rest] is the part of [completed] from [completedIndex] on.  Past the
    end [completed[completedIndex]] is [undefined], which [running] does not
    hold, and the loop stops there. *)
Fixpoint scanCompleted (rest running : list Suite) (completedIndex : nat)
    : nat * option nat :=
  match rest with
  | [] => (completedIndex, None)
  | c :: rest' =>
      match indexOf running c with
      | Some runningIndex => (completedIndex, Some runningIndex)
      | None => scanCompleted rest' running (S completedIndex)
      end
  end.

(** Modelled from the spec: [reverse] of [Util.ts] is not among the sources;
    newly entered ancestors are opened in "a well-defined nesting order",
    the outermost first, which is the order of the index loop in the last
    branch below. *)
Definition reverse {A} (array : list A) : list A := rev array.

Definition sendMinimalEventsIfNeeded (completed running : list Suite) : list Event :=
  match completed, running with
  | [], _ => SuiteRunning <$> reverse running
  | _, [] => SuiteCompleted <$> completed
  | c0 :: _, r0 :: _ =>
      if decide (c0 = r0) then []
      else
        let '(completedIndex, runningIndex) := scanCompleted completed running 0 in
        (SuiteCompleted <$> take completedIndex completed)
        ++ (SuiteRunning <$> match runningIndex with
                             | Some i => rev (take i running)
                             | None => []
                             end)
  end.

(** The state objects that [AbstractTest] assigns. *)
Definition getStartEvent : TestState := mkTestState Running [].

Definition getSkippedEvent : TestState := mkTestState Skipped [].

Definition dquote : string := String (ascii_of_nat 34) EmptyString.
Definition newline : string := String (ascii_of_nat 10) EmptyString.

Definition getCancelledEvent (testOutput : string) : TestState :=
  mkTestState Unset
    [ ("⏹ Run is stopped by user. ✋" ++ newline ++ newline ++ "Test Output : R"
       ++ dquote ++ dquote ++ dquote ++ testOutput ++ dquote ++ dquote ++ dquote)%string ].

(** [secondsToString milisec] is the string JavaScript gives for
    [milisec / 1000]. *)
Definition getTimeoutEvent (secondsToString : Z → string) (milisec : Z) : TestState :=
  mkTestState Errored
    [ ("⌛️ Timed out: " ++ dquote ++ "testMate.cpp.test.runtimeLimit" ++ dquote
       ++ ": " ++ secondsToString milisec ++ " second(s).")%string ].

Definition getFailedEventBase (testRunState : TestRunState) (message : string)
    : TestState :=
  mkTestState testRunState [message].

(** The [data] object of [_handleProcess]. *)
Record ProcessData : Type := mkData {
  stdoutAndErrBuffer : string;
  currentTestCaseNameFull : option string;
  currentChild : option AbstractTest;
  data_route : list Suite;
  unprocessedTestCases : list string;
  processedTestCases : list AbstractTest;
}.

(** What [_handleProcess] reads of [runInfo]. *)
Record RunningRunnable : Type := mkRunInfo {
  isCancellationRequested : bool;
  timeout : option Z;
  childrenToRun : list AbstractTest;
}.

(** [ProcessResult]: the message of its [error], if it has one. *)
Record ProcessResult : Type := mkResult { error : option string }.

(** [_findTest]: the first test of [this._tests] that satisfies [pred]. *)
Definition _findTest (tests : list AbstractTest) (pred : AbstractTest → bool)
    : option AbstractTest :=
  List.find pred tests.

(** [string.substr (from)]. *)
Definition substrFrom (s : string) (from : nat) : string :=
  String.substring from (String.length s - from) s.

(** The branch of [processChunk] taken when no test case is open and
    [testBeginRe] matches: [m1] is the group [m[1]], [mIndex] is
    [m.index]. *)
Definition testCaseBegin (tests : list AbstractTest) (data : ProcessData)
    (m1 : string) (mIndex : nat) : list Event * ProcessData :=
  match _findTest tests (λ v, bool_decide (testNameAsId v = m1)) with
  | Some test =>
      let route := route test in
      (sendMinimalEventsIfNeeded (data_route data) route
       ++ [TestChanged test getStartEvent],
       mkData (substrFrom (stdoutAndErrBuffer data) mIndex) (Some m1) (Some test)
              route (unprocessedTestCases data) (processedTestCases data))
  | None =>
      ([], mkData (substrFrom (stdoutAndErrBuffer data) mIndex) (Some m1)
                  (currentChild data) (data_route data)
                  (unprocessedTestCases data) (processedTestCases data))
  end.

(** [isTestRemoved], the same in both runnables. *)
Definition isTestRemoved (runInfo : RunningRunnable) (result : ProcessResult)
    (processed : nat) : bool :=
  bool_decide (timeout runInfo = None)
  && negb (isCancellationRequested runInfo)
  && bool_decide (error result = None)
  && bool_decide (processed < length (childrenToRun runInfo)).

(** The [then] callback of [GoogleTestRunnable._handleProcess], up to the
    call of [reloadTests]: the events, the data left, and whether
    [reloadTests] is called. *)
Definition processEnd (secondsToString : Z → string) (data : ProcessData)
    (runInfo : RunningRunnable) (result : ProcessResult)
    : list Event * ProcessData * bool :=
  let terminal :=
    match currentTestCaseNameFull data, currentChild data with
    | Some _, Some child =>
        if isCancellationRequested runInfo
        then [TestChanged child (getCancelledEvent (stdoutAndErrBuffer data))]
        else
          match timeout runInfo with
          | Some milisec =>
              [TestChanged child (getTimeoutEvent secondsToString milisec)]
          | None =>
              let message := "😱 Unexpected error !!"%string in
              let state := Failed in
              let '(state, message) :=
                match error result with
                | Some errorMessage =>
                    (Errored, (message ++ newline ++ errorMessage)%string)
                | None => (state, message)
                end in
              let message :=
                (message ++ if decide (stdoutAndErrBuffer data = ""%string) then ""
                            else (newline ++ newline ++ ">>>"
                                  ++ stdoutAndErrBuffer data ++ "<<<"))%string in
              [TestChanged child (getFailedEventBase state message)]
          end
    | _, _ => []
    end in
  (terminal ++ sendMinimalEventsIfNeeded (data_route data) [],
   mkData (stdoutAndErrBuffer data) (currentTestCaseNameFull data)
          (currentChild data) [] (unprocessedTestCases data)
          (processedTestCases data),
   bool_decide (0 < length (unprocessedTestCases data))
   || isTestRemoved runInfo result (length (processedTestCases data))).

(** The [data] object of the doctest runnable. *)
Record DOCProcessData : Type := mkDOCData {
  stdoutBuffer : string;
  stderrBuffer : string;
  inTestCase : bool;
  doc_currentChild : option AbstractTest;
  doc_route : list Suite;
  unprocessedXmlTestCases : list (string * string);
  doc_processedTestCases : list AbstractTest;
}.


(** How the [then] callback of the doctest [_handleProcess] ends, up to
    the call of [reloadTests].  Either it gets there: the reports made, the
    data left, and whether [reloadTests] is called.  Or it throws a
    [TypeError] at [ev.message = ...], [ev] being [undefined], after
    [child.getFailedEventBase (testRunId)] has assigned [child.state = new
    TestState (testRunState, [{ message: undefined }])] with the run id for
    [testRunState] and called [onDidChangeTest]. *)
Inductive CallbackEnd : Type :=
| CallbackReturned (events : list Event) (data : DOCProcessData)
                   (reloadTestsCalled : bool)
| CallbackThrown (child : AbstractTest) (testRunState : string).

Definition reloadTestsCalled (e : CallbackEnd) : bool :=
  match e with
  | CallbackReturned _ _ called => called
  | CallbackThrown _ _ => false
  end.




End Streaming.

(** ** Execution orchestrator: [run] *)

Module Run.
Import Tree Streaming.

(** [runTasks]: the tasks run one after the other; [executeTask] gives the
    exit code of a task, [None] for [undefined].  The result is the message
    of the [Error] thrown, or [None] when every task went through. *)
Fixpoint runTaskLoop (executeTask : string → option Z) (type : string)
    (tasks : list string) : option string :=
  match tasks with
  | [] => None
  | taskName :: rest =>
      match executeTask taskName with
      | Some exitCode =>
          if decide (exitCode ≠ 0%Z)
          then Some ("Task " ++ dquote ++ taskName ++ dquote
                     ++ " has returned with exitCode(" ++ pretty exitCode
                     ++ ") != 0. (`testMate.test.advancedExecutables:runTask."
                     ++ type ++ "`)")%string
          else runTaskLoop executeTask type rest
      | None => runTaskLoop executeTask type rest
      end
  end.

Definition runTasks (executeTask : string → option Z) (type : string)
    (tasks : list string) : option string :=
  match runTaskLoop executeTask type tasks with
  | Some e =>
      Some ("One of the tasks of the `testMate.test.advancedExecutables:runTask."
            ++ type ++ "` array has failed: Error: " ++ e)%string
  | None => None
  end.

(** The tasks that the loop of [runTasks] hands to [executeTask], in
    order: the loop is left at the first exit code that is not zero. *)
Fixpoint executedTasks (executeTask : string → option Z) (tasks : list string)
    : list string :=
  match tasks with
  | [] => []
  | taskName :: rest =>
      taskName ::
      match executeTask taskName with
      | Some exitCode =>
          if decide (exitCode ≠ 0%Z) then [] else executedTasks executeTask rest
      | None => executedTasks executeTask rest
      end
  end.

(** [getStaticEvent]: the report it makes, if any, and its result. *)
Definition getStaticEvent (st : State) (t : AbstractTest) : list Event * bool :=
  match _staticEvent (fieldsOf st t) with
  | Some staticEvent =>
      ([TestChanged t (mkTestState Errored [static_message staticEvent])], true)
  | None => ([], false)
  end.

(** [sendStaticEvents]: the parameter [staticEvent] is not used by the
    body. *)
Definition sendStaticEvents (st : State) (childrenToRun : list AbstractTest)
    (staticEvent : option StaticTestEventBase) : list Event :=
  concat ((λ test, (getStaticEvent st test).1) <$> childrenToRun).

(** [sentStaticErrorEvent] for a thrown [Error] with message [err]. *)
Definition sentStaticErrorEvent (st : State) (childrenToRun : list AbstractTest)
    (err : string) : list Event :=
  sendStaticEvents st childrenToRun
    (Some (mkStatic StaticErrored ("⚡️ Error: " ++ err)%string)).

(** What a run did: its reports, and the processes it spawned, each with
    the tests handed to it. *)
Record RunLog : Type := mkRunLog {
  events : list Event;
  spawned : list (list AbstractTest);
}.

(** How a call of [_runProcess] ends: its promise is fulfilled, or it is
    rejected with an error that [isSpawnBusyError] accepts, or with another
    error. *)
Inductive ProcessEnd : Type := Fulfilled | SpawnBusy | Rejected.

(** [_runInner] for one sub-batch: tests with a static event are reported
    (the method is called twice on each) and left out; the rest is handed
    to [_runProcess] unless the run is cancelled.  When the executable is
    busy the same tests are handed to it once more, two seconds later, and
    that second call is not waited for.  The result tells whether the
    promise of [_runInner] is rejected.  [TaskPool] is not among the
    sources: [scheduleTask] is taken to run the task it is given. *)
Definition _runInner (st : State) (cancelled : bool)
    (runProcess : list AbstractTest → ProcessEnd)
    (childrenToRun : list AbstractTest) : RunLog * bool :=
  let reported :=
    concat ((λ t, (getStaticEvent st t).1 ++ (getStaticEvent st t).1)
            <$> childrenToRun) in
  let runnableDescendant :=
    filter (λ t, (getStaticEvent st t).2 = false) childrenToRun in
  if decide (runnableDescendant = []) then (mkRunLog reported [], false)
  else if cancelled then (mkRunLog reported [], false)
  else match runProcess runnableDescendant with
       | Fulfilled => (mkRunLog reported [runnableDescendant], false)
       | SpawnBusy =>
           (mkRunLog reported [runnableDescendant; runnableDescendant], false)
       | Rejected => (mkRunLog reported [runnableDescendant], true)
       end.

Definition appendLog (a b : RunLog) : RunLog :=
  mkRunLog (events a ++ events b) (spawned a ++ spawned b).

(** [for (const testSet of smallerTestSet) await this._runInner (...)]: the
    loop is left at the first rejection. *)
Fixpoint runSubsets (st : State) (cancelled : bool)
    (runProcess : list AbstractTest → ProcessEnd)
    (smallerTestSet : list (list AbstractTest)) : RunLog * bool :=
  match smallerTestSet with
  | [] => (mkRunLog [] [], false)
  | testSet :: rest =>
      let '(log, rejected) := _runInner st cancelled runProcess testSet in
      if rejected then (log, true)
      else
        let '(log', rejected') := runSubsets st cancelled runProcess rest in
        (appendLog log log', rejected')
  end.

(** The configuration of a run of one runnable.  [collectChildrenToRun] is
    [this._rootSuite.collectTestToRun (tests, isParentIn, filter)] on the
    current tree ([Suite.collectTestToRun] is not among the sources);
    [reload] is the [reloadTests] of step two, which may throw;
    [runProcess] tells how [_runProcess] ends for a list of tests. *)
Record RunConfig : Type := mkRunConfig {
  executeTask : string → option Z;
  beforeEach : list string;
  afterEach : list string;
  parallelizationLimit : nat;
  collectChildrenToRun : State → list AbstractTest;
  reload : State → Outcome unit;
  runProcess : list AbstractTest → ProcessEnd;
  cancelled : bool;
}.

(** [run]: what it did, the tree it leaves, and whether the promise it
    returns is rejected.  The buckets run concurrently in the source;
    their logs are listed bucket by bucket.  A rejection in one bucket does
    not stop the others, but [Promise.all] is rejected then and the
    [afterEach] tasks are not run.  Neither is anything done after a
    [reloadTests] that throws: the call is not inside a [try]. *)
Definition run (c : RunConfig) (st : State) : RunLog * State * bool :=
  match runTasks (executeTask c) "beforeEach" (beforeEach c) with
  | Some e =>
      (mkRunLog (sentStaticErrorEvent st (collectChildrenToRun c st) e) [], st, false)
  | None =>
      match reload c st with
      | Throw st1 => (mkRunLog [] [], st1, true)
      | Return _ st1 =>
          let childrenToRun := collectChildrenToRun c st1 in
          if decide (childrenToRun = []) then (mkRunLog [] [], st1, false)
          else
            let buckets :=
              Multirun._splitTestSetForMultirunIfEnabled
                (parallelizationLimit c) (length (_tests st1)) childrenToRun in
            let ends :=
              (λ bucket,
                 runSubsets st1 (cancelled c) (runProcess c)
                            (Batching._splitTestsToSmallEnoughSubsets bucket))
              <$> buckets in
            let log := foldl appendLog (mkRunLog [] []) (fst <$> ends) in
            if existsb snd ends then (log, st1, true)
            else
              match runTasks (executeTask c) "afterEach" (afterEach c) with
              | Some e =>
                  (appendLog log
                     (mkRunLog
                        (sentStaticErrorEvent st1 (collectChildrenToRun c st1) e) []),
                   st1, false)
              | None => (log, st1, false)
              end
      end
  end.

End Run.

(** ** Strings and regular expressions *)

(** Strings are sequences of bytes, UTF-8 for what is not ASCII; the
    patterns below look at ASCII characters only. *)
Module Text.

Definition dquote : string := String (ascii_of_nat 34) EmptyString.

(** [[0-9]]. *)
Definition isDigit (c : ascii) : bool :=
  (48 <=? nat_of_ascii c) && (nat_of_ascii c <=? 57).

(** The longest run of digits a string starts with, and the rest. *)
Fixpoint spanDigits (s : string) : string * string :=
  match s with
  | EmptyString => (EmptyString, EmptyString)
  | String c s' =>
      if isDigit c then let '(d, rest) := spanDigits s' in (String c d, rest)
      else (EmptyString, s)
  end.

(** [s] minus the prefix [p], if it starts with it. *)
Fixpoint dropPrefix (p s : string) : option string :=
  match p, s with
  | EmptyString, _ => Some s
  | String a p', String b s' => if decide (a = b) then dropPrefix p' s' else None
  | String _ _, EmptyString => None
  end.

(** [string.match (re)] for a regular expression without the [g] flag: the
    attempt [matchAt] at the leftmost position where it succeeds. *)
Fixpoint search {A} (matchAt : string → option A) (s : string) : option A :=
  match matchAt s with
  | Some m => Some m
  | None =>
      match s with
      | EmptyString => None
      | String _ s' => search matchAt s'
      end
  end.

(** The same, with the part of the string before the match: [m.index] is
    its length. *)
Fixpoint searchSplit {A} (matchAt : string → option A) (s : string)
    : option (string * A) :=
  match matchAt s with
  | Some m => Some (EmptyString, m)
  | None =>
      match s with
      | EmptyString => None
      | String c s' =>
          match searchSplit matchAt s' with
          | Some (before, m) => Some (String c before, m)
          | None => None
          end
      end
  end.

(** The part of [s] before the first occurrence of [pattern], and the part
    after it. *)
Definition splitAtFirst (pattern s : string) : option (string * string) :=
  searchSplit (dropPrefix pattern) s.

(** [GetSubstitution] for a string pattern, which has no captures:
    [$$] is a dollar sign, [$&] the matched text, [$`] the text before
    the match, [$'] the text after it; every other character stands for
    itself. *)
Fixpoint getSubstitution (matched before after template : string) : string :=
  match template with
  | EmptyString => EmptyString
  | String c tail =>
      if decide (c = "$"%char)
      then match tail with
           | String d rest =>
               if decide (d = "$"%char)
               then String "$" (getSubstitution matched before after rest)
               else if decide (d = "&"%char)
               then (matched ++ getSubstitution matched before after rest)%string
               else if decide (d = "`"%char)
               then (before ++ getSubstitution matched before after rest)%string
               else if decide (d = "'"%char)
               then (after ++ getSubstitution matched before after rest)%string
               else String c (getSubstitution matched before after tail)
           | EmptyString => String c EmptyString
           end
      else String c (getSubstitution matched before after tail)
  end.

(** [input.replace (pattern, replacement)] for strings [pattern] and
    [replacement]: the first occurrence is replaced. *)
Definition replace (input pattern replacement : string) : string :=
  match splitAtFirst pattern input with
  | None => input
  | Some (before, after) =>
      (before ++ getSubstitution pattern before after replacement ++ after)%string
  end.

(** A string without a dollar sign. *)
Fixpoint noDollar (s : string) : bool :=
  match s with
  | EmptyString => true
  | String c s' => negb (bool_decide (c = "$"%char)) && noDollar s'
  end.

(** [s.split (separator)] for a separator that matches one character, the
    ones that satisfy [isSep]. *)
Fixpoint splitOn (isSep : ascii → bool) (s : string) : list string :=
  match s with
  | EmptyString => [EmptyString]
  | String c s' =>
      if isSep c then EmptyString :: splitOn isSep s'
      else match splitOn isSep s' with
           | head :: tail => String c head :: tail
           | [] => [String c EmptyString]
           end
  end.

(** A string none of whose characters satisfies [isSep]. *)
Fixpoint hasNo (isSep : ascii → bool) (s : string) : bool :=
  match s with
  | EmptyString => true
  | String c s' => negb (isSep c) && hasNo isSep s'
  end.

(** A string with [f] applied to each of its characters. *)
Fixpoint mapChars (f : ascii → ascii) (s : string) : string :=
  match s with
  | EmptyString => EmptyString
  | String c s' => String (f c) (mapChars f s')
  end.

(** [array.join (separator)]: an element that is [undefined] gives the
    empty string. *)
Definition join (separator : string) (array : list (option string)) : string :=
  String.concat separator (default EmptyString <$> array).

End Text.

(** ** The root suite: [RootSuite.ts] *)

Module Root.
Import Tree.

(** What [sendStartEventIfNeeded] and [sendFinishedEventIfNeeded] read and
    write.  [_runningCounter] is declared in [Suite.ts], which is not among
    the sources; [runningPromiseResolved] tells whether the promise held
    by [_runningPromise] is resolved ([Promise.resolve ()] at
    construction), [finishedEvents] lists the [testRunId] of the
    ['finished'] events sent. *)
Record Running : Type := mkRunning {
  _runningCounter : Z;
  runningPromiseResolved : bool;
  finishedEvents : list string;
}.

(** [sendStartEventIfNeeded]: [_runningCounter++ === 0] creates a new
    promise and a new cancellation token source. *)
Definition sendStartEventIfNeeded (s : Running) : Running :=
  mkRunning (_runningCounter s + 1)
            (if decide (_runningCounter s = 0%Z) then false
             else runningPromiseResolved s)
            (finishedEvents s).

Definition sendFinishedEventIfNeeded (testRunId : string) (s : Running) : Running :=
  if decide (_runningCounter s < 1)%Z
  then mkRunning 0 (runningPromiseResolved s) (finishedEvents s)
  else mkRunning (_runningCounter s - 1)
                 (if decide (_runningCounter s = 1%Z) then true
                  else runningPromiseResolved s)
                 (finishedEvents s ++ [testRunId]).

(** [get isRunning ()]. *)
Definition isRunning (s : Running) : bool := bool_decide (0 < _runningCounter s)%Z.

(** The two calls, as the runs of [run] make them. *)
Inductive RunningCall : Type :=
| Start
| Finish (testRunId : string).

Definition runningStep (s : Running) (c : RunningCall) : Running :=
  match c with
  | Start => sendStartEventIfNeeded s
  | Finish testRunId => sendFinishedEventIfNeeded testRunId s
  end.

Definition isStart (c : RunningCall) : Prop :=
  match c with Start => True | Finish _ => False end.

Global Instance isStart_dec c : Decision (isStart c).
Proof. destruct c; apply _. Defined.

(** The state of the class body. *)
Definition initialRunning : Running := mkRunning 0 true [].

(** The counter is not negative, and the promise of [_runningPromise] is
    resolved exactly when the counter is zero. *)
Definition runningOk (s : Running) : Prop :=
  (0 ≤ _runningCounter s)%Z
  ∧ (runningPromiseResolved s = true ↔ _runningCounter s = 0%Z).

(** A [Map] in insertion order: [get] and [set] go by the key, and an
    array stored in it is extended in place by [push]. *)
Fixpoint mapPush (key : nat) (curr : AbstractTest)
    (prev : list (nat * list AbstractTest)) : list (nat * list AbstractTest) :=
  match prev with
  | [] => [(key, [curr])]
  | (k, arr) :: rest =>
      if decide (k = key) then (k, arr ++ [curr]) :: rest
      else (k, arr) :: mapPush key curr rest
  end.

(** [_collectRunnables], on what [this.collectTestToRun (tests, isParentIn)]
    returned ([Suite.collectTestToRun] is not among the sources).  A
    runnable is identified by its number. *)
Definition _collectRunnables (collected : list AbstractTest)
    : list (nat * list AbstractTest) :=
  foldl (λ prev curr, mapPush (aRunnable curr) curr prev) [] collected.

(** The runnables of a list of tests, each once, in the order in which
    they first appear. *)
Definition runnablesOf (l : list AbstractTest) : list nat :=
  foldl (λ keys t, if decide (aRunnable t ∈ keys) then keys else keys ++ [aRunnable t])
        [] l.

(** [Set.prototype.add] on a set of task names, in insertion order. *)
Definition taskAdd (t : string) (runTasks : list string) : list string :=
  if decide (t ∈ runTasks) then runTasks else runTasks ++ [t].

(** The first loop of [runTasks]: [taskLists] holds
    [runnable.properties.runTask[type]] of each runnable, [None] for
    [undefined]. *)
Definition collectTasks (taskLists : list (option (list string))) : list string :=
  foldl (λ runTasks l, foldl (λ acc t, taskAdd t acc) runTasks (default [] l))
        [] taskLists.

(** [runTasks]: the message of the [Error] thrown, if any.  The loop over
    the set and the two messages are those of [AbstractRunnable.runTasks]. *)
Definition runTasks (executeTask : string → option Z) (type : string)
    (taskLists : list (option (list string))) : option string :=
  Run.runTasks executeTask type (collectTasks taskLists).

End Root.

(** ** Choosing the framework: [TestSuiteInfoFactory.ts] *)

Module Factory.
Import Text.

(** [GoogleTestVersion._gtesthVersion]: the size of [gtest.h] in bytes and
    the version it stands for. *)
Definition _gtesthVersion : list (Z * (Z * Z * Z)) :=
  [ (48592, (1, 0, 0)); (47254, (1, 0, 1)); (48150, (1, 1, 0));
    (51083, (1, 2, 0)); (51083, (1, 2, 1)); (54267, (1, 3, 0));
    (74007, (1, 4, 0)); (77844, (1, 5, 0)); (82450, (1, 6, 0));
    (88434, (1, 7, 0)); (85459, (1, 8, 0)); (89088, (1, 8, 1));
    (93924, (1, 10, 0)) ]%Z.

(** [GoogleTestVersion.Create]: [gtests] is what [findFiles] found, [None]
    when it throws; [size] is [stats.size] of a file, [None] when
    [fs.stat] throws.  The result is the [version] field. *)
Definition Create (gtests : option (list string)) (size : string → option Z)
    : option (Z * Z * Z) :=
  match gtests with
  | Some [gtest] =>
      match size gtest with
      | Some fileSizeInBytes =>
          snd <$> List.find (λ x, bool_decide (x.1 = fileSizeInBytes)) _gtesthVersion
      | None => None
      end
  | _ => None
  end.

(** A number of a version in [TestFrameworkInfo].  [Number] of a run of
    digits is the integer the digits read as long as that is below 2^53;
    from there on it is a double near it, which the digits are kept for. *)
Inductive JsNumber : Type :=
| Exactly (n : Z)
| DoubleNear (digits : string).

Global Instance JsNumber_eq_dec : EqDecision JsNumber.
Proof. solve_decision. Defined.

(** [TestFrameworkInfo]. *)
Inductive FrameworkType : Type := catch2 | google | doc.

Global Instance FrameworkType_eq_dec : EqDecision FrameworkType.
Proof. solve_decision. Defined.

Record TestFrameworkInfo : Type := mkFramework {
  type : FrameworkType;
  version : JsNumber * JsNumber * JsNumber;
}.

(** The three classes that [create] constructs; label, description, path
    and options are handed on as they are, and left out here. *)
Inductive TestSuiteInfo : Type :=
| Catch2TestSuiteInfo (version : JsNumber * JsNumber * JsNumber)
| GoogleTestSuiteInfo (version : option (Z * Z * Z))
| DOCTestSuiteInfo (version : JsNumber * JsNumber * JsNumber).

(** The bodies of the [case] clauses of [create], in the order of the
    source: [Some] is a [return]; [None] is a body that ends without
    [return] or [break], after which control goes on into the next
    clause.  The clause of ['google'] starts a promise chain that
    constructs a [GoogleTestSuiteInfo], and does not return it. *)
Definition caseClauses (framework : TestFrameworkInfo)
    : list (FrameworkType * option TestSuiteInfo) :=
  [ (google, None);
    (catch2, Some (Catch2TestSuiteInfo (version framework)));
    (doc, Some (DOCTestSuiteInfo (version framework))) ].

(** A [switch] without [default]: the clauses from the first one whose
    label is the value on; [None] when control leaves the statement at its
    end. *)
Fixpoint switch {A R} `{EqDecision A} (value : A) (clauses : list (A * option R))
    : option R :=
  match clauses with
  | [] => None
  | (label, body) :: rest =>
      if decide (label = value)
      then match List.find (λ r : option R, bool_decide (is_Some r))
                           (body :: (snd <$> rest)) with
           | Some r => r
           | None => None
           end
      else switch value rest
  end.


(** [([0-9]+)\.([0-9]+)\.([0-9]+)] at the start of a string: the three
    groups and what follows.  A run of digits is taken whole: what comes
    after a shorter one is a digit, not the dot. *)
Definition matchVersion (s : string) : option (string * string * string * string) :=
  let '(a, r1) := spanDigits s in
  if decide (a = EmptyString) then None
  else match dropPrefix "." r1 with
       | None => None
       | Some r1' =>
           let '(b, r2) := spanDigits r1' in
           if decide (b = EmptyString) then None
           else match dropPrefix "." r2 with
                | None => None
                | Some r2' =>
                    let '(c, r3) := spanDigits r2' in
                    if decide (c = EmptyString) then None else Some (a, b, c, r3)
                end
       end.

(** The integer that a run of digits reads, continued after the digits
    that gave [n]. *)
Fixpoint digitsFrom (n : Z) (d : string) : Z :=
  match d with
  | EmptyString => n
  | String c d' => digitsFrom (10 * n + (Z.of_nat (nat_of_ascii c) - 48))%Z d'
  end.

Definition digitsToZ (d : string) : Z := digitsFrom 0%Z d.

(** [Number (d)] for a run of digits [d]. *)
Definition Number (d : string) : JsNumber :=
  if (digitsToZ d <? 2 ^ 53)%Z then Exactly (digitsToZ d) else DoubleNear d.

(** A string of digits only. *)
Fixpoint allDigits (s : string) : bool :=
  match s with
  | EmptyString => true
  | String c s' => isDigit c && allDigits s'
  end.

Definition versionOf (m : string * string * string * string)
    : JsNumber * JsNumber * JsNumber :=
  let '(a, b, c, _) := m in (Number a, Number b, Number c).

(** [/Catch v([0-9]+)\.([0-9]+)\.([0-9]+)\s?/] at a position. *)
Definition catch2At (s : string) : option (JsNumber * JsNumber * JsNumber) :=
  match dropPrefix "Catch v" s with
  | Some r => versionOf <$> matchVersion r
  | None => None
  end.

(** A line terminator at the start of a string in UTF-8: LF, CR, U+2028,
    U+2029. *)
Definition startsWithLineTerminator (s : string) : bool :=
  String.prefix (String (ascii_of_nat 10) EmptyString) s
  || String.prefix (String (ascii_of_nat 13) EmptyString) s
  || String.prefix (String (ascii_of_nat 226) (String (ascii_of_nat 128)
                      (String (ascii_of_nat 168) EmptyString))) s
  || String.prefix (String (ascii_of_nat 226) (String (ascii_of_nat 128)
                      (String (ascii_of_nat 169) EmptyString))) s.

(** [/This program contains tests written using Google Test./] at a
    position: the dot at the end stands for one character that is not a
    line terminator. *)
Definition googleAt (s : string) : option unit :=
  match dropPrefix "This program contains tests written using Google Test" s with
  | Some r =>
      if decide (r = EmptyString) then None
      else if startsWithLineTerminator r then None else Some ()
  | None => None
  end.

(** [/doctest version is "([0-9]+)\.([0-9]+)\.([0-9]+)"/] at a position. *)
Definition docAt (s : string) : option (JsNumber * JsNumber * JsNumber) :=
  match dropPrefix ("doctest version is " ++ dquote) s with
  | Some r =>
      match matchVersion r with
      | Some (a, b, c, rest) =>
          match dropPrefix dquote rest with
          | Some _ => Some (versionOf (a, b, c, rest))
          | None => None
          end
      | None => None
      end
  | None => None
  end.

(** The callback of [determineTestTypeOfExecutable] on the output of
    [--help]: [None] for [throw new Error('Not a supported test
    executable: ...')]. *)
Definition frameworkOfOutput (stdout : string) : option TestFrameworkInfo :=
  match search catch2At stdout with
  | Some v => Some (mkFramework catch2 v)
  | None =>
      match search googleAt stdout with
      | Some _ => Some (mkFramework google (Exactly 0, Exactly 0, Exactly 0))
      | None =>
          match search docAt stdout with
          | Some v => Some (mkFramework doc v)
          | None => None
          end
      end
  end.

(** [determineTestTypeOfExecutable]: [help] is the output that
    [isNativeExecutableAsync] followed by [spawnAsync] with [--help]
    gives, [None] when one of the two is rejected ([FSWrapper.ts] is not
    among the sources).  The result is [None] when the promise is
    rejected. *)
Definition determineTestTypeOfExecutable (help : option string)
    : option TestFrameworkInfo :=
  help ≫= frameworkOfOutput.

(** [create]: the object its promise is fulfilled with, [None] when the
    promise is rejected, by [determineTestTypeOfExecutable] or by [throw
    Error('Unknown error:' + framework.type)] after the [switch].
    [TaskPool] is not among the sources: [scheduleTask] is taken to run
    the task it is given. *)
Definition create (help : option string) : option TestSuiteInfo :=
  match determineTestTypeOfExecutable help with
  | Some framework => switch (type framework) (caseClauses framework)
  | None => None
  end.

End Factory.

(** ** Resolving variables: the functions of [util/ResolveRule.ts]

    They follow the class in [framework/GoogleTestRunnable.ts]. *)

Module Resolve.
Import Text.

(** The loop of [replaceAllString].  [fuel] bounds the number of times
    the condition of the [while] is evaluated; [None] when it is used
    up. *)
Fixpoint replaceAllLoop (fuel : nat) (input resolve rule resolved resolved2 : string)
    : option string :=
  match fuel with
  | O => None
  | S fuel' =>
      if decide (resolved ≠ resolved2)
      then replaceAllLoop fuel' input resolve rule resolved2 (replace input resolve rule)
      else Some resolved
  end.

Definition replaceAllString (fuel : nat) (input resolve rule : string) : option string :=
  replaceAllLoop fuel input resolve rule input (replace input resolve rule).

(** [arr[i]] for an integer [i]; [None] is [undefined]. *)
Definition element {A} (arr : list A) (i : Z) : option A :=
  if decide (0 ≤ i)%Z then arr !! Z.to_nat i else None.

(** The position that [Array.prototype.slice] makes of an argument:
    [undefined] is the default, a negative number counts from the end,
    and the result stays within the array. *)
Definition relativeIndex (len : Z) (i : option Z) (default : Z) : Z :=
  match i with
  | None => default
  | Some i => if decide (i < 0)%Z then Z.max (len + i) 0 else Z.min i len
  end.

(** [arr.slice (start, end)]. *)
Definition slice {A} (arr : list A) (start finish : option Z) : list A :=
  let len := Z.of_nat (length arr) in
  let k := relativeIndex len start 0 in
  let final := relativeIndex len finish len in
  take (Z.to_nat (final - k)) (drop (Z.to_nat k) arr).

(** [processArrayWithPythonIndexer]: [m1], [m2] and [m3] are the numbers
    of the groups [match[1]], [match[2]] and [match[3]], [None] for a
    group that took no part in the match.  An element of the result is
    [None] where the array has no element. *)
Definition processArrayWithPythonIndexer {A} (arr : list A) (m1 m2 m3 : option Z)
    : list (option A) :=
  match m1 with
  | Some idx =>
      if decide (idx < 0)%Z then [element arr (Z.of_nat (length arr) + idx)]
      else [element arr idx]
  | None => Some <$> slice arr m2 m3
  end.

(** The [rule] of [createPythonIndexerForStringVariable] for a value, a
    separator that matches the characters satisfying [isSep], and the
    string [joiner] of the parameter [join]. *)
Definition indexerRule (isSep : ascii → bool) (joiner value : string)
    (m1 m2 m3 : option Z) : string :=
  join joiner (processArrayWithPythonIndexer (splitOn isSep value) m1 m2 m3).

(** [[A-z_]] and [[A-z0-9_]]: the range from [A] to [z] holds the
    underscore, and five more characters between the two alphabets. *)
Definition isNameStart (c : ascii) : bool :=
  (65 <=? nat_of_ascii c) && (nat_of_ascii c <=? 122).

Definition isNameChar (c : ascii) : bool := isNameStart c || isDigit c.

Fixpoint spanName (s : string) : string * string :=
  match s with
  | EmptyString => (EmptyString, EmptyString)
  | String c s' =>
      if isNameChar c then let '(name, rest) := spanName s' in (String c name, rest)
      else (EmptyString, s)
  end.

(** A name as group 2 takes it. *)
Fixpoint allNameChars (s : string) : bool :=
  match s with
  | EmptyString => true
  | String c s' => isNameChar c && allNameChars s'
  end.

Definition isName (name : string) : bool :=
  match name with
  | EmptyString => false
  | String c _ => isNameStart c && allNameChars name
  end.

(** A name and the closing brace at the start of a string: one
    character of [[A-z_]], characters of [[A-z0-9_]] as long as there are
    any, and [}]; the result is the name and what follows the brace. *)
Definition nameAndBrace (s : string) : option (string * string) :=
  match s with
  | String c _ =>
      if isNameStart c
      then let '(name, rest) := spanName s in
           match dropPrefix "}" rest with
           | Some after => Some (name, after)
           | None => None
           end
      else None
  | EmptyString => None
  end.

(** The regular expression of [resolveOSEnvironmentVariables] at a
    position: [${], then [os_env] or [os_env_strict] (group 1), a colon,
    a name (group 2) and the closing brace.  The result tells whether
    group 1 is [os_env_strict], and gives group 2 and what follows the
    match. *)
Definition osEnvAt (s : string) : option (bool * string * string) :=
  match dropPrefix "${os_env" s with
  | None => None
  | Some r =>
      match dropPrefix ":" r with
      | Some r' => (λ '(name, after), (false, name, after)) <$> nameAndBrace r'
      | None =>
          match dropPrefix "_strict:" r with
          | Some r' => (λ '(name, after), (true, name, after)) <$> nameAndBrace r'
          | None => None
          end
      end
  end.

(** The mapper of [resolveOSEnvironmentVariables], from an iteration of
    its [while (true)] on.  [env name] is what the read
    [_normalizedEnvCache[envName]] gives for the name matched, after the
    case folding of the platform, as the text that [+=] appends; [None]
    is [undefined].  The read is a property read on [process.env] or on
    a copy of it, so a name that the prototype of the object defines has a
    value also when no such variable is set.  The result is [Some None]
    for [undefined]; [fuel] bounds the number of iterations, [None] when
    it is used up. *)
Fixpoint resolveOSEnvLoop (fuel : nat) (env : string → option string)
    (strictAllowed : bool) (replacedS s : string) : option (option string) :=
  match fuel with
  | O => None
  | S fuel' =>
      match searchSplit osEnvAt s with
      | None => Some (Some (replacedS ++ s)%string)
      | Some (before, (strict, name, after)) =>
          let replacedS := (replacedS ++ before)%string in
          match env name with
          | Some val =>
              resolveOSEnvLoop fuel' env strictAllowed (replacedS ++ val)%string after
          | None =>
              if strict
              then if strictAllowed then Some None
                   else resolveOSEnvLoop fuel' env strictAllowed
                          (replacedS ++ "<missing env>")%string after
              else resolveOSEnvLoop fuel' env strictAllowed replacedS after
          end
      end
  end.

(** Every iteration but the last shortens [s], so this is fuel enough. *)
Definition resolveOSEnvString (env : string → option string) (strictAllowed : bool)
    (s : string) : option (option string) :=
  resolveOSEnvLoop (S (String.length s)) env strictAllowed EmptyString s.

(** The values that [_mapAllStrings] tells apart.  [JOther] stands for a
    bigint, boolean, function, number or symbol; an object is a plain one,
    given by its own enumerable properties in order. *)
#[local] Set Warnings "-register-all".
Inductive JsValue : Type :=
| JNull
| JUndefined
| JOther (n : nat)
| JString (s : string)
| JArray (elements : list JsValue)
| JObject (properties : list (string * JsValue)).
#[local] Set Warnings "register-all".

Definition isUndefined (v : JsValue) : bool :=
  match v with JUndefined => true | _ => false end.

(** [_mapAllStrings]: an element of an array whose image is [undefined] is
    left out of the new array; a property whose image is [undefined]
    keeps the value copied from the original. *)
Fixpoint _mapAllStrings (mapperFunc : string → JsValue → JsValue)
    (value parent : JsValue) : JsValue :=
  match value with
  | JString s => mapperFunc s parent
  | JArray elements =>
      JArray
        ((fix each (l : list JsValue) : list JsValue :=
            match l with
            | [] => []
            | v :: l' =>
                let res := _mapAllStrings mapperFunc v value in
                if isUndefined res then each l' else res :: each l'
            end) elements)
  | JObject properties =>
      JObject
        ((fix each (l : list (string * JsValue)) : list (string * JsValue) :=
            match l with
            | [] => []
            | (prop, v) :: l' =>
                let res := _mapAllStrings mapperFunc v value in
                (prop, if isUndefined res then v else res) :: each l'
            end) properties)
  | JNull | JUndefined | JOther _ => value
  end.

(** [resolveOSEnvironmentVariables]. *)
Definition resolveOSEnvironmentVariables (env : string → option string)
    (value : JsValue) (strictAllowed : bool) : JsValue :=
  _mapAllStrings
    (λ s _, match resolveOSEnvString env strictAllowed s with
            | Some (Some resolved) => JString resolved
            | Some None | None => JUndefined
            end)
    value JUndefined.

(** What [replaceAllRegExp] uses of a [RegExpMatchArray]: [m.index] and
    [m[0]]; the groups are for the rule. *)
Record RegExpMatch : Type := mkMatch {
  index : nat;
  matched : string;
  groups : list (option string);
}.

(** [string.substr (from)] and [string.substr (0, length)]. *)
Fixpoint dropChars (n : nat) (s : string) : string :=
  match n, s with
  | O, _ => s
  | S n', String _ s' => dropChars n' s'
  | S _, EmptyString => EmptyString
  end.

Fixpoint takeChars (n : nat) (s : string) : string :=
  match n, s with
  | O, _ => EmptyString
  | S n', String c s' => String c (takeChars n' s')
  | S _, EmptyString => EmptyString
  end.

(** The loop of [replaceAllRegExp]: [resolve] is [s => s.match (resolve)]
    for the regular expression handed over, [rule] gives [None] where the
    value of the rule is not a string.  The result is [Some None] for the
    [Error] thrown then; [fuel] bounds the number of iterations. *)
Fixpoint replaceAllRegExpLoop (fuel : nat) (resolve : string → option RegExpMatch)
    (rule : RegExpMatch → option string) (m : option RegExpMatch)
    (remainingStr : string) (newStr : list string) : option (option string) :=
  match fuel with
  | O => None
  | S fuel' =>
      match m with
      | None => Some (Some (String.concat EmptyString newStr ++ remainingStr)%string)
      | Some m =>
          let newStr := newStr ++ [takeChars (index m) remainingStr] in
          match rule m with
          | None => Some None
          | Some ruleV =>
              let newStr := newStr ++ [ruleV] in
              let remainingStr :=
                dropChars (index m + String.length (matched m)) remainingStr in
              replaceAllRegExpLoop fuel' resolve rule (resolve remainingStr)
                                   remainingStr newStr
          end
      end
  end.

Definition replaceAllRegExp (fuel : nat) (input : string)
    (resolve : string → option RegExpMatch) (rule : RegExpMatch → option string)
    (firstMatch : RegExpMatch) : option (option string) :=
  replaceAllRegExpLoop fuel resolve rule (Some firstMatch) input [].

(** A regular expression that stands for a text [pattern], as
    [string.match] sees it. *)
Definition literalRegExp (pattern s : string) : option RegExpMatch :=
  match splitAtFirst pattern s with
  | Some (before, _) => Some (mkMatch (String.length before) pattern [])
  | None => None
  end.

(** A match as [string.match] gives it: the text [matched] stands at
    [index]. *)
Definition matchOf (s : string) (m : RegExpMatch) : Prop :=
  ∃ after, s = (takeChars (index m) s ++ matched m ++ after)%string
           ∧ String.length (takeChars (index m) s) = index m.

End Resolve.

(** ** Arguments of the doctest executable *)

Module DocParams.
Import Text.

(** [getEscapedTestName]: [replace (/,/g, '?')]. *)
Fixpoint getEscapedTestName (testNameAsId : string) : string :=
  match testNameAsId with
  | EmptyString => EmptyString
  | String c s => String (if decide (c = ","%char) then "?"%char else c)
                         (getEscapedTestName s)
  end.

(** What [_getRunParamsInner] reads of the configuration; [rngSeed] is
    the seed as [toString] prints it, or ['time']. *)
Record Configuration : Type := mkConfiguration {
  getDefaultNoThrow : bool;
  getRandomGeneratorSeed : option string;
}.

Definition _getRunParamsInner (c : Configuration) (childrenToRun : list AbstractTest)
    : list string :=
  let testNames := (λ t, Some (getEscapedTestName (testNameAsId t))) <$> childrenToRun in
  [ ("--test-case=" ++ join "," testNames)%string;
    "--no-skip=true"; "--case-sensitive=true"; "--reporters=xml";
    "--duration=true" ]%string
  ++ (if getDefaultNoThrow c then ["--no-throw=true"%string] else [])
  ++ match getRandomGeneratorSeed c with
     | Some rngSeed => ["--order-by=rand"; ("--rand-seed=" ++ rngSeed)]%string
     | None => []
     end.

(** [_getDebugParamsInner]. *)
Definition _getDebugParamsInner (c : Configuration) (childrenToRun : list AbstractTest)
    (breakOnFailure : bool) : list string :=
  _getRunParamsInner c childrenToRun.

(** [_getRunParams] and [getDebugParams] of [AbstractRunnable]. *)
Definition _getRunParams (prependTestRunningArgs : list string) (c : Configuration)
    (childrenToRun : list AbstractTest) : list string :=
  prependTestRunningArgs ++ _getRunParamsInner c childrenToRun.

Definition getDebugParams (prependTestRunningArgs : list string) (c : Configuration)
    (childrenToRun : list AbstractTest) (breakOnFailure : bool) : list string :=
  prependTestRunningArgs ++ _getDebugParamsInner c childrenToRun breakOnFailure.

End DocParams.

(** ** Listing by text: [GoogleTestRunnable._reloadFromString] *)

Module GoogleList.

Definition LF : ascii := ascii_of_nat 10.
Definition CR : ascii := ascii_of_nat 13.

(** [stdOutStr.split (/\r?\n/)]. *)
Fixpoint split (stdOutStr : string) : list string :=
  match stdOutStr with
  | EmptyString => [EmptyString]
  | String c s =>
      let inLine := match split s with
                    | head :: tail => String c head :: tail
                    | [] => [String c EmptyString]
                    end in
      if decide (c = LF) then EmptyString :: split s
      else if decide (c = CR)
      then match s with
           | String d s' => if decide (d = LF) then EmptyString :: split s' else inLine
           | EmptyString => inLine
           end
      else inLine
  end.

(** What [_reloadFromString] reads of a match of [testGroupRe] or [testRe]:
    group 1, which is not optional in either expression, and group 3, the
    text after [TypeParam =] or [GetParam =], [undefined] when that part
    of the line is missing. *)
Record RegExpMatchArray : Type := mkMatch {
  m1 : string;
  m3 : option string;
}.

(** [line.match (re)] for one of the two expressions; they are anchored
    at both ends and have no flag, so a line has one match or none. *)
Definition RegExp : Type := string → option RegExpMatchArray.

(** The arguments of one call of [_createSubtreeAndAddTest]: the list of
    tags is [[suiteName]], the file and the line are [undefined]. *)
Record GoogleCase : Type := mkGoogleCase {
  case_testNameAsId : string;
  case_testName : string;
  case_suiteName : string;
  case_typeParam : option string;
  case_valueParam : option string;
}.

(** How [_reloadFromString] completes. *)
Inductive Completion (St : Type) : Type :=
| Returned (st : St)
| ThrownWrongTestList
| Thrown (st : St).
Arguments Returned {St} st.
Arguments ThrownWrongTestList {St}.
Arguments Thrown {St} st.

(** How the loop over the tests of one group ends: at a line that is no
    test, at a cancellation, or at an exception. *)
Inductive LoopExit (St : Type) : Type :=
| NextGroup (lineNum reads : nat) (st : St)
| CancelledAt (st : St)
| FailedAt (st : St).
Arguments NextGroup {St} lineNum reads st.
Arguments CancelledAt {St} st.
Arguments FailedAt {St} st.

(** Adding a list of tests one after the other, as far as it gets. *)
Inductive Progress (St : Type) : Type :=
| Done (reads : nat) (st : St)
| Cancelled (st : St)
| Failed (st : St).
Arguments Done {St} reads st.
Arguments Cancelled {St} st.
Arguments Failed {St} st.

Definition completionOf {St} (p : Progress St) : Completion St :=
  match p with
  | Done _ st | Cancelled st => Returned st
  | Failed st => Thrown st
  end.

Section Parser.

(** The two regular expressions; the tree and the reload result as a
    state [St], on which [add c] is
    [reloadResult.add (...(await this._createSubtreeAndAddTest (...)))] with
    the arguments [c], [None] when it throws; the cancellation flag, as
    read for the first, second, ... time. *)
Variables (testGroupRe testRe : RegExp).
Variable St : Type.
Variable add : GoogleCase → St → option St.
Variable cancellationFlag : nat → bool.

(** [while (lineCount > 0 && lines[lineCount - 1].match (testRe) === null)
    lineCount--]; the index is within the array. *)
Fixpoint trimLineCount (lines : list string) (lineCount : nat) : nat :=
  match lineCount with
  | 0 => 0
  | S n =>
      match lines !! n ≫= testRe with
      | None => trimLineCount lines n
      | Some _ => lineCount
      end
  end.

(** [lineCount > lineNum ? lines[lineNum].match (re) : null]. *)
Definition matchLine (re : RegExp) (lines : list string) (lineCount lineNum : nat)
    : option RegExpMatchArray :=
  if lineNum <? lineCount then lines !! lineNum ≫= re else None.

(** [while (lineCount > lineNum && lines[lineNum].match (testGroupRe) ===
    null) lineNum++]. *)
Fixpoint skipToGroup (fuel : nat) (lines : list string) (lineCount lineNum : nat)
    : option nat :=
  if (lineNum <? lineCount)
     && match lines !! lineNum ≫= testGroupRe with None => true | Some _ => false end
  then match fuel with
       | 0 => None
       | S fuel' => skipToGroup fuel' lines lineCount (S lineNum)
       end
  else Some lineNum.

Definition stripDisabled (name : string) : string :=
  if String.prefix "DISABLED_" name
  then String.substring 9 (String.length name - 9) name
  else name.

Definition caseOf (testGroupMatch testMatch : RegExpMatchArray) : GoogleCase :=
  {| case_testNameAsId := (m1 testGroupMatch ++ "." ++ m1 testMatch)%string;
     case_testName := stripDisabled (m1 testMatch);
     case_suiteName := m1 testGroupMatch;
     case_typeParam := m3 testGroupMatch;
     case_valueParam := m3 testMatch |}.

(** [while (testMatch) { ... }]. *)
Fixpoint testsLoop (fuel : nat) (lines : list string) (lineCount : nat)
    (testGroupMatch : RegExpMatchArray) (lineNum : nat)
    (testMatch : option RegExpMatchArray) (reads : nat) (st : St)
    : option (LoopExit St) :=
  match testMatch with
  | None => Some (NextGroup lineNum reads st)
  | Some m =>
      match fuel with
      | 0 => None
      | S fuel' =>
          if cancellationFlag reads then Some (CancelledAt st)
          else
            let lineNum := S lineNum in
            match add (caseOf testGroupMatch m) st with
            | None => Some (FailedAt st)
            | Some st1 =>
                testsLoop fuel' lines lineCount testGroupMatch lineNum
                          (matchLine testRe lines lineCount lineNum) (S reads) st1
            end
      end
  end.

(** [while (testGroupMatch) { ... }]. *)
Fixpoint groupsLoop (fuel : nat) (lines : list string) (lineCount lineNum : nat)
    (testGroupMatch : option RegExpMatchArray) (reads : nat) (st : St)
    : option (Completion St) :=
  match testGroupMatch with
  | None => Some (Returned st)
  | Some g =>
      match fuel with
      | 0 => None
      | S fuel' =>
          let lineNum := S lineNum in
          match testsLoop fuel' lines lineCount g lineNum
                          (matchLine testRe lines lineCount lineNum) reads st with
          | Some (NextGroup lineNum reads st1) =>
              groupsLoop fuel' lines lineCount lineNum
                         (matchLine testGroupRe lines lineCount lineNum) reads st1
          | Some (CancelledAt st1) => Some (Returned st1)
          | Some (FailedAt st1) => Some (Thrown st1)
          | None => None
          end
      end
  end.

(** [_reloadFromString]; [None] is for a loop that does not end within
    as many rounds as there are lines. *)
Definition _reloadFromString (stdOutStr : string) (st : St) : option (Completion St) :=
  let lines := split stdOutStr in
  let lineCount := trimLineCount lines (length lines) in
  match skipToGroup (length lines) lines lineCount 0 with
  | None => None
  | Some lineNum =>
      if (Z.of_nat lineCount - Z.of_nat lineNum =? 0)%Z then Some ThrownWrongTestList
      else
        groupsLoop (length lines) lines lineCount lineNum
                   (matchLine testGroupRe lines lineCount lineNum) 0 st
  end.

(** The tests of a list added in order, from read [reads] of the flag
    on. *)
Fixpoint addInOrder (cases : list GoogleCase) (reads : nat) (st : St) : Progress St :=
  match cases with
  | [] => Done reads st
  | c :: rest =>
      if cancellationFlag reads then Cancelled st
      else match add c st with
           | Some st1 => addInOrder rest (S reads) st1
           | None => Failed st
           end
  end.

(** A listing in blocks: the line of a test group and the lines of its
    tests. *)
Definition linesOf (blocks : list (string * list string)) : list string :=
  concat ((λ b, b.1 :: b.2) <$> blocks).

Definition casesOf (blocks : list (string * list string)) : list GoogleCase :=
  concat ((λ b, match testGroupRe b.1 with
                | Some g => omap (λ t, caseOf g <$> testRe t) b.2
                | None => []
                end) <$> blocks).

End Parser.

End GoogleList.

(** ** The sections of a doctest test case: [DOCTest._processXmlTagSubcase] *)

Module DocSections.

Definition backtick : ascii := ascii_of_nat 96.
Definition backslash : ascii := ascii_of_nat 92.

(** The replacement in the constructor of [DOCSection]: a backslash is
    put before every backtick. *)
Fixpoint escapeBackticks (name : string) : string :=
  match name with
  | EmptyString => EmptyString
  | String c s =>
      if decide (c = backtick) then String backslash (String backtick (escapeBackticks s))
      else String c (escapeBackticks s)
  end.

(** [DOCSection]; [filename] and [line] are the attributes as the parser
    of the XML gives them, text or [undefined]. *)
#[local] Set Warnings "-register-all".
Inductive DOCSection : Type :=
| mkDOCSection (name : string) (filename line : option string)
               (children : list DOCSection) (failed : bool).
#[local] Set Warnings "register-all".

Definition sec_name (s : DOCSection) : string :=
  match s with mkDOCSection name _ _ _ _ => name end.
Definition sec_filename (s : DOCSection) : option string :=
  match s with mkDOCSection _ filename _ _ _ => filename end.
Definition sec_line (s : DOCSection) : option string :=
  match s with mkDOCSection _ _ line _ _ => line end.
Definition sec_children (s : DOCSection) : list DOCSection :=
  match s with mkDOCSection _ _ _ children _ => children end.
Definition sec_failed (s : DOCSection) : bool :=
  match s with mkDOCSection _ _ _ _ failed => failed end.

(** [new DOCSection (name, filename, line)]. *)
Definition newDOCSection (name : string) (filename line : option string) : DOCSection :=
  mkDOCSection (escapeBackticks name) filename line [] false.

(** The attributes [subcase.$] of a [SubCase] element. *)
Record Attributes : Type := mkAttributes {
  attr_name : option string;
  attr_filename : option string;
  attr_line : option string;
}.

(** An [Expression] element, as far as the sections depend on it:
    [x.$.success], [None] when the element has no attributes or not that
    one. *)
Record XmlExpression : Type := mkXmlExpression {
  expr_success : option string;
}.

(** A [SubCase] element: its attributes [$], if it has any, and the arrays
    [SubCase] and [Expression], [None] for [undefined]. *)
#[local] Set Warnings "-register-all".
Inductive XmlSubCase : Type :=
| mkXmlSubCase (attributes : option Attributes) (SubCase : option (list XmlSubCase))
               (Expression : option (list XmlExpression)).
#[local] Set Warnings "register-all".

Definition xml_attributes (x : XmlSubCase) : option Attributes :=
  match x with mkXmlSubCase a _ _ => a end.
Definition xml_SubCase (x : XmlSubCase) : option (list XmlSubCase) :=
  match x with mkXmlSubCase _ s _ => s end.
Definition xml_Expression (x : XmlSubCase) : option (list XmlExpression) :=
  match x with mkXmlSubCase _ _ e => e end.

(** The predicate of [parentSection.children.find]. *)
Definition sameSection (a : Attributes) (v : DOCSection) : bool :=
  bool_decide (Some (sec_name v) = attr_name a)
  && bool_decide (sec_filename v = attr_filename a)
  && bool_decide (sec_line v = attr_line a).

(** The index of the element [find] returns. *)
Fixpoint findIndex {A} (p : A → bool) (l : list A) : option nat :=
  match l with
  | [] => None
  | x :: l' => if p x then Some 0 else S <$> findIndex p l'
  end.

(** [subcase.SubCase === undefined || subcase.SubCase.length === 0]. *)
Definition isLeaf (SubCase : option (list XmlSubCase)) : bool :=
  match SubCase with
  | None | Some [] => true
  | Some (_ :: _) => false
  end.

(** [subcase.Expression && subcase.Expression.length > 0 &&
    subcase.Expression.some (x => x.$ && x.$.success && x.$.success == 'false')]. *)
Definition someExpressionFailed (Expression : option (list XmlExpression)) : bool :=
  match Expression with
  | None => false
  | Some l =>
      bool_decide (0 < length l)
      && existsb (λ x, bool_decide (expr_success x = Some "false"%string)) l
  end.

(** One round of the loop of [_processXmlTagSubcase], on the [children] of
    [parentSection].  An exception ends the round: a sub-case without
    attributes throws when its name is read, before anything is changed; in
    a scenario a sub-case without a name throws at [trimLeft], after its
    section was found or added and marked.  [TestEventBuilder] is not among
    the sources; the round calls it (and [_processTags], which calls
    nothing else) for the text of the event only. *)
Fixpoint processSubcase (_isSecnario : bool) (subcase : XmlSubCase)
    (children : list DOCSection) {struct subcase} : list DOCSection :=
  match subcase with
  | mkXmlSubCase None _ _ => children
  | mkXmlSubCase (Some a) SubCase Expression =>
      let '(index, children) :=
        match findIndex (sameSection a) children with
        | Some index => (index, children)
        | None =>
            (length children,
             children ++ [newDOCSection (default EmptyString (attr_name a))
                                        (attr_filename a) (attr_line a)])
        end in
      alter (λ currSection,
               let failed := if isLeaf SubCase && someExpressionFailed Expression
                             then true else sec_failed currSection in
               let below :=
                 if _isSecnario && bool_decide (attr_name a = None)
                 then sec_children currSection
                 else match SubCase with
                      | Some l => foldl (λ ch s, processSubcase _isSecnario s ch)
                                        (sec_children currSection) l
                      | None => sec_children currSection
                      end in
               mkDOCSection (sec_name currSection) (sec_filename currSection)
                            (sec_line currSection) below failed)
            index children
  end.

(** [_processXmlTagSubcase (xml, title, stack, testEventBuilder,
    parentSection)] on the [children] of [parentSection]. *)
Definition _processXmlTagSubcase (_isSecnario : bool)
    (SubCase : option (list XmlSubCase)) (children : list DOCSection)
    : list DOCSection :=
  match SubCase with
  | Some l => foldl (λ ch s, processSubcase _isSecnario s ch) children l
  | None => children
  end.

(** [this._sections] after [_processXmlTagTestCaseInner]: the children of
    the fresh section [title]. *)
Definition sectionsOf (_isSecnario : bool) (SubCase : option (list XmlSubCase))
    : list DOCSection :=
  _processXmlTagSubcase _isSecnario SubCase [].

(** [traverse], on the counters [(failedBranch, succBranch)]. *)
Fixpoint traverse (section : DOCSection) (counters : nat * nat) : nat * nat :=
  match section with
  | mkDOCSection _ _ _ children failed =>
      match children with
      | [] => if failed then (S counters.1, counters.2) else (counters.1, S counters.2)
      | _ :: _ => foldl (λ c s, traverse s c) counters children
      end
  end.

(** The two counters after [this._sections.forEach (section => traverse
    (section))]. *)
Definition branches (sections : list DOCSection) : nat * nat :=
  foldl (λ c s, traverse s c) (0, 0) sections.

(** What [find] compares of a section, and of a sub-case with a name. *)
Definition sectionKey (v : DOCSection) : string * option string * option string :=
  (sec_name v, sec_filename v, sec_line v).

Definition subcaseKey (subcase : XmlSubCase)
    : option (string * option string * option string) :=
  a ← xml_attributes subcase;
  name ← attr_name a;
  Some (name, attr_filename a, attr_line a).

Definition hasBacktick (name : string) : bool :=
  negb (Text.hasNo (λ c, bool_decide (c = backtick)) name).

End DocSections.

(** ** Sample objects used by the examples *)

Module Samples.

Definition root : Suite := RootSuite 0.
Definition exeSuite : Suite := ChildSuite 1 "exe" "" "Path: exe" root.
Definition srcSuite : Suite := ChildSuite 2 "a.cpp" "" "" exeSuite.
Definition otherSuite : Suite := ChildSuite 3 "b.cpp" "" "" exeSuite.

Definition testA : AbstractTest := mkTest 10 DOCTest 7 srcSuite "A".
Definition testB : AbstractTest := mkTest 11 DOCTest 7 srcSuite "B".
Definition testC : AbstractTest := mkTest 12 DOCTest 7 otherSuite "C".
Definition testD : AbstractTest := mkTest 13 DOCTest 7 otherSuite "D".
Definition testE : AbstractTest := mkTest 14 DOCTest 7 exeSuite "E".

(** The tree root / exe / {a.cpp: A, B; b.cpp: C, D} of runnable 7. *)
Definition fieldsNamed (label : string) : TestFields :=
  {| _label := label; _file := None; _line := None; _skipped := false;
     _tags := []; _testDescription := None; _typeParam := None;
     _valueParam := None; _staticEvent := None |}.

Definition treeState : Tree.State :=
  Tree.mkState
    (<[root := [ISuite exeSuite]]>
     (<[exeSuite := [ISuite srcSuite; ISuite otherSuite]]>
      (<[srcSuite := [ITest testA; ITest testB]]>
       (<[otherSuite := [ITest testC; ITest testD]]> ∅))))
    (<[testA := fieldsNamed "A"]>
     (<[testB := fieldsNamed "B"]>
      (<[testC := fieldsNamed "C"]>
       (<[testD := fieldsNamed "D"]> ∅))))
    [testA; testB; testC; testD] (Some 100%Z) 20.

(** The runnable of that tree: tests are grouped by executable, then by
    source file. *)
Definition runnable : Tree.Runnable :=
  Tree.mkRunnable 7 root id
    (λ _ file _, match file with
                 | Some f => [("exe", "", "Path: exe"); (f, "", "")]
                 | None => [("exe", "", "Path: exe")]
                 end)
    [("exe", "", "Path: exe")].

(** A listing that has lost the test cases of b.cpp. *)
Definition listingAB : Tree.Enumeration :=
  Tree.Listing [ Tree.DocCase "A" (Some "a.cpp") (Some 3%Z) false [];
                 Tree.DocCase "B" (Some "a.cpp") (Some 9%Z) false [] ].

Definition neverCancelled : Tree.CancellationFlag := λ _, false.

(** That tree after a reload with that listing. *)
Definition reloadedAB : Tree.State :=
  Tree.finalState
    (Tree.reloadTestsDOC runnable listingAB neverCancelled (Some 200%Z) treeState).

(** A runnable without grouping levels, and a tree with its one test R
    right below the root. *)
Definition flatRunnable : Tree.Runnable :=
  Tree.mkRunnable 8 root id (λ _ _ _, []) [].

Definition testR : AbstractTest := mkTest 15 DOCTest 8 root "R".

Definition flatState : Tree.State :=
  Tree.mkState (<[root := [ITest testR]]> ∅) (<[testR := fieldsNamed "R"]> ∅)
               [testR] (Some 100%Z) 20.

(** A process that stopped while test A was open. *)
Definition dataOpen : Streaming.ProcessData :=
  Streaming.mkData "partial output" (Some "A"%string) (Some testA)
                   (Tree.route testA) [] [].


Definition runInfoPlain : Streaming.RunningRunnable :=
  Streaming.mkRunInfo false None [testA; testB].


Definition resultOk : Streaming.ProcessResult := Streaming.mkResult None.

(** Whole seconds, for the examples. *)
Definition wholeSeconds (milisec : Z) : string := pretty (milisec `div` 1000)%Z.

(** A run of test A whose only [beforeEach] task exits with code 1. *)
Definition runFailingBefore : Run.RunConfig :=
  Run.mkRunConfig (λ _, Some 1%Z) ["build"%string] [] 1 (λ _, [testA])
                  (λ st, Tree.Return () st) (λ _, Run.Fulfilled) false.

(** A run of the tests A and B whose only [beforeEach] task exits with
    code 0; the tree is not reloaded, and the processes end well. *)
Definition runAB : Run.RunConfig :=
  Run.mkRunConfig (λ _, Some 0%Z) ["build"%string] [] 1 (λ _, [testA; testB])
                  (λ st, Tree.Return () st) (λ _, Run.Fulfilled) false.

(** A listing as an old Google Test prints it, cut by an empty line, and
    stand-ins for the two regular expressions on its lines. *)
Definition sampleGroupRe : GoogleList.RegExp :=
  λ l, if decide (l = "Suite."%string) then Some (GoogleList.mkMatch "Suite" None)
       else None.

Definition sampleTestRe : GoogleList.RegExp :=
  λ l, if decide (l = "  a"%string) then Some (GoogleList.mkMatch "a" None)
       else if decide (l = "  DISABLED_b"%string)
       then Some (GoogleList.mkMatch "DISABLED_b" None)
       else None.

Definition sampleListing : string :=
  String.concat (String GoogleList.LF EmptyString)
    [ "Running main() from gtest_main.cc"; "Suite."; "  a"; "  DISABLED_b"; "";
      "Suite."; "  a"; "" ]%string.

Definition sampleAdd (c : GoogleList.GoogleCase) (st : list GoogleList.GoogleCase)
    : option (list GoogleList.GoogleCase) :=
  Some (st ++ [c]).

End Samples.

(** * Properties *)

Section ArrayFacts.
Context {A : Type} `{EqDecision A}.

Lemma indexOf_is_Some (l : list A) (x : A) : is_Some (indexOf l x) ↔ x ∈ l.
Proof.
  induction l as [|y l IH]; simpl.
  - split; [intros [? ?]; discriminate | intros H0; inversion H0].
  - destruct (decide (y = x)) as [->|Hne].
    + split; [intros _; left | eauto].
    + rewrite fmap_is_Some, IH. split; [by right|].
      intros [?|?]%elem_of_cons; congruence.
Qed.

Lemma indexOf_None (l : list A) (x : A) : indexOf l x = None ↔ x ∉ l.
Proof.
  rewrite <- indexOf_is_Some, eq_None_not_Some. tauto.
Qed.

Lemma indexOf_lookup (l : list A) (x : A) (i : nat) :
  indexOf l x = Some i → l !! i = Some x ∧ x ∉ take i l.
Proof.
  revert i. induction l as [|y l IH]; intros i; simpl; [discriminate|].
  destruct (decide (y = x)) as [->|Hne].
  - intros [= <-]. split; [done|]. simpl. apply not_elem_of_nil.
  - destruct (indexOf l x) as [j|] eqn:E; simpl; [|discriminate].
    intros [= <-]. destruct (IH j eq_refl) as [? ?]. split; [done|].
    simpl. rewrite not_elem_of_cons. split; [congruence | done].
Qed.

End ArrayFacts.

Section SelectionFacts.
Import Selection.

(** C10. A test reached through a selected ancestor is left out when it is
    skipped (its own flag or the runnable's [markAsSkipped]) and not listed
    itself; a test listed in the requested set is returned whatever its
    skip flag and whatever [isParentIn].  Both with the default filter; with
    a filter given by the caller the same holds for every test the filter
    accepts, and the third part gives the result for any filter. *)
Theorem collectTestToRun_selection (this : AbstractTest) (f : TestFields)
    (markAsSkipped : bool) (tests : list TestItem) :
  (skipped f markAsSkipped = true → ITest this ∉ tests →
     collectTestToRun this f markAsSkipped tests true defaultFilter = []) ∧
  (ITest this ∈ tests → ∀ isParentIn,
     collectTestToRun this f markAsSkipped tests isParentIn defaultFilter = [this]) ∧
  (∀ isParentIn filter,
     collectTestToRun this f markAsSkipped tests isParentIn filter =
       if bool_decide ((isParentIn = true ∧ skipped f markAsSkipped = false)
                        ∨ ITest this ∈ tests) && filter this
       then [this] else []).
Proof.
  unfold collectTestToRun. split; [|split].
  - intros Hs Hn. rewrite Hs. simpl.
    rewrite bool_decide_eq_false_2; [done|]. by rewrite indexOf_is_Some.
  - intros Hin ip. rewrite (bool_decide_eq_true_2 (is_Some _));
      [|by rewrite indexOf_is_Some].
    by rewrite orb_true_r.
  - intros ip filter. repeat case_bool_decide.
    + rewrite orb_true_r. done.
    + rewrite orb_true_r. exfalso. rewrite indexOf_is_Some in *. tauto.
    + rewrite orb_false_r. rewrite indexOf_is_Some in *.
      destruct ip, (skipped f markAsSkipped); simpl; try done;
        exfalso; intuition congruence.
    + rewrite orb_false_r. rewrite indexOf_is_Some in *.
      destruct ip, (skipped f markAsSkipped); try done; exfalso; tauto.
Qed.

Lemma collectTestToRun_selection_witness :
  collectTestToRun Samples.testA (Samples.fieldsNamed "A") true
                   [ITest Samples.testB] true defaultFilter = [] ∧
  collectTestToRun Samples.testA (Samples.fieldsNamed "A") true
                   [ITest Samples.testA] false defaultFilter = [Samples.testA].
Proof.
  pose proof (collectTestToRun_selection Samples.testA (Samples.fieldsNamed "A")
                true [ITest Samples.testB]) as (H1 & _ & _).
  pose proof (collectTestToRun_selection Samples.testA (Samples.fieldsNamed "A")
                true [ITest Samples.testA]) as (_ & H2 & _).
  split.
  - apply H1; [reflexivity|]. intros Hin. apply list_elem_of_singleton in Hin.
    discriminate Hin.
  - apply H2. left.
Defined.

End SelectionFacts.

Section BatchingFacts.
Import Batching.

Lemma idLength_nonneg (t : AbstractTest) : (0 ≤ idLength t)%Z.
Proof. unfold idLength. lia. Qed.

Lemma cumulativeLength_app (b1 b2 : list AbstractTest) :
  cumulativeLength (b1 ++ b2) = (cumulativeLength b1 + cumulativeLength b2)%Z.
Proof.
  unfold cumulativeLength. induction b1 as [|t b1 IH]; simpl; [done|].
  rewrite IH. lia.
Qed.

Lemma splitLoop_concat (tests : list AbstractTest) :
  ∀ done lastSet charCount,
    concat (splitLoop tests done lastSet charCount) =
    concat done ++ lastSet ++ tests.
Proof.
  induction tests as [|t tests IH]; intros done lastSet c; simpl.
  - rewrite concat_app. simpl. by rewrite !app_nil_r.
  - destruct (decide _); rewrite IH.
    + rewrite concat_app. simpl. rewrite app_nil_r, <- app_assoc. done.
    + by rewrite <- app_assoc.
Qed.

Lemma openBatch_smallEnough lastSet charCount :
  openBatch lastSet charCount → smallEnough lastSet.
Proof.
  intros [[? ?]|[_ ?]]; [left; lia | by right].
Qed.

Lemma splitLoop_smallEnough (tests : list AbstractTest) :
  ∀ done lastSet charCount,
    Forall smallEnough done → openBatch lastSet charCount →
    Forall smallEnough (splitLoop tests done lastSet charCount).
Proof.
  induction tests as [|t tests IH]; intros done lastSet c Hd Ho; simpl.
  - apply Forall_app. split; [done|].
    constructor; [by eapply openBatch_smallEnough | constructor].
  - pose proof (idLength_nonneg t) as Hn.
    destruct (decide _) as [Hge|Hlt]; apply IH.
    + apply Forall_app. split; [done|].
      constructor; [by eapply openBatch_smallEnough | constructor].
    + right. split; [done | by exists t].
    + done.
    + destruct Ho as [[Hc Hl]|[Hl _]]; [|lia].
      left. rewrite cumulativeLength_app. unfold cumulativeLength at 2. simpl.
      lia.
Qed.

(** C4, as the code has it.  The sub-batches, put one after the other, are
    the input list; each sub-batch either keeps the sum of its identity
    lengths below 30000, or consists of a single test. *)
Theorem splitTestsToSmallEnoughSubsets_batches (tests : list AbstractTest) :
  concat (_splitTestsToSmallEnoughSubsets tests) = tests ∧
  ∀ b, b ∈ _splitTestsToSmallEnoughSubsets tests →
       (cumulativeLength b < 30000)%Z ∨ ∃ t, b = [t].
Proof.
  unfold _splitTestsToSmallEnoughSubsets. split.
  - by rewrite splitLoop_concat.
  - intros b Hb.
    assert (Forall smallEnough (splitLoop tests [] [] 0)) as HF.
    { apply splitLoop_smallEnough; [constructor|].
      left. unfold cumulativeLength, limit. simpl. lia. }
    rewrite Forall_forall in HF. exact (HF b Hb).
Qed.

Lemma repeatChar_length (n : nat) : String.length (repeatChar n) = n.
Proof. induction n as [|n IH]; simpl; [done | by rewrite IH]. Qed.

Lemma idLength_testOfLength (n : Z) : (0 ≤ n)%Z → idLength (testOfLength n) = n.
Proof.
  intros Hn. unfold idLength, testOfLength. simpl.
  rewrite repeatChar_length. lia.
Qed.

(** C4 fails as stated: a single test whose identity has 30001 characters
    is a sub-batch of its own, and that sub-batch is over the limit. *)
Lemma splitTestsToSmallEnoughSubsets_over_limit :
  ¬ ∀ b, b ∈ _splitTestsToSmallEnoughSubsets [testOfLength 30001] →
         (cumulativeLength b ≤ 30000)%Z.
Proof.
  intros H. specialize (H [testOfLength 30001]).
  assert (idLength (testOfLength 30001) = 30001%Z) as E
    by (apply idLength_testOfLength; lia).
  enough (cumulativeLength [testOfLength 30001] ≤ 30000)%Z as Hle.
  { unfold cumulativeLength in Hle. simpl in Hle. lia. }
  apply H. unfold _splitTestsToSmallEnoughSubsets, splitLoop.
  destruct (decide _) as [_|Hn].
  - right. left.
  - exfalso. apply Hn. unfold limit. lia.
Qed.

End BatchingFacts.

Section MultirunFacts.
Import Multirun.

Lemma pushAt_length j t bs : length (pushAt j t bs) = length bs.
Proof. apply length_alter. Qed.

Lemma distribute_length (tests : list AbstractTest) :
  ∀ i bs, length (distribute tests i bs) = length bs.
Proof.
  induction tests as [|t tests IH]; intros i bs; simpl; [done|].
  by rewrite IH, pushAt_length.
Qed.

(** Bucket [j] receives the tests at the positions congruent to [j]. *)
Lemma distribute_lookup (tests : list AbstractTest) :
  ∀ i bs j b, bs !! j = Some b →
    distribute tests i bs !! j = Some (b ++ everyKth (length bs) j i tests).
Proof.
  induction tests as [|t tests IH]; intros i bs j b Hb; simpl.
  - by rewrite app_nil_r.
  - destruct (decide (i `mod` length bs = j)) as [<-|Hne].
    + erewrite IH; [|unfold pushAt; rewrite list_lookup_alter_eq, Hb; done].
      rewrite pushAt_length, <- app_assoc. done.
    + erewrite IH; [|unfold pushAt; rewrite list_lookup_alter_ne; done].
      by rewrite pushAt_length.
Qed.

Lemma pushAt_concat j t bs :
  j < length bs → concat (pushAt j t bs) ≡ₚ t :: concat bs.
Proof.
  revert j. induction bs as [|b bs IH]; intros j Hj; simpl in Hj; [lia|].
  destruct j as [|j].
  - change (concat (pushAt 0 t (b :: bs))) with ((b ++ [t]) ++ concat bs).
    rewrite <- app_assoc. simpl. by rewrite <- Permutation_middle.
  - change (concat (pushAt (S j) t (b :: bs))) with (b ++ concat (pushAt j t bs)).
    rewrite IH by lia. simpl. by rewrite Permutation_middle.
Qed.

Lemma distribute_concat (tests : list AbstractTest) :
  ∀ i bs, 0 < length bs →
    concat (distribute tests i bs) ≡ₚ concat bs ++ tests.
Proof.
  induction tests as [|t tests IH]; intros i bs Hk; simpl.
  - by rewrite app_nil_r.
  - rewrite IH by (rewrite pushAt_length; done).
    rewrite pushAt_concat by (apply Nat.mod_upper_bound; lia).
    simpl. apply Permutation_middle.
Qed.

Lemma concat_replicate_nil (k : nat) :
  concat (replicate k ([] : list AbstractTest)) = [].
Proof. induction k as [|k IH]; simpl; done. Qed.

(** Two arrays of a duplicate-free concatenation share no element. *)
Lemma concat_NoDup_disjoint (bs : list (list AbstractTest)) :
  NoDup (concat bs) →
  ∀ i j a b, i ≠ j → bs !! i = Some a → bs !! j = Some b →
             ∀ t, t ∈ a → t ∉ b.
Proof.
  induction bs as [|c bs IH]; intros Hnd i j a b Hij Ha Hb t Hta Htb;
    [done|].
  simpl in Hnd. apply NoDup_app in Hnd as (Hc & Hdis & Hrest).
  destruct i as [|i], j as [|j]; simpl in *; try done.
  - injection Ha as ->. apply (Hdis t Hta).
    apply list_elem_of_lookup_2 in Hb. rewrite list_elem_of_In, in_concat.
    exists b. by rewrite <- !list_elem_of_In.
  - injection Hb as ->. apply (Hdis t Htb).
    apply list_elem_of_lookup_2 in Ha. rewrite list_elem_of_In, in_concat.
    exists a. by rewrite <- !list_elem_of_In.
  - eapply (IH Hrest i j a b); eauto.
Qed.

(** C8, as the code has it.  With a parallelization limit above 1 the
    selection is dealt round-robin into
    [min (n, max (1, round (n / max (1, round (size / limit)))))] buckets,
    [n] the number of selected tests and [size] the number of tests of the
    runnable: bucket [j] holds the tests at the positions congruent to [j],
    in order.  Every position goes to one bucket, so the buckets together
    are a rearrangement of the selection, and for a selection without
    repeated tests no two buckets share a test. *)
Theorem splitTestSetForMultirun_buckets
    (parallelizationLimit testsSize : nat) (tests : list AbstractTest) :
  1 < parallelizationLimit →
  let buckets :=
    _splitTestSetForMultirunIfEnabled parallelizationLimit testsSize tests in
  length buckets = targetTaskCount testsSize parallelizationLimit (length tests) ∧
  (∀ j, j < length buckets →
        buckets !! j = Some (everyKth (length buckets) j 0 tests)) ∧
  concat buckets ≡ₚ tests ∧
  (NoDup tests → ∀ i j a b, i ≠ j → buckets !! i = Some a → buckets !! j = Some b →
                 ∀ t, t ∈ a → t ∉ b).
Proof.
  intros Hlim buckets. subst buckets. unfold _splitTestSetForMultirunIfEnabled.
  destruct (decide _) as [_|?]; [|done].
  set (k := targetTaskCount testsSize parallelizationLimit (length tests)).
  assert (concat (distribute tests 0 (replicate k [])) ≡ₚ tests) as Hperm.
  { destruct tests as [|t tests]; [cbn [distribute]; by rewrite concat_replicate_nil|].
    rewrite distribute_concat.
    - by rewrite concat_replicate_nil.
    - rewrite length_replicate. unfold k, targetTaskCount. cbn [length]. lia. }
  split; [|split; [|split]].
  - by rewrite distribute_length, length_replicate.
  - intros j. rewrite distribute_length, length_replicate. intros Hj.
    erewrite distribute_lookup; [|by apply lookup_replicate_2].
    by rewrite length_replicate.
  - done.
  - intros Hnd. apply concat_NoDup_disjoint. by rewrite Hperm.
Qed.

Lemma splitTestSetForMultirun_buckets_witness :
  1 < 2 ∧
  concat (_splitTestSetForMultirunIfEnabled 2 4
            [Samples.testA; Samples.testB; Samples.testC; Samples.testD])
    ≡ₚ [Samples.testA; Samples.testB; Samples.testC; Samples.testD].
Proof.
  split; [lia|].
  apply (splitTestSetForMultirun_buckets 2 4
           [Samples.testA; Samples.testB; Samples.testC; Samples.testD]).
  lia.
Defined.

(** C8 fails as stated: two simultaneous invocations are allowed and four
    of the runnable's ten tests are selected, yet there is one bucket. *)
Lemma splitTestSetForMultirun_one_bucket :
  length (_splitTestSetForMultirunIfEnabled 2 10
            [Samples.testA; Samples.testB; Samples.testC; Samples.testD]) ≠ 2.
Proof. vm_compute. lia. Qed.

End MultirunFacts.

Section RouteFacts.
Import Tree.

Lemma suiteRoute_head (g : Suite) : ∃ rest, suiteRoute g = g :: rest.
Proof. destruct g; simpl; eauto. Qed.

Lemma suiteRoute_self (g : Suite) : g ∈ suiteRoute g.
Proof. destruct (suiteRoute_head g) as [rest ->]. left. Qed.

Lemma suiteRoute_root (g : Suite) : rootOf g ∈ suiteRoute g.
Proof.
  induction g as [u|u l d t p IH]; simpl; [left | right; exact IH].
Qed.

(** The route of an ancestor is the tail of the route from there on. *)
Lemma suiteRoute_suffix (g x : Suite) :
  x ∈ suiteRoute g → ∃ pre, suiteRoute g = pre ++ suiteRoute x.
Proof.
  induction g as [u|u l d t p IH]; simpl.
  - intros ->%list_elem_of_singleton. by exists [].
  - intros [->|Hx]%elem_of_cons; [by exists []|].
    destruct (IH Hx) as [pre ->]. by exists (ChildSuite u l d t p :: pre).
Qed.

Lemma suiteRoute_length_le (g x : Suite) :
  x ∈ suiteRoute g → length (suiteRoute x) ≤ length (suiteRoute g).
Proof.
  intros [pre ->]%suiteRoute_suffix. rewrite length_app. lia.
Qed.

Lemma suiteRoute_NoDup (g : Suite) : NoDup (suiteRoute g).
Proof.
  induction g as [u|u l d t p IH]; simpl.
  - apply NoDup_singleton.
  - constructor; [|done]. intros Hin%suiteRoute_length_le. simpl in Hin. lia.
Qed.

(** Two routes that meet: each is a private part followed by the route of
    the first suite of one that lies on the other. *)
Lemma routes_meet (c r : Suite) :
  rootOf c = rootOf r →
  ∃ a b x, suiteRoute c = a ++ suiteRoute x ∧ suiteRoute r = b ++ suiteRoute x
           ∧ (∀ y, y ∈ a → y ∉ suiteRoute r)
           ∧ (∀ y, y ∈ b → y ∉ suiteRoute c).
Proof.
  intros Hroot.
  assert (∃ a x rest, suiteRoute c = a ++ x :: rest
                      ∧ (∀ y, y ∈ a → y ∉ suiteRoute r) ∧ x ∈ suiteRoute r)
    as (a & x & rest & Hc & Ha & Hx).
  { assert (∃ y, y ∈ suiteRoute c ∧ y ∈ suiteRoute r) as Hex.
    { exists (rootOf c). split; [apply suiteRoute_root|].
      rewrite Hroot. apply suiteRoute_root. }
    revert Hex. generalize (suiteRoute c) as lc.
    induction lc as [|y lc IH]; intros (z & Hz & Hzr); [by inversion Hz|].
    destruct (decide (y ∈ suiteRoute r)) as [Hy|Hy].
    - exists [], y, lc. split; [done|]. split; [|done]. intros ? H0. inversion H0.
    - destruct IH as (a & x & rest & -> & Ha & Hx).
      { exists z. split; [|done]. apply elem_of_cons in Hz as [->|?]; done. }
      exists (y :: a), x, rest. split; [done|]. split; [|done].
      intros w [->|Hw]%elem_of_cons; eauto. }
  assert (x ∈ suiteRoute c) as Hxc.
  { rewrite Hc. apply elem_of_app. right. left. }
  destruct (suiteRoute_suffix c x Hxc) as [a' Ha'].
  destruct (suiteRoute_suffix r x Hx) as [b Hb].
  assert (a' = a) as ->.
  { pose proof (suiteRoute_NoDup c) as Hnd.
    destruct (suiteRoute_head x) as [rest' Hrest'].
    rewrite Ha', Hrest' in Hc.
    rewrite Ha', Hrest' in Hnd.
    clear -Hc Hnd. revert a Hc. induction a' as [|y a' IH]; intros a Hc.
    - destruct a as [|z a]; [done|]. simpl in Hc. injection Hc as <- Hc.
      exfalso. simpl in Hnd. apply NoDup_cons in Hnd as [Hn _]. apply Hn.
      rewrite Hc. apply elem_of_app. right. left.
    - destruct a as [|z a]; simpl in Hc.
      + injection Hc as -> Hc. exfalso. simpl in Hnd.
        apply NoDup_cons in Hnd as [Hn _]. apply Hn.
        apply elem_of_app. right. left.
      + injection Hc as <- Hc. f_equal. apply IH; [|done].
        simpl in Hnd. by apply NoDup_cons in Hnd as [_ ?]. }
  exists a, b, x. split; [done|]. split; [done|]. split; [done|].
  intros y Hyb Hyc. rewrite Ha' in Hyc. apply elem_of_app in Hyc as [Hya|Hys].
  - apply (Ha y Hya). rewrite Hb. apply elem_of_app. by left.
  - pose proof (suiteRoute_NoDup r) as Hnd. rewrite Hb in Hnd.
    apply NoDup_app in Hnd as (_ & Hdis & _). by apply (Hdis y).
Qed.

End RouteFacts.

Section ListFacts.
Context {A : Type} (P : A → Prop) `{!∀ x, Decision (P x)}.

Lemma filter_all (l : list A) : (∀ x, x ∈ l → P x) → filter P l = l.
Proof.
  induction l as [|y l IH]; intros Hall; [done|].
  rewrite filter_cons_True by (apply Hall; left).
  f_equal. apply IH. intros x Hx. apply Hall. by right.
Qed.

Lemma filter_none (l : list A) : (∀ x, x ∈ l → ¬ P x) → filter P l = [].
Proof.
  induction l as [|y l IH]; intros Hall; [done|].
  rewrite filter_cons_False by (apply Hall; left).
  apply IH. intros x Hx. apply Hall. by right.
Qed.

End ListFacts.

Section StreamingFacts.
Import Tree Streaming.

Lemma scanCompleted_found (a : list Suite) (x : Suite) (rest running : list Suite)
    (k i : nat) :
  (∀ y, y ∈ a → y ∉ running) → indexOf running x = Some i →
  scanCompleted (a ++ x :: rest) running k = (k + length a, Some i).
Proof.
  revert k. induction a as [|y a IH]; intros k Ha Hx; simpl.
  - rewrite Hx. f_equal. lia.
  - assert (indexOf running y = None) as ->.
    { apply indexOf_None. apply Ha. left. }
    rewrite IH; [f_equal; lia | | done].
    intros z Hz. apply Ha. by right.
Qed.

Lemma indexOf_app_r (b : list Suite) (x : Suite) (rest : list Suite) :
  x ∉ b → indexOf (b ++ x :: rest) x = Some (length b).
Proof.
  induction b as [|y b IH]; intros Hx; simpl.
  - by rewrite decide_True.
  - apply not_elem_of_cons in Hx as [Hne Hx].
    rewrite decide_False by congruence. by rewrite IH.
Qed.

(** With nothing running: every suite of [completed], in array order. *)
Lemma sendMinimalEventsIfNeeded_end (completed : list Suite) :
  sendMinimalEventsIfNeeded completed [] = SuiteCompleted <$> completed.
Proof. by destruct completed. Qed.

(** The reports of [sendMinimalEventsIfNeeded] between two routes of one
    tree (either may be empty): the suites left, innermost first, then the
    suites entered, outermost first; nothing for a suite on both routes. *)
Lemma sendMinimalEventsIfNeeded_routes (completed running : list Suite) :
  (completed = [] ∨ ∃ c, completed = suiteRoute c) →
  (running = [] ∨ ∃ r, running = suiteRoute r) →
  (∀ c r, completed = suiteRoute c → running = suiteRoute r → rootOf c = rootOf r) →
  sendMinimalEventsIfNeeded completed running =
    (SuiteCompleted <$> filter (λ g, g ∉ running) completed)
    ++ (SuiteRunning <$> rev (filter (λ g, g ∉ completed) running)).
Proof.
  intros [->|[c ->]] Hr Hroot.
  - simpl. unfold reverse. rewrite filter_all; [done|].
    intros x _. apply not_elem_of_nil.
  - destruct Hr as [->|[r ->]].
    + rewrite sendMinimalEventsIfNeeded_end.
      rewrite filter_all; [by rewrite app_nil_r|].
      intros x _. apply not_elem_of_nil.
    + specialize (Hroot c r eq_refl eq_refl).
      destruct (routes_meet c r Hroot) as (a & b & x & Hc & Hb & Ha & Hbn).
      assert (filter (λ g, g ∉ suiteRoute r) (suiteRoute c) = a) as ->.
      { rewrite Hc. rewrite filter_app, filter_all by done.
        rewrite filter_none; [by rewrite app_nil_r|].
        intros y Hy Hn. apply Hn. rewrite Hb. apply elem_of_app. by right. }
      assert (filter (λ g, g ∉ suiteRoute c) (suiteRoute r) = b) as ->.
      { rewrite Hb. rewrite filter_app, filter_all by done.
        rewrite filter_none; [by rewrite app_nil_r|].
        intros y Hy Hn. apply Hn. rewrite Hc. apply elem_of_app. by right. }
      assert (c ≠ r → scanCompleted (suiteRoute c) (suiteRoute r) 0
                      = (length a, Some (length b))) as Hscan.
      { intros _. destruct (suiteRoute_head x) as [restx Hhx].
        assert (indexOf (suiteRoute r) x = Some (length b)) as Hix.
        { rewrite Hb, Hhx. apply indexOf_app_r. intros Hxb.
          apply (Hbn x Hxb). rewrite Hc, Hhx. apply elem_of_app. right. left. }
        rewrite Hc at 1. rewrite Hhx.
        by rewrite (scanCompleted_found a x restx (suiteRoute r) 0 (length b) Ha Hix). }
      assert (take (length a) (suiteRoute c) = a) as Htc
        by (rewrite Hc; apply take_app_length).
      assert (take (length b) (suiteRoute r) = b) as Htr
        by (rewrite Hb; apply take_app_length).
      assert (c = r → a = [] ∧ b = []) as Heq.
      { intros ->. destruct a as [|y a], b as [|z b]; try done; exfalso.
        - apply (Hbn z); [left|]. rewrite Hb. left.
        - apply (Ha y); [left|]. rewrite Hc. left.
        - apply (Ha y); [left|]. rewrite Hc. left. }
      clear Hc Hb Ha Hbn.
      destruct (suiteRoute_head c) as [restc Hhc].
      destruct (suiteRoute_head r) as [restr Hhr].
      unfold sendMinimalEventsIfNeeded. rewrite Hhc, Hhr in *.
      destruct (decide (c = r)) as [E|Hne].
      * by destruct (Heq E) as [-> ->].
      * rewrite (Hscan Hne). cbv beta iota. by rewrite Htc, Htr.
Qed.

End StreamingFacts.

Section StreamingClaims.
Import Tree Streaming.

Lemma withoutRoot_completed (l : list Suite) :
  withoutRoot (SuiteCompleted <$> l)
  = SuiteCompleted <$> filter (λ g, suite_parent g ≠ None) l.
Proof.
  unfold withoutRoot. induction l as [|g l IH]; [done|].
  rewrite fmap_cons. destruct g as [u|u lb d t p].
  - rewrite filter_cons_False by (simpl; congruence).
    rewrite filter_cons_False by (simpl; tauto). exact IH.
  - rewrite filter_cons_True by done. rewrite filter_cons_True by done.
    by rewrite fmap_cons, IH.
Qed.

Lemma withoutRoot_running (l : list Suite) :
  withoutRoot (SuiteRunning <$> l)
  = SuiteRunning <$> filter (λ g, suite_parent g ≠ None) l.
Proof.
  unfold withoutRoot. induction l as [|g l IH]; [done|].
  rewrite fmap_cons. destruct g as [u|u lb d t p].
  - rewrite filter_cons_False by (simpl; congruence).
    rewrite filter_cons_False by (simpl; tauto). exact IH.
  - rewrite filter_cons_True by done. rewrite filter_cons_True by done.
    by rewrite fmap_cons, IH.
Qed.

Lemma withoutRoot_app (a b : list Event) :
  withoutRoot (a ++ b) = withoutRoot a ++ withoutRoot b.
Proof. apply filter_app. Qed.

(** The root is the last suite of a route, and the only one on it that
    has no parent. *)
Lemma suiteRoute_last (s : Suite) :
  ∃ init u, suiteRoute s = init ++ [RootSuite u] ∧ rootOf s = RootSuite u
            ∧ Forall (λ g, suite_parent g ≠ None) init.
Proof.
  induction s as [u|u lb d t p (init & u' & E & Hr & Hall)].
  - exists [], u. by repeat split.
  - exists (ChildSuite u lb d t p :: init), u'. simpl. rewrite E.
    split; [done|]. split; [done|]. by constructor.
Qed.

Lemma suiteRoute_parentless (s g : Suite) :
  g ∈ suiteRoute s → suite_parent g = None → g = rootOf s.
Proof.
  destruct (suiteRoute_last s) as (init & u & -> & -> & Hall).
  intros [Hin|Hin]%elem_of_app Hnone.
  - rewrite Forall_forall in Hall. by destruct (Hall g Hin).
  - by apply list_elem_of_singleton in Hin.
Qed.

Lemma filter_rev {A} (P : A → Prop) `{∀ x, Decision (P x)} (l : list A) :
  filter P (rev l) = rev (filter P l).
Proof.
  induction l as [|x l IH]; [done|]. simpl. rewrite filter_app, IH.
  destruct (decide (P x)).
  - rewrite (filter_cons_True P x l) by done.
    by rewrite (filter_cons_True P x []) by done.
  - rewrite (filter_cons_False P x l) by done.
    rewrite (filter_cons_False P x []) by done. by rewrite app_nil_r.
Qed.

Lemma filter_filter_and {A} (P Q : A → Prop) `{∀ x, Decision (P x)}
    `{∀ x, Decision (Q x)} (l : list A) :
  filter Q (filter P l) = filter (λ x, P x ∧ Q x) l.
Proof.
  induction l as [|x l IH]; [done|].
  destruct (decide (P x)) as [HP|HP].
  - rewrite (filter_cons_True P) by done.
    destruct (decide (Q x)) as [HQ|HQ].
    + rewrite !filter_cons_True by done. by rewrite IH.
    + rewrite (filter_cons_False Q) by done.
      rewrite filter_cons_False by tauto. exact IH.
  - rewrite (filter_cons_False P) by done.
    rewrite filter_cons_False by tauto. exact IH.
Qed.

(** C3, as the code has it.  When a test case of a known test begins,
    [sendCompletedEventIfNeeded] is called on the suites of the route left
    behind that are not on the new route, innermost first; then
    [sendRunningEventIfNeeded] on the suites of the new route that are not
    on the previous one, outermost first; then the test is started.  A
    suite on both routes gets no call.  When the stream ends,
    [sendCompletedEventIfNeeded] is called on the suites of the open route
    from the parent of the last test up to the root, and on no other.  The
    root is the last suite of every route, and both methods of the root
    have an empty body: of all these calls the ones on suites other than
    the root are left, so the root itself is never reported running or
    completed. *)
Theorem group_transition_events (tests : list AbstractTest) (data : ProcessData)
    (m1 : string) (mIndex : nat) (test : AbstractTest) :
  _findTest tests (λ v, bool_decide (testNameAsId v = m1)) = Some test →
  (data_route data = []
   ∨ ∃ prev, data_route data = route prev
             ∧ rootOf (parent prev) = rootOf (parent test)) →
  (testCaseBegin tests data m1 mIndex).1 =
    (SuiteCompleted <$> filter (λ g, g ∉ route test) (data_route data))
    ++ (SuiteRunning <$> rev (filter (λ g, g ∉ data_route data) (route test)))
    ++ [TestChanged test getStartEvent]
  ∧ data_route (testCaseBegin tests data m1 mIndex).2 = route test
  ∧ withoutRoot (testCaseBegin tests data m1 mIndex).1 =
      (SuiteCompleted <$> filter (λ g, g ∉ route test) (data_route data))
      ++ (SuiteRunning
            <$> rev (filter (λ g, (g ∉ data_route data) ∧ suite_parent g ≠ None)
                            (route test)))
      ++ [TestChanged test getStartEvent]
  ∧ (∀ secondsToString data' runInfo result,
       filter isSuiteEvent (processEnd secondsToString data' runInfo result).1.1
       = SuiteCompleted <$> data_route data'
       ∧ withoutRoot
           (filter isSuiteEvent (processEnd secondsToString data' runInfo result).1.1)
         = SuiteCompleted <$> filter (λ g, suite_parent g ≠ None) (data_route data'))
  ∧ ∃ init u, route test = init ++ [RootSuite u]
              ∧ Forall (λ g, suite_parent g ≠ None) init.
Proof.
  intros Hfind Hprev.
  assert ((testCaseBegin tests data m1 mIndex).1 =
            (SuiteCompleted <$> filter (λ g, g ∉ route test) (data_route data))
            ++ (SuiteRunning <$> rev (filter (λ g, g ∉ data_route data) (route test)))
            ++ [TestChanged test getStartEvent]) as Hcalls.
  { unfold testCaseBegin. rewrite Hfind. simpl.
    rewrite app_assoc. f_equal. unfold route.
    apply sendMinimalEventsIfNeeded_routes.
    + destruct Hprev as [->|(prev & -> & _)]; [by left | right; by eexists].
    + right. by eexists.
    + intros c r Hc Hr. destruct Hprev as [E|(prev & E & Hroot)].
      * rewrite E in Hc. by destruct (suiteRoute_head c) as [? E'];
          rewrite E' in Hc.
      * rewrite E in Hc. unfold route in Hc.
        destruct (suiteRoute_head c) as [? Ec], (suiteRoute_head r) as [? Er],
          (suiteRoute_head (parent prev)) as [? Ep],
          (suiteRoute_head (parent test)) as [? Et].
        rewrite Ec, Ep in Hc. rewrite Er, Et in Hr.
        injection Hc as <- _. injection Hr as <- _. done. }
  assert (∀ secondsToString data' runInfo result,
            filter isSuiteEvent (processEnd secondsToString data' runInfo result).1.1
            = SuiteCompleted <$> data_route data') as Hend.
  { intros fmt data' runInfo result. unfold processEnd. simpl.
    rewrite sendMinimalEventsIfNeeded_end, filter_app.
    rewrite (filter_all isSuiteEvent (SuiteCompleted <$> _)).
    + rewrite filter_none; [done|].
      intros e He.
      destruct (currentTestCaseNameFull data'), (currentChild data');
        try (by inversion He).
      destruct (isCancellationRequested runInfo);
        [apply list_elem_of_singleton in He as ->; by intros []|].
      destruct (timeout runInfo);
        [apply list_elem_of_singleton in He as ->; by intros []|].
      destruct (error result);
        apply list_elem_of_singleton in He as ->; by intros [].
    + intros e (g & -> & _)%list_elem_of_fmap. done. }
  split; [exact Hcalls|]. split.
  { unfold testCaseBegin. by rewrite Hfind. }
  split; [|split].
  - rewrite Hcalls, !withoutRoot_app, withoutRoot_completed, withoutRoot_running.
    f_equal; [|f_equal].
    + f_equal. apply filter_all. intros g [Hnot Hg]%list_elem_of_filter Hnone.
      apply Hnot. destruct Hprev as [E|(prev & E & Hroot)].
      * rewrite E in Hg. inversion Hg.
      * rewrite E in Hg. unfold route in *.
        rewrite (suiteRoute_parentless _ _ Hg Hnone), Hroot.
        apply suiteRoute_root.
    + by rewrite filter_rev, filter_filter_and.
  - intros fmt data' runInfo result. split; [apply Hend|].
    by rewrite Hend, withoutRoot_completed.
  - unfold route. destruct (suiteRoute_last (parent test)) as (init & u & E & _ & H).
    by exists init, u.
Qed.

Lemma group_transition_events_witness :
  (testCaseBegin [Samples.testA; Samples.testC] Samples.dataOpen "C" 0).1 =
    [SuiteCompleted Samples.srcSuite; SuiteRunning Samples.otherSuite;
     TestChanged Samples.testC getStartEvent].
Proof.
  refine (proj1 (group_transition_events [Samples.testA; Samples.testC]
                   Samples.dataOpen "C" 0 Samples.testC _ _)).
  - reflexivity.
  - right. exists Samples.testA. split; reflexivity.
Defined.

(** C3 fails as stated: the stream ends while the route of test A is
    open; the root is on that route, and the calls that report something
    are the ones on a.cpp and on exe: the root gets no completed event. *)
Lemma root_suite_gets_no_completed_event :
  route Samples.testA = [Samples.srcSuite; Samples.exeSuite; Samples.root]
  ∧ withoutRoot
      (filter isSuiteEvent
         (processEnd Samples.wholeSeconds Samples.dataOpen Samples.runInfoPlain
                     Samples.resultOk).1.1)
    = [SuiteCompleted Samples.srcSuite; SuiteCompleted Samples.exeSuite].
Proof. split; reflexivity. Qed.

Lemma string_app_cons (x : ascii) (a b : string) :
  (String x a ++ b = String x (a ++ b))%string.
Proof. reflexivity. Qed.

Lemma string_app_assoc (a b c : string) : ((a ++ b) ++ c = a ++ (b ++ c))%string.
Proof.
  induction a as [|x a IH]; [done|]. by rewrite !string_app_cons, IH.
Qed.

Lemma string_app_nil_r (a : string) : (a ++ "" = a)%string.
Proof.
  induction a as [|x a IH]; [done|]. by rewrite string_app_cons, IH.
Qed.







End StreamingClaims.

Section RunFacts.
Import Tree Streaming Run.

(** C5 at a failing input.  The only [beforeEach] task of the run exits
    with code 1 and test A is the selection: no process is spawned, and no
    report is made for A either, because [sendStaticEvents] drops the
    errored event that [sentStaticErrorEvent] has built. *)
Theorem before_task_failure_reports_nothing :
  Samples.runFailingBefore.(collectChildrenToRun) Samples.treeState = [Samples.testA] ∧
  runTasks (executeTask Samples.runFailingBefore) "beforeEach"
           (beforeEach Samples.runFailingBefore) ≠ None ∧
  run Samples.runFailingBefore Samples.treeState
  = (mkRunLog [] [], Samples.treeState, false).
Proof.
  assert (runTasks (executeTask Samples.runFailingBefore) "beforeEach"
                   (beforeEach Samples.runFailingBefore) ≠ None) as Hfail.
  { vm_compute. discriminate. }
  split; [reflexivity|]. split; [exact Hfail|].
  unfold run. destruct (runTasks _ _ _) as [e|]; [|done].
  unfold sentStaticErrorEvent, sendStaticEvents. simpl collectChildrenToRun.
  assert (getStaticEvent Samples.treeState Samples.testA = ([], false)) as H
    by (vm_compute; reflexivity).
  cbn [fmap list_fmap]. by rewrite H.
Qed.

(** When a [beforeEach] task fails, no process is spawned and the tree is
    not reloaded, whatever the selection. *)
Lemma before_task_failure_spawns_nothing (c : RunConfig) (st : State) :
  runTasks (executeTask c) "beforeEach" (beforeEach c) ≠ None →
  spawned (run c st).1.1 = [] ∧ (run c st).1.2 = st ∧ (run c st).2 = false.
Proof.
  intros H. unfold run. by destruct (runTasks _ _ _).
Qed.

End RunFacts.

Section TreeFacts.
Import Tree.

Lemma childrenOf_setChildren (g h : Suite) (l : list TestItem) (st : State) :
  childrenOf (setChildren g l st) h = if decide (g = h) then l else childrenOf st h.
Proof.
  unfold childrenOf, setChildren. simpl. rewrite lookup_insert.
  by destruct (decide (g = h)).
Qed.

Lemma childrenOf_setChildren_eq (g : Suite) (l : list TestItem) (st : State) :
  childrenOf (setChildren g l st) g = l.
Proof. rewrite childrenOf_setChildren. by rewrite decide_True. Qed.

Lemma childrenOf_setChildren_ne (g h : Suite) (l : list TestItem) (st : State) :
  g ≠ h → childrenOf (setChildren g l st) h = childrenOf st h.
Proof. intros. rewrite childrenOf_setChildren. by rewrite decide_False. Qed.

(** A suite is not its own parent. *)
Lemma child_suite_neq_parent (u : nat) (l d t : string) (p : Suite) :
  ChildSuite u l d t p ≠ p.
Proof.
  intros E. assert (length (suiteRoute (ChildSuite u l d t p)) = length (suiteRoute p))
    as Hlen by (by rewrite E).
  simpl in Hlen. lia.
Qed.

Lemma findSuite_Some (label description : string) (l : list TestItem) (g : Suite) :
  findSuite label description l = Some g →
  ∃ i, l !! i = Some (ISuite g) ∧ Suite_compare g label description = true
       ∧ ∀ j s, j < i → l !! j = Some (ISuite s) →
                Suite_compare s label description = false.
Proof.
  induction l as [|x l IH]; simpl; [discriminate|].
  destruct x as [s|t].
  - destruct (Suite_compare s label description) eqn:E.
    + intros [= <-]. exists 0. split; [done|]. split; [done|]. intros; lia.
    + intros (i & Hi & Hc & Hfirst)%IH. exists (S i). split; [done|].
      split; [done|]. intros [|j] s' Hj; simpl.
      * by intros [= <-].
      * intros Hs. apply (Hfirst j); [lia | done].
  - intros (i & Hi & Hc & Hfirst)%IH. exists (S i). split; [done|].
    split; [done|]. intros [|j] s' Hj; simpl; [done|].
    intros Hs. apply (Hfirst j); [lia | done].
Qed.

Lemma findSuite_None (label description : string) (l : list TestItem) :
  findSuite label description l = None ↔
  ∀ s, ISuite s ∈ l → Suite_compare s label description = false.
Proof.
  induction l as [|x l IH]; simpl.
  - split; [|done]. intros _ s Hs. inversion Hs.
  - destruct x as [s|t].
    + destruct (Suite_compare s label description) eqn:E.
      * split; [discriminate|]. intros H. exfalso.
        specialize (H s ltac:(left)). congruence.
      * rewrite IH. split.
        -- intros H s' [[= ->]|Hs']%elem_of_cons; eauto.
        -- intros H s' Hs'. apply H. by right.
    + rewrite IH. split.
      * intros H s' [?|Hs']%elem_of_cons; [done | eauto].
      * intros H s' Hs'. apply H. by right.
Qed.

Lemma findSuite_app (label description : string) (l1 l2 : list TestItem) :
  findSuite label description (l1 ++ l2) =
    match findSuite label description l1 with
    | Some g => Some g
    | None => findSuite label description l2
    end.
Proof.
  induction l1 as [|x l1 IH]; simpl; [done|].
  destruct x as [s|t]; [|done]. by destruct (Suite_compare s label description).
Qed.

Lemma Suite_compare_true (g : Suite) (label description : string) :
  Suite_compare g label description = true ↔
  suite_label g = label ∧ suite_description g = description.
Proof. unfold Suite_compare. by rewrite bool_decide_eq_true. Qed.

Lemma childrenOf_newSuite (label description tooltip : string) (group h : Suite)
    (st : State) :
  childrenOf (newSuite label description tooltip group st).2 h =
    if decide ((newSuite label description tooltip group st).1 = h) then []
    else childrenOf st h.
Proof.
  unfold childrenOf, newSuite. simpl. rewrite lookup_insert.
  by destruct (decide _).
Qed.

Lemma getOrCreateChildSuite_found (label description tooltip : string)
    (group found : Suite) (st : State) :
  findSuite label description (childrenOf st group) = Some found →
  _getOrCreateChildSuite label description tooltip group st = (found, st).
Proof. intros H. unfold _getOrCreateChildSuite. by rewrite H. Qed.

Lemma getOrCreateChildSuite_created (label description tooltip : string)
    (group : Suite) (st : State) :
  findSuite label description (childrenOf st group) = None →
  let g := ChildSuite (nextUid st) label description tooltip group in
  let st1 := (_getOrCreateChildSuite label description tooltip group st).2 in
  (_getOrCreateChildSuite label description tooltip group st).1 = g ∧
  childrenOf st1 group = childrenOf st group ++ [ISuite g] ∧
  childrenOf st1 g = [] ∧
  (∀ h, h ≠ group → h ≠ g → childrenOf st1 h = childrenOf st h) ∧
  _tests st1 = _tests st ∧ fields st1 = fields st ∧
  _lastReloadTime st1 = _lastReloadTime st ∧ nextUid st1 = S (nextUid st).
Proof.
  intros Hnone g st1. subst st1. unfold _getOrCreateChildSuite. rewrite Hnone.
  destruct (newSuite label description tooltip group st) as [newG st'] eqn:E.
  assert (newG = g ∧ _tests st' = _tests st ∧ fields st' = fields st
          ∧ _lastReloadTime st' = _lastReloadTime st ∧ nextUid st' = S (nextUid st))
    as (-> & Ht & Hfs & Hlr & Hn).
  { unfold newSuite in E. cbv zeta in E. by injection E as <- <-. }
  assert (∀ h, childrenOf st' h = if decide (g = h) then [] else childrenOf st h)
    as Hst'.
  { intros h. pose proof (childrenOf_newSuite label description tooltip group h st) as H.
    rewrite E in H. exact H. }
  assert (g ≠ group) as Hne by apply child_suite_neq_parent.
  simpl. unfold addSuite. repeat split.
  - rewrite childrenOf_setChildren_eq, Hst'. by rewrite decide_False.
  - rewrite childrenOf_setChildren_ne by done. rewrite Hst'. by rewrite decide_True.
  - intros h Hh Hg. rewrite childrenOf_setChildren_ne by done.
    rewrite Hst'. by rewrite decide_False.
  - done.
  - done.
  - done.
  - done.
Qed.

(** *** Removal *)

Lemma wellFormed_noRepeat (root : Suite) (st : State) :
  wellFormed root st → noRepeat st.
Proof.
  intros [_ Hwf] g. unfold childrenOf.
  destruct (children st !! g) as [l|] eqn:E; simpl; [|constructor].
  by destruct (Hwf g l E) as (_ & ? & _).
Qed.

Lemma wellFormed_coherent (root : Suite) (st : State) :
  wellFormed root st → coherent st.
Proof.
  intros [_ Hwf] g x. unfold childrenOf.
  destruct (children st !! g) as [l|] eqn:E; simpl; [|by inversion 1].
  destruct (Hwf g l E) as (_ & _ & HF). rewrite Forall_forall in HF.
  intros Hx. by destruct (HF x Hx).
Qed.

Lemma contains_in_parent (root : Suite) (st : State) (x : TestItem) :
  coherent st → contains st root x →
  ∃ g, itemParent x = Some g ∧ x ∈ childrenOf st g.
Proof.
  intros Hco [y Hy|g y _ Hy]; eexists; split; eauto.
Qed.

Lemma removeIfLeaf_sublist (g : Suite) :
  ∀ st h, childrenOf (removeIfLeaf g st) h `sublist_of` childrenOf st h.
Proof.
  induction g as [u|u l d t p IH]; intros st h; simpl; [done|].
  destruct (childrenOf st (ChildSuite u l d t p)); [|done].
  destruct (indexOf (childrenOf st p) _) as [i|]; [|done].
  etrans; [apply IH|]. rewrite childrenOf_setChildren.
  destruct (decide (p = h)) as [->|?]; [apply sublist_delete | done].
Qed.

Lemma removeIfLeaf_rest (g : Suite) :
  ∀ st, _tests (removeIfLeaf g st) = _tests st
        ∧ fields (removeIfLeaf g st) = fields st
        ∧ nextUid (removeIfLeaf g st) = nextUid st
        ∧ _lastReloadTime (removeIfLeaf g st) = _lastReloadTime st.
Proof.
  induction g as [u|u l d t p IH]; intros st; simpl; [done|].
  destruct (childrenOf st (ChildSuite u l d t p)); [|done].
  destruct (indexOf (childrenOf st p) _) as [i|]; [|done].
  by destruct (IH (setChildren p (delete i (childrenOf st p)) st))
    as (-> & -> & -> & ->).
Qed.

Lemma removeIfLeaf_noRepeat (g : Suite) (st : State) :
  noRepeat st → noRepeat (removeIfLeaf g st).
Proof.
  intros Hnd h.
  apply (sublist_NoDup _ (childrenOf st h)); [apply Hnd | apply removeIfLeaf_sublist].
Qed.

Lemma NoDup_delete_lookup (l : list TestItem) (i : nat) (x : TestItem) :
  NoDup l → l !! i = Some x → x ∉ delete i l.
Proof.
  intros Hnd Hi Hin. apply list_elem_of_lookup_1 in Hin as [j Hj].
  destruct (decide (j < i)) as [Hlt|Hge].
  - rewrite list_lookup_delete_lt in Hj by done.
    pose proof (NoDup_lookup l i j x Hnd Hi Hj). lia.
  - rewrite list_lookup_delete_ge in Hj by lia.
    pose proof (NoDup_lookup l i (S j) x Hnd Hi Hj). lia.
Qed.

Lemma removeIfLeaf_pruned (st0 : State) (g : Suite) :
  ∀ st, noRepeat st → prunedExcept st0 st (Some g) →
        prunedExcept st0 (removeIfLeaf g st) None.
Proof.
  induction g as [u|u l d t p IH]; intros st Hnd Hpr.
  - simpl. intros h q _ Hq Hbe. destruct (decide (h = RootSuite u)) as [->|Hne].
    + discriminate Hq.
    + apply (Hpr h q); [congruence | done | done].
  - set (g := ChildSuite u l d t p) in *.
    assert (g ≠ p) as Hgp by apply child_suite_neq_parent.
    simpl. fold g.
    destruct (childrenOf st g) as [|x xs] eqn:Eg.
    + destruct (indexOf (childrenOf st p) (ISuite g)) as [i|] eqn:Ei.
      * apply IH.
        -- intros h. rewrite childrenOf_setChildren.
           destruct (decide (p = h)); [|apply Hnd].
           apply (sublist_NoDup _ (childrenOf st h)); [apply Hnd|].
           subst h. apply sublist_delete.
        -- intros h q Hh Hq [Hne0 Hemp].
           rewrite childrenOf_setChildren in Hemp.
           destruct (decide (p = h)) as [->|Hph]; [congruence|].
           rewrite childrenOf_setChildren.
           destruct (decide (h = g)) as [->|Hhg].
           ++ assert (q = p) as -> by (simpl in Hq; congruence).
              rewrite decide_True by done.
              apply indexOf_lookup in Ei as [Hi _].
              by apply NoDup_delete_lookup.
           ++ assert (ISuite h ∉ childrenOf st q) as Hnot.
              { apply (Hpr h q); [congruence | done | done]. }
              destruct (decide (p = q)) as [->|?]; [|done].
              intros Hin. apply Hnot. by eapply list_elem_of_delete_inv.
      * intros h q _ Hq Hbe. destruct (decide (h = g)) as [->|Hne].
        -- assert (q = p) as -> by (simpl in Hq; congruence).
           by apply indexOf_None.
        -- apply (Hpr h q); [congruence | done | done].
    + intros h q _ Hq Hbe. destruct (decide (h = g)) as [->|Hne].
      * destruct Hbe as [_ Hemp]. congruence.
      * apply (Hpr h q); [congruence | done | done].
Qed.

Lemma removeWithLeafAscendants_sublist (t : AbstractTest) (st : State) (h : Suite) :
  childrenOf (removeWithLeafAscendants t st) h `sublist_of` childrenOf st h.
Proof.
  unfold removeWithLeafAscendants.
  destruct (indexOf _ _) as [i|]; [|done].
  etrans; [apply removeIfLeaf_sublist|]. rewrite childrenOf_setChildren.
  destruct (decide (parent t = h)) as [->|?]; [apply sublist_delete | done].
Qed.

Lemma removeWithLeafAscendants_detached (t : AbstractTest) (st : State) :
  noRepeat st → ITest t ∉ childrenOf (removeWithLeafAscendants t st) (parent t).
Proof.
  intros Hnd. unfold removeWithLeafAscendants.
  destruct (indexOf _ _) as [i|] eqn:Ei; [|by apply indexOf_None].
  intros Hin. eapply elem_of_sublist in Hin; [|apply removeIfLeaf_sublist].
  rewrite childrenOf_setChildren_eq in Hin.
  apply indexOf_lookup in Ei as [Hi _].
  by apply (NoDup_delete_lookup _ _ _ (Hnd (parent t)) Hi).
Qed.

Lemma removeWithLeafAscendants_pruned (st0 : State) (t : AbstractTest) (st : State) :
  noRepeat st → prunedExcept st0 st None →
  prunedExcept st0 (removeWithLeafAscendants t st) None.
Proof.
  intros Hnd Hpr. unfold removeWithLeafAscendants.
  destruct (indexOf _ _) as [i|] eqn:Ei; [|done].
  apply removeIfLeaf_pruned.
  - intros h. rewrite childrenOf_setChildren.
    destruct (decide (parent t = h)) as [<-|?]; [|apply Hnd].
    apply (sublist_NoDup _ (childrenOf st (parent t))); [apply Hnd|].
    apply sublist_delete.
  - intros h q Hh Hq [Hne0 Hemp]. rewrite childrenOf_setChildren in Hemp.
    destruct (decide (parent t = h)) as [E|Hph];
      [exfalso; apply Hh; by rewrite E|].
    assert (ISuite h ∉ childrenOf st q) as Hnot by (by apply (Hpr h q)).
    rewrite childrenOf_setChildren.
    destruct (decide (parent t = q)) as [->|?]; [|done].
    intros Hin. apply Hnot. by eapply list_elem_of_delete_inv.
Qed.

Lemma removeTest_children (st : State) (t : AbstractTest) :
  children (removeTest st t) = children (removeWithLeafAscendants t st).
Proof. done. Qed.

Lemma childrenOf_removeTest (st : State) (t : AbstractTest) (h : Suite) :
  childrenOf (removeTest st t) h = childrenOf (removeWithLeafAscendants t st) h.
Proof. done. Qed.

Lemma removeWithLeafAscendants_rest (t : AbstractTest) (st : State) :
  _tests (removeWithLeafAscendants t st) = _tests st
  ∧ fields (removeWithLeafAscendants t st) = fields st
  ∧ nextUid (removeWithLeafAscendants t st) = nextUid st
  ∧ _lastReloadTime (removeWithLeafAscendants t st) = _lastReloadTime st.
Proof.
  unfold removeWithLeafAscendants. destruct (indexOf _ _) as [i|]; [|done].
  by destruct (removeIfLeaf_rest (parent t)
                 (setChildren (parent t) (delete i (childrenOf st (parent t))) st))
    as (-> & -> & -> & ->).
Qed.

(** The removal loop of [reloadTests]. *)
Lemma removal_loop (st0 : State) (toRemove : list AbstractTest) :
  ∀ st, noRepeat st → prunedExcept st0 st None →
    let st' := foldl removeTest st toRemove in
    noRepeat st' ∧ prunedExcept st0 st' None
    ∧ (∀ h, childrenOf st' h `sublist_of` childrenOf st h)
    ∧ (∀ t, t ∈ toRemove → ITest t ∉ childrenOf st' (parent t))
    ∧ _tests st' = filter (λ t, t ∉ toRemove) (_tests st)
    ∧ fields st' = fields st ∧ nextUid st' = nextUid st
    ∧ _lastReloadTime st' = _lastReloadTime st.
Proof.
  induction toRemove as [|t ts IH]; intros st Hnd Hpr; simpl.
  - split; [done|]. split; [done|]. split; [done|].
    split; [intros t Ht; inversion Ht|]. split; [|done].
    symmetry. apply filter_all. intros x _. apply not_elem_of_nil.
  - destruct (removeWithLeafAscendants_rest t st) as (Ht & Hf & Hn & Hl).
    assert (noRepeat (removeTest st t)) as Hnd1.
    { intros h. rewrite childrenOf_removeTest.
      apply (sublist_NoDup _ (childrenOf st h)); [apply Hnd|].
      apply removeWithLeafAscendants_sublist. }
    assert (prunedExcept st0 (removeTest st t) None) as Hpr1.
    { intros h q Hh Hq [Hne0 Hemp]. rewrite childrenOf_removeTest in *.
      by apply (removeWithLeafAscendants_pruned st0 t st Hnd Hpr h q). }
    destruct (IH (removeTest st t) Hnd1 Hpr1)
      as (Hnd' & Hpr' & Hsub & Hdet & Htests & Hfields & Hnext & Hlast).
    split; [done|]. split; [done|]. split; [|split; [|split]].
    + intros h. etrans; [apply Hsub|]. rewrite childrenOf_removeTest.
      apply removeWithLeafAscendants_sublist.
    + intros t' [->|Hin]%elem_of_cons; [|by apply Hdet].
      intros Hin. eapply elem_of_sublist in Hin; [|apply Hsub].
      rewrite childrenOf_removeTest in Hin.
      by apply (removeWithLeafAscendants_detached t st Hnd).
    + rewrite Htests. simpl. rewrite Ht. unfold setDelete.
      rewrite list_filter_filter. apply list_filter_iff.
      intros x. rewrite not_elem_of_cons. tauto.
    + simpl in *. by rewrite Hfields, Hnext, Hlast, Hf, Hn, Hl.
Qed.

(** *** Sibling suites *)

Lemma siblingKeys_app (l1 l2 : list TestItem) :
  siblingKeys (l1 ++ l2) = siblingKeys l1 ++ siblingKeys l2.
Proof. unfold siblingKeys. apply omap_app. Qed.

Lemma findSuite_None_keys (label description : string) (l : list TestItem) :
  findSuite label description l = None ↔ (label, description) ∉ siblingKeys l.
Proof.
  rewrite findSuite_None. unfold siblingKeys. rewrite list_elem_of_omap. split.
  - intros H (x & Hx & Hk). destruct x as [s|t]; [|discriminate].
    injection Hk as Hl Hd. specialize (H s Hx).
    assert (Suite_compare s label description = true)
      by (by apply Suite_compare_true).
    congruence.
  - intros H s Hs. apply not_true_iff_false. intros [Hl Hd]%Suite_compare_true.
    apply H. exists (ISuite s). split; [done|]. by rewrite Hl, Hd.
Qed.

Lemma siblingKeys_sublist (l1 l2 : list TestItem) :
  l1 `sublist_of` l2 → siblingKeys l1 `sublist_of` siblingKeys l2.
Proof.
  unfold siblingKeys. induction 1 as [|x l1 l2 _ IH|x l1 l2 _ IH]; simpl.
  - constructor.
  - destruct x as [s|t]; [by constructor | done].
  - destruct x as [s|t]; [by constructor | done].
Qed.

Lemma getOrCreateChildSuite_siblings (label description tooltip : string)
    (group : Suite) (st : State) :
  noDuplicateSiblings st →
  noDuplicateSiblings (_getOrCreateChildSuite label description tooltip group st).2.
Proof.
  intros Hinv.
  destruct (findSuite label description (childrenOf st group)) as [found|] eqn:Hf.
  - by rewrite (getOrCreateChildSuite_found label description tooltip _ _ _ Hf).
  - destruct (getOrCreateChildSuite_created label description tooltip _ _ Hf)
      as (Hg & Hgroup & Hnew & Hother & _).
    intros h. destruct (decide (h = group)) as [->|Hhg].
    + rewrite Hgroup, siblingKeys_app. simpl. apply NoDup_app.
      split; [apply Hinv|]. split; [|apply NoDup_singleton].
      intros k Hk ->%list_elem_of_singleton.
      by apply (findSuite_None_keys label description (childrenOf st group)).
    + destruct (decide (h = ChildSuite (nextUid st) label description tooltip group))
        as [->|Hhn].
      * rewrite Hnew. constructor.
      * rewrite Hother by done. apply Hinv.
Qed.

Lemma walkGrouping_siblings (levels : list (string * string * string)) :
  ∀ group st, noDuplicateSiblings st →
              noDuplicateSiblings (walkGrouping levels group st).2.
Proof.
  induction levels as [|[[label description] tooltip] rest IH];
    intros group st Hinv; simpl; [done|].
  pose proof (getOrCreateChildSuite_siblings label description tooltip group st Hinv).
  destruct (_getOrCreateChildSuite label description tooltip group st) as [g st1].
  by apply IH.
Qed.

Lemma noDuplicateSiblings_children (st st' : State) :
  children st = children st' → noDuplicateSiblings st → noDuplicateSiblings st'.
Proof. intros E Hinv g. specialize (Hinv g). unfold childrenOf in *. by rewrite <- E. Qed.

Lemma noDuplicateSiblings_sublist (st st' : State) :
  (∀ g, childrenOf st' g `sublist_of` childrenOf st g) →
  noDuplicateSiblings st → noDuplicateSiblings st'.
Proof.
  intros Hsub Hinv g.
  apply (sublist_NoDup _ (siblingKeys (childrenOf st g))); [apply Hinv|].
  apply siblingKeys_sublist, Hsub.
Qed.

Lemma createSubtreeAndAddTest_siblings (r : Runnable) (spec : TestSpec) (st : State) :
  noDuplicateSiblings st →
  noDuplicateSiblings (finalState (_createSubtreeAndAddTest r spec st)).
Proof.
  intros Hinv. unfold _createSubtreeAndAddTest.
  pose proof (walkGrouping_siblings (specGrouping r spec) (_rootSuite r) st Hinv) as H1.
  destruct (walkGrouping (specGrouping r spec) (_rootSuite r) st) as [group st1].
  simpl in H1.
  destruct (findTest (specName spec) (childrenOf st1 group)) as [old|].
  - by destruct (updateTest r spec old (fieldsOf st1 old)) as [[fs changed]|].
  - destruct (createTest r spec group (nextUid st1)) as [[test fs]|]; [|done].
    simpl. intros h.
    change (NoDup (siblingKeys (childrenOf (addTest group test st1) h))).
    unfold addTest. rewrite childrenOf_setChildren.
    destruct (decide (group = h)) as [->|?]; [|apply H1].
    rewrite siblingKeys_app. simpl. rewrite app_nil_r. apply H1.
Qed.

Lemma reloadLoop_siblings (r : Runnable) (cancellationFlag : CancellationFlag)
    (testCases : list TestSpec) :
  ∀ i reloadResult st, noDuplicateSiblings st →
    noDuplicateSiblings
      (finalState (reloadLoop r cancellationFlag testCases i reloadResult st)).
Proof.
  induction testCases as [|spec rest IH]; intros i res st Hinv; simpl; [done|].
  destruct (cancellationFlag (S i)); [done|].
  pose proof (createSubtreeAndAddTest_siblings r spec st Hinv) as H1.
  destruct (_createSubtreeAndAddTest r spec st) as [[t changed] st1|st1]; [|done].
  by apply IH.
Qed.

Lemma removal_siblings (toRemove : list AbstractTest) :
  ∀ st, noDuplicateSiblings st → noDuplicateSiblings (foldl removeTest st toRemove).
Proof.
  induction toRemove as [|t ts IH]; intros st Hinv; simpl; [done|].
  apply IH. eapply noDuplicateSiblings_sublist; [|exact Hinv].
  intros g. rewrite childrenOf_removeTest. apply removeWithLeafAscendants_sublist.
Qed.

Lemma reloadTestsDOC_siblings (r : Runnable) (enumeration : Enumeration)
    (cancellationFlag : CancellationFlag) (lastModiTime : option Z) (st : State) :
  noDuplicateSiblings st →
  noDuplicateSiblings
    (finalState (reloadTestsDOC r enumeration cancellationFlag lastModiTime st)).
Proof.
  intros Hinv. unfold reloadTestsDOC, reloadTests.
  destruct (cancellationFlag 0); [done|].
  destruct (bool_decide _); [|done].
  assert (noDuplicateSiblings
            (finalState (_reloadChildren r enumeration cancellationFlag
                           (setLastReloadTime lastModiTime st)))) as H1.
  { destruct enumeration as [testCases|stdout stderr|]; simpl; [|  |done].
    - unfold _reloadFromString. destruct testCases; [done|].
      by apply reloadLoop_siblings.
    - unfold _createAndAddError.
      pose proof (createSubtreeAndAddTest_siblings r
                    (ErrorCase "⚡️ Unexpected ERROR while parsing"
                               (unexpectedStdErrMessage stdout stderr))
                    (setLastReloadTime lastModiTime st) Hinv) as H.
      by destruct (_createSubtreeAndAddTest _ _ _) as [[t changed] st1|st1]. }
  destruct (_reloadChildren r enumeration cancellationFlag _) as [res st1|st1];
    [|done].
  simpl in H1. destruct (bool_decide _ || _); [|done].
  simpl. by apply removal_siblings.
Qed.

(** C9.  [_getOrCreateChildSuite] returns a child of the group that has the
    requested (label, description).  If a sub-suite of the group matches,
    it is the first such child and nothing changes; otherwise one new suite
    with the requested label, description and tooltip is created, empty,
    and appended to the children of the group, and no other [children]
    array changes.  Asking again gives the same suite and changes nothing.
    A tree in which no suite has two sub-suites with the same
    (label, description) stays so, under [_getOrCreateChildSuite] and under
    a whole reload of the doctest runnable. *)
Theorem getOrCreateChildSuite_idempotent (label description tooltip : string)
    (group : Suite) (st : State) :
  let g := (_getOrCreateChildSuite label description tooltip group st).1 in
  let st1 := (_getOrCreateChildSuite label description tooltip group st).2 in
  suite_label g = label ∧ suite_description g = description ∧
  ISuite g ∈ childrenOf st1 group ∧
  (∀ found, findSuite label description (childrenOf st group) = Some found →
            g = found ∧ st1 = st) ∧
  (findSuite label description (childrenOf st group) = None →
     g = ChildSuite (nextUid st) label description tooltip group ∧
     childrenOf st1 group = childrenOf st group ++ [ISuite g] ∧
     childrenOf st1 g = [] ∧
     ∀ h, h ≠ group → h ≠ g → childrenOf st1 h = childrenOf st h) ∧
  _getOrCreateChildSuite label description tooltip group st1 = (g, st1) ∧
  (noDuplicateSiblings st → noDuplicateSiblings st1) ∧
  (∀ r enumeration cancellationFlag lastModiTime st0,
     noDuplicateSiblings st0 →
     noDuplicateSiblings
       (finalState (reloadTestsDOC r enumeration cancellationFlag lastModiTime st0))).
Proof.
  intros g st1.
  assert (noDuplicateSiblings st → noDuplicateSiblings st1) as Hsib
    by apply getOrCreateChildSuite_siblings.
  pose proof reloadTestsDOC_siblings as Hreload.
  destruct (findSuite label description (childrenOf st group)) as [found|] eqn:Hf.
  - pose proof (getOrCreateChildSuite_found label description tooltip _ _ _ Hf) as E.
    subst g st1. rewrite E in *. simpl.
    destruct (findSuite_Some _ _ _ _ Hf) as (i & Hi & Hc & _).
    apply Suite_compare_true in Hc as [? ?].
    split; [done|]. split; [done|]. split; [by eapply list_elem_of_lookup_2|].
    split; [by intros ? [= <-]|]. split; [done|]. split; [done|]. split; done.
  - pose proof (getOrCreateChildSuite_created label description tooltip _ _ Hf)
      as (Hg & Hgroup & Hnew & Hother & _).
    fold g in Hg. fold st1 in Hgroup, Hnew, Hother. rewrite <- Hg in *.
    assert (suite_label g = label ∧ suite_description g = description) as [Hl Hd]
      by (by rewrite Hg).
    assert (findSuite label description (childrenOf st1 group) = Some g) as Hf1.
    { rewrite Hgroup, findSuite_app, Hf. simpl.
      assert (Suite_compare g label description = true) as ->; [|done].
      by apply Suite_compare_true. }
    split; [done|]. split; [done|].
    split; [rewrite Hgroup; apply elem_of_app; right; left|].
    split; [done|]. split; [done|].
    split; [by apply getOrCreateChildSuite_found|]. split; done.
Qed.

Lemma getOrCreateChildSuite_idempotent_witness :
  (_getOrCreateChildSuite "a.cpp" "" "" Samples.exeSuite Samples.treeState).1
    = Samples.srcSuite ∧
  (_getOrCreateChildSuite "a.cpp" "" "" Samples.exeSuite Samples.treeState).2
    = Samples.treeState.
Proof.
  apply (proj1 (proj2 (proj2 (proj2
           (getOrCreateChildSuite_idempotent "a.cpp" "" "" Samples.exeSuite
                                             Samples.treeState))))).
  vm_compute. reflexivity.
Defined.

End TreeFacts.

Section WellFormedFacts.
Import Tree.

(** [wellFormed] in terms of [childrenOf]. *)
Lemma wellFormed_alt (root : Suite) (st : State) :
  wellFormed root st ↔
  suite_uid root < nextUid st ∧ ∀ g, arrayOk (nextUid st) g (childrenOf st g).
Proof.
  unfold wellFormed, childrenOf. split; intros [Hroot Hall]; (split; [done|]).
  - intros g. destruct (children st !! g) as [l|] eqn:E; simpl.
    + by apply (Hall g l).
    + split; [done|]. split; constructor.
  - intros g l E. specialize (Hall g). by rewrite E in Hall.
Qed.

Lemma wellFormed_item (root : Suite) (st : State) (g : Suite) (x : TestItem) :
  wellFormed root st → x ∈ childrenOf st g →
  itemParent x = Some g ∧ itemUid x < nextUid st.
Proof.
  intros [_ Hwf]%wellFormed_alt Hx. destruct (Hwf g) as (_ & _ & HF).
  rewrite Forall_forall in HF. by apply HF.
Qed.

Lemma wellFormed_fresh (root : Suite) (st : State) (g : Suite) :
  wellFormed root st → nextUid st ≤ suite_uid g → childrenOf st g = [].
Proof.
  intros [_ Hwf]%wellFormed_alt Hge. destruct (Hwf g) as (Hk & _ & _).
  destruct (childrenOf st g); [done|]. exfalso.
  assert (suite_uid g < nextUid st) by (by apply Hk). lia.
Qed.

(** Appending a freshly allocated item to the array of a known suite. *)
Lemma arrayOk_snoc (n : nat) (group : Suite) (l : list TestItem) (x : TestItem) :
  arrayOk n group l → suite_uid group < n →
  itemParent x = Some group → itemUid x = n →
  arrayOk (S n) group (l ++ [x]).
Proof.
  intros (_ & Hnd & HF) Hg Hp Hu.
  split; [lia|]. split.
  - apply NoDup_app. split; [done|]. split; [|apply NoDup_singleton].
    intros y Hy ->%list_elem_of_singleton.
    rewrite Forall_forall in HF. destruct (HF x Hy). lia.
  - apply Forall_app. split.
    + eapply Forall_impl; [exact HF|]. intros y [? ?]. split; [done | lia].
    + apply Forall_singleton. split; [done | lia].
Qed.

Lemma arrayOk_mono (n n' : nat) (g : Suite) (l : list TestItem) :
  n ≤ n' → arrayOk n g l → arrayOk n' g l.
Proof.
  intros Hle (Hg & Hnd & HF). split; [intros ?; specialize (Hg ltac:(done)); lia|].
  split; [done|].
  eapply Forall_impl; [exact HF|]. intros x [? ?]. split; [done | lia].
Qed.

Lemma arrayOk_nil (n : nat) (g : Suite) : arrayOk n g [].
Proof. split; [done|]. split; constructor. Qed.

Lemma extends_refl (st : State) : extends st st.
Proof. by repeat split. Qed.

Lemma extends_trans (st1 st2 st3 : State) :
  extends st1 st2 → extends st2 st3 → extends st1 st3.
Proof.
  intros (Hc1 & Hn1 & Ht1 & Hl1) (Hc2 & Hn2 & Ht2 & Hl2).
  split; [|split; [lia|split; [eauto | congruence]]].
  intros g. etrans; [apply Hc1 | apply Hc2].
Qed.

Lemma getOrCreateChildSuite_wellFormed (root : Suite) (label description tooltip : string)
    (group : Suite) (st : State) :
  wellFormed root st → suite_uid group < nextUid st →
  let g := (_getOrCreateChildSuite label description tooltip group st).1 in
  let st1 := (_getOrCreateChildSuite label description tooltip group st).2 in
  wellFormed root st1 ∧ suite_uid g < nextUid st1 ∧ extends st st1
  ∧ findSuite label description (childrenOf st1 group) = Some g
  ∧ fields st1 = fields st ∧ _tests st1 = _tests st.
Proof.
  intros Hwf Hgroup g st1.
  destruct (findSuite label description (childrenOf st group)) as [found|] eqn:Hf.
  - pose proof (getOrCreateChildSuite_found label description tooltip _ _ _ Hf) as E.
    subst g st1. rewrite E. simpl. split; [done|]. split.
    + destruct (findSuite_Some _ _ _ _ Hf) as (i & Hi & _).
      apply list_elem_of_lookup_2 in Hi.
      by destruct (wellFormed_item root st group _ Hwf Hi).
    + split; [apply extends_refl | done].
  - destruct (getOrCreateChildSuite_created label description tooltip _ _ Hf)
      as (Hg & Hch & Hnew & Hother & Ht & Hfs & Hl & Hn).
    fold g in Hg. fold st1 in Hch, Hnew, Hother, Ht, Hfs, Hl, Hn.
    rewrite <- Hg in *.
    assert (suite_uid g = nextUid st) as Hu by (by rewrite Hg).
    assert (childrenOf st g = []) as Hfresh.
    { apply (wellFormed_fresh root); [done | lia]. }
    assert (g ≠ group) as Hne by (rewrite Hg; apply child_suite_neq_parent).
    split; [|split; [lia|split; [|split]]].
    + apply wellFormed_alt. apply wellFormed_alt in Hwf as [Hroot Hall].
      split; [lia|]. intros h. rewrite Hn.
      destruct (decide (h = group)) as [->|Hhg].
      * rewrite Hch. apply arrayOk_snoc; [done | done | by rewrite Hg | done].
      * destruct (decide (h = g)) as [->|Hhn].
        -- rewrite Hnew. apply arrayOk_nil.
        -- rewrite Hother by done. eapply arrayOk_mono; [|apply Hall]. lia.
    + split; [|split; [lia|split; [by rewrite Ht | done]]].
      intros h. destruct (decide (h = group)) as [->|Hhg].
      * rewrite Hch. by apply prefix_app_r.
      * destruct (decide (h = g)) as [->|Hhn].
        -- rewrite Hfresh. apply prefix_nil.
        -- by rewrite Hother.
    + rewrite Hch, findSuite_app, Hf. simpl.
      assert (Suite_compare g label description = true) as ->; [|done].
      apply Suite_compare_true. by rewrite Hg.
    + done.
Qed.

Lemma findSuite_prefix (label description : string) (l1 l2 : list TestItem)
    (g : Suite) :
  l1 `prefix_of` l2 → findSuite label description l1 = Some g →
  findSuite label description l2 = Some g.
Proof. intros [k ->] H. by rewrite findSuite_app, H. Qed.

Lemma findTest_app (name : string) (l1 l2 : list TestItem) :
  findTest name (l1 ++ l2) =
    match findTest name l1 with
    | Some t => Some t
    | None => findTest name l2
    end.
Proof.
  induction l1 as [|x l1 IH]; simpl; [done|].
  destruct x as [s|t]; [done|]. by destruct (AbstractTest_compare t name).
Qed.

Lemma findTest_prefix (name : string) (l1 l2 : list TestItem) (t : AbstractTest) :
  l1 `prefix_of` l2 → findTest name l1 = Some t → findTest name l2 = Some t.
Proof. intros [k ->] H. by rewrite findTest_app, H. Qed.

Lemma findTest_Some (name : string) (l : list TestItem) (t : AbstractTest) :
  findTest name l = Some t → ITest t ∈ l ∧ AbstractTest_compare t name = true.
Proof.
  induction l as [|x l IH]; simpl; [discriminate|].
  destruct x as [s|t'].
  - intros [? ?]%IH. split; [by right | done].
  - destruct (AbstractTest_compare t' name) eqn:E.
    + intros [= <-]. split; [left | done].
    + intros [? ?]%IH. split; [by right | done].
Qed.

Lemma walkFind_extends (levels : list (string * string * string)) :
  ∀ group st st' g, extends st st' →
    walkFind levels group st = Some g → walkFind levels group st' = Some g.
Proof.
  induction levels as [|[[label description] tooltip] rest IH];
    intros group st st' g Hext; simpl; [done|].
  destruct (findSuite label description (childrenOf st group)) as [g1|] eqn:E;
    [|discriminate].
  intros Hrest. destruct Hext as [Hpre Hother].
  rewrite (findSuite_prefix _ _ _ _ _ (Hpre group) E).
  eapply IH; [|exact Hrest]. by split.
Qed.

Lemma walkFind_walkGrouping (levels : list (string * string * string)) :
  ∀ group st g, walkFind levels group st = Some g →
                walkGrouping levels group st = (g, st).
Proof.
  induction levels as [|[[label description] tooltip] rest IH];
    intros group st g; simpl; [by intros [= ->]|].
  destruct (findSuite label description (childrenOf st group)) as [g1|] eqn:E;
    [|discriminate].
  intros Hrest. rewrite (getOrCreateChildSuite_found _ _ tooltip _ _ _ E).
  by apply IH.
Qed.

Lemma walkGrouping_wellFormed (root : Suite)
    (levels : list (string * string * string)) :
  ∀ group st, wellFormed root st → suite_uid group < nextUid st →
    let g := (walkGrouping levels group st).1 in
    let st1 := (walkGrouping levels group st).2 in
    wellFormed root st1 ∧ suite_uid g < nextUid st1 ∧ extends st st1
    ∧ walkFind levels group st1 = Some g
    ∧ fields st1 = fields st ∧ _tests st1 = _tests st.
Proof.
  induction levels as [|[[label description] tooltip] rest IH];
    intros group st Hwf Hgroup; simpl.
  - split; [done|]. split; [done|]. split; [apply extends_refl | done].
  - pose proof (getOrCreateChildSuite_wellFormed root label description tooltip
                  group st Hwf Hgroup) as (Hwf1 & Hg1 & Hext1 & Hfind1 & Hf1 & Ht1).
    destruct (_getOrCreateChildSuite label description tooltip group st)
      as [g1 st1] eqn:E1. simpl in *.
    destruct (IH g1 st1 Hwf1 Hg1) as (Hwf2 & Hg2 & Hext2 & Hfind2 & Hf2 & Ht2).
    split; [done|]. split; [done|].
    split; [by eapply extends_trans|]. split; [|split; congruence].
    destruct Hext2 as [Hpre _].
    by rewrite (findSuite_prefix _ _ _ _ _ (Hpre group) Hfind1).
Qed.

Lemma walkFind_children (levels : list (string * string * string)) :
  ∀ group st st', children st = children st' →
    walkFind levels group st = walkFind levels group st'.
Proof.
  induction levels as [|[[label description] tooltip] rest IH];
    intros group st st' E; simpl; [done|].
  unfold childrenOf. rewrite E.
  destruct (findSuite _ _ _); [|done]. by apply IH.
Qed.

Lemma updateBase_None (r : Runnable) (label : string) (file : option string)
    (line : option Z) (skipped : bool) (tags : list string)
    (testDescription typeParam valueParam : option string)
    (staticEvent : option StaticTestEventBase) (this : TestFields) :
  _updateBase r label file line skipped tags testDescription typeParam valueParam
              staticEvent this = None ↔ lineThrows line = true.
Proof.
  unfold _updateBase. fold (lineThrows line).
  destruct (lineThrows line); [done|]. split; discriminate.
Qed.

Lemma updateTest_None (r : Runnable) (spec : TestSpec) (old : AbstractTest)
    (this : TestFields) :
  updateTest r spec old this = None ↔ updateThrows spec old = true.
Proof.
  destruct spec as [n f line sk tags|l m]; simpl; [|split; discriminate].
  destruct (test_class old); [apply updateBase_None | done].
Qed.

Lemma createTest_None (r : Runnable) (spec : TestSpec) (group : Suite) (uid : nat) :
  createTest r spec group uid = None ↔ createThrows spec = true.
Proof.
  destruct spec as [n f line sk tags|l m]; simpl.
  - destruct (_updateBase _ _ _ _ _ _ _ _ _ _ _) as [[fs c]|] eqn:E.
    + split; [discriminate|]. intros H.
      apply (updateBase_None r) with (label := docLabel n) (file := f)
        (skipped := sk) (tags := tags) (testDescription := None)
        (typeParam := None) (valueParam := None) (staticEvent := None)
        (this := initialFields) in H. congruence.
    + split; [|done]. intros _. by eapply updateBase_None.
  - split; discriminate.
Qed.

Lemma createTest_Some (r : Runnable) (spec : TestSpec) (group : Suite) (uid : nat)
    (test : AbstractTest) (fs : TestFields) :
  createTest r spec group uid = Some (test, fs) →
  test_uid test = uid ∧ parent test = group
  ∧ AbstractTest_compare test (specName spec) = true
  ∧ updateThrows spec test = false.
Proof.
  intros H. assert (createThrows spec = false) as Hc.
  { destruct (createThrows spec) eqn:E; [|done].
    apply (createTest_None r spec group uid) in E. congruence. }
  destruct spec as [n f line sk tags|l m]; simpl in *.
  - destruct (_updateBase _ _ _ _ _ _ _ _ _ _ _) as [[fs' c]|]; [|discriminate].
    injection H as <- <-. simpl. unfold AbstractTest_compare. simpl.
    by rewrite bool_decide_eq_true_2.
  - injection H as <- <-. simpl. unfold AbstractTest_compare. simpl.
    by rewrite bool_decide_eq_true_2.
Qed.

(** One test case of a reload, from a well-formed tree. *)
Lemma createSubtreeAndAddTest_first (r : Runnable) (spec : TestSpec) (st : State) :
  wellFormed (_rootSuite r) st →
  let out := _createSubtreeAndAddTest r spec st in
  wellFormed (_rootSuite r) (finalState out) ∧ extends st (finalState out) ∧
  match out with
  | Return (t, _) st' => resolves r st' spec t ∧ updateThrows spec t = false
  | Throw st' => throwsIn r st' spec
  end.
Proof.
  intros Hwf out. subst out. unfold _createSubtreeAndAddTest.
  pose proof (walkGrouping_wellFormed (_rootSuite r) (specGrouping r spec)
                (_rootSuite r) st Hwf (proj1 Hwf))
    as (Hwf1 & Hg1 & Hext1 & Hfind1 & Hf1 & Ht1).
  destruct (walkGrouping (specGrouping r spec) (_rootSuite r) st) as [group st1].
  simpl in *.
  destruct (findTest (specName spec) (childrenOf st1 group)) as [old|] eqn:Eold.
  - destruct (updateTest r spec old (fieldsOf st1 old)) as [[fs changed]|] eqn:Eu.
    + simpl. split; [done|]. split.
      * eapply extends_trans; [exact Hext1|]. by repeat split.
      * split.
        -- exists group. split; [|done].
           by rewrite (walkFind_children _ _ _ st1).
        -- destruct (updateThrows spec old) eqn:Et; [|done].
           apply (updateTest_None r spec old (fieldsOf st1 old)) in Et. congruence.
    + simpl. split; [done|]. split; [done|].
      exists group. split; [done|]. rewrite Eold.
      by apply (updateTest_None r spec old (fieldsOf st1 old)).
  - destruct (createTest r spec group (nextUid st1)) as [[test fs]|] eqn:Ec.
    + destruct (createTest_Some _ _ _ _ _ _ Ec) as (Huid & Hpar & Hcmp & Hthr).
      set (st' := mkState _ _ _ _ _).
      assert (∀ h, childrenOf st' h =
                   if decide (group = h) then childrenOf st1 group ++ [ITest test]
                   else childrenOf st1 h) as Hch.
      { intros h. unfold st'. apply (childrenOf_setChildren group h _ st1). }
      assert (extends st1 st') as Hext'.
      { split; [|split; [simpl; lia|split; [|done]]].
        - intros h. rewrite Hch. destruct (decide (group = h)) as [->|?]; [|done].
          by apply prefix_app_r.
        - intros t Ht. unfold st'. simpl. unfold setAdd.
          destruct (decide _); [done|]. apply elem_of_app. by left. }
      simpl. split; [|split; [by eapply extends_trans|split; [|done]]].
      * apply wellFormed_alt. apply wellFormed_alt in Hwf1 as [Hroot Hall].
        split; [simpl; lia|]. intros h. rewrite Hch. simpl.
        destruct (decide (group = h)) as [<-|?].
        -- apply arrayOk_snoc; [done | done | simpl; congruence | done].
        -- eapply arrayOk_mono; [|apply Hall]. lia.
      * exists group. split; [by eapply walkFind_extends|].
        rewrite Hch, decide_True by done.
        by rewrite findTest_app, Eold; simpl; rewrite Hcmp.
    + simpl. split; [done|]. split; [done|].
      exists group. split; [done|]. rewrite Eold.
      by apply (createTest_None r spec group (nextUid st1)).
Qed.



Lemma resolves_extends (r : Runnable) (st st' : State) (spec : TestSpec)
    (t : AbstractTest) :
  extends st st' → resolves r st spec t → resolves r st' spec t.
Proof.
  intros Hext (group & Hwalk & Hfind). exists group.
  split; [by eapply walkFind_extends|].
  destruct Hext as [Hpre _].
  eapply findTest_prefix; [apply Hpre | exact Hfind].
Qed.












Lemma settled_extends (r : Runnable) (st st' : State)
    (done : list (TestSpec * AbstractTest)) :
  extends st st' → settled r st done → settled r st' done.
Proof.
  intros E H. eapply Forall_impl; [exact H|]. intros p [? ?]. split; [|done].
  by eapply resolves_extends.
Qed.



(** *** Fields *)

Lemma existsb_not_in_self (tags : list string) :
  existsb (λ t, bool_decide (indexOf tags t = None)) tags = false.
Proof.
  apply not_true_iff_false. rewrite existsb_exists.
  intros (t & Hin & Hnone). apply bool_decide_eq_true in Hnone.
  apply indexOf_None in Hnone. apply Hnone. by apply list_elem_of_In.
Qed.

(** [_updateBase] with the arguments it was last called with reports no
    change and leaves the fields as they are. *)
Lemma updateBase_again (r : Runnable) (label : string) (file : option string)
    (line : option Z) (skipped : bool) (tags : list string)
    (testDescription typeParam valueParam : option string)
    (staticEvent : option StaticTestEventBase) (this f : TestFields) (c : bool) :
  _updateBase r label file line skipped tags testDescription typeParam valueParam
              staticEvent this = Some (f, c) →
  _updateBase r label file line skipped tags testDescription typeParam valueParam
              staticEvent f = Some (f, false).
Proof.
  unfold _updateBase. destruct (match line with Some _ => _ | None => _ end);
    [discriminate|].
  intros [= <- _]. cbn [_label _file _line _skipped _tags _testDescription
                        _typeParam _valueParam _staticEvent].
  set (tagsChanged := bool_decide (length tags ≠ length (_tags this)) || _).
  assert (bool_decide
            (length tags ≠ length (if tagsChanged then tags else _tags this))
          || existsb (λ t, bool_decide
                             (indexOf (if tagsChanged then tags else _tags this) t = None))
                     tags = false) as ->.
  { destruct tagsChanged eqn:E; [|exact E].
    rewrite bool_decide_eq_false_2 by (intros H; by apply H).
    apply existsb_not_in_self. }
  rewrite !bool_decide_eq_false_2 by (intros H; by apply H).
  done.
Qed.

Lemma updateBase_label (r : Runnable) (label : string) (file : option string)
    (line : option Z) (skipped : bool) (tags : list string)
    (testDescription typeParam valueParam : option string)
    (staticEvent : option StaticTestEventBase) (this f : TestFields) (c : bool) :
  _updateBase r label file line skipped tags testDescription typeParam valueParam
              staticEvent this = Some (f, c) →
  _label f = label ∧ _testDescription f = testDescription
  ∧ _typeParam f = typeParam ∧ _valueParam f = valueParam
  ∧ _staticEvent f = staticEvent.
Proof.
  unfold _updateBase. destruct (match line with Some _ => _ | None => _ end);
    [discriminate|].
  by intros [= <- _].
Qed.

Lemma updateTest_again (r : Runnable) (spec : TestSpec) (t : AbstractTest)
    (this f : TestFields) (c : bool) :
  updateTest r spec t this = Some (f, c) → updateTest r spec t f = Some (f, false).
Proof.
  destruct spec as [n file line sk tags|l m]; simpl; [|by intros [= <- _]].
  destruct (test_class t); [|discriminate].
  intros H. destruct (updateBase_label _ _ _ _ _ _ _ _ _ _ _ _ _ H)
    as (-> & -> & -> & -> & ->).
  by eapply updateBase_again.
Qed.

Lemma createTest_upToDate (r : Runnable) (spec : TestSpec) (group : Suite) (uid : nat)
    (t : AbstractTest) (f : TestFields) :
  createTest r spec group uid = Some (t, f) → updateTest r spec t f = Some (f, false).
Proof.
  destruct spec as [n file line sk tags|l m]; simpl.
  - destruct (_updateBase _ _ _ _ _ _ _ _ _ _ _) as [[fs c]|] eqn:E; [|discriminate].
    intros [= <- <-]. simpl.
    destruct (updateBase_label _ _ _ _ _ _ _ _ _ _ _ _ _ E)
      as (-> & -> & -> & -> & ->).
    by eapply updateBase_again.
  - by intros [= <- <-].
Qed.


(** A test that a test case of a listing resolves to and can update is a
    doctest test of that name. *)
Lemma resolves_named (r : Runnable) (st : State) (spec : TestSpec) (t : AbstractTest) :
  isDocCase spec → resolves r st spec t → updateThrows spec t = false →
  testNameAsId t = specName spec.
Proof.
  intros Hdoc (group & _ & Hfind) Hthr.
  apply findTest_Some in Hfind as [_ Hcmp].
  destruct spec as [n file line sk tags|l m]; [|done]. simpl in *.
  unfold AbstractTest_compare in Hcmp.
  destruct (test_class t); [|discriminate]. by apply bool_decide_eq_true in Hcmp.
Qed.

(** One test case: the test it returns is up to date afterwards, and only
    the fields of that test are written. *)
Lemma createSubtreeAndAddTest_fields (r : Runnable) (spec : TestSpec) (st : State) :
  match _createSubtreeAndAddTest r spec st with
  | Return (t, _) st' =>
      upToDate r st' (spec, t) ∧ ∀ t', t' ≠ t → fields st' !! t' = fields st !! t'
  | Throw st' => fields st' = fields st
  end.
Proof.
  unfold _createSubtreeAndAddTest.
  pose proof (walkGrouping_wellFormed (_rootSuite r) (specGrouping r spec)) as Hw.
  assert (fields (walkGrouping (specGrouping r spec) (_rootSuite r) st).2 = fields st)
    as Hf.
  { clear Hw. generalize (_rootSuite r) as group. revert st.
    induction (specGrouping r spec) as [|[[l d] tt] rest IH]; intros st group;
      simpl; [done|].
    destruct (_getOrCreateChildSuite l d tt group st) as [g1 st1] eqn:E.
    rewrite IH. unfold _getOrCreateChildSuite in E.
    destruct (findSuite l d (childrenOf st group)).
    - by injection E as _ <-.
    - unfold newSuite, addSuite in E. cbv zeta in E. by injection E as _ <-. }
  clear Hw.
  destruct (walkGrouping (specGrouping r spec) (_rootSuite r) st) as [group st1].
  simpl in Hf.
  destruct (findTest (specName spec) (childrenOf st1 group)) as [old|].
  - destruct (updateTest r spec old (fieldsOf st1 old)) as [[fs changed]|] eqn:Eu;
      [|done].
    split.
    + exists fs. simpl. rewrite lookup_insert_eq. split; [done|].
      by eapply updateTest_again.
    + intros t' Hne. simpl. rewrite lookup_insert_ne by done. by rewrite Hf.
  - destruct (createTest r spec group (nextUid st1)) as [[test fs]|] eqn:Ec; [|done].
    split.
    + exists fs. simpl. rewrite lookup_insert_eq. split; [done|].
      by eapply createTest_upToDate.
    + intros t' Hne. simpl. rewrite lookup_insert_ne by done. by rewrite Hf.
Qed.

(** The listing loop writes no fields of a test whose name is not in the
    listing. *)
Lemma reloadLoop_fields (r : Runnable) (cancellationFlag : CancellationFlag)
    (testCases : list TestSpec) (t : AbstractTest) :
  Forall isDocCase testCases → testNameAsId t ∉ (specName <$> testCases) →
  ∀ i reloadResult st, wellFormed (_rootSuite r) st →
    fields (finalState (reloadLoop r cancellationFlag testCases i reloadResult st)) !! t
    = fields st !! t.
Proof.
  induction testCases as [|spec rest IH]; intros Hdoc Hname i res st Hwf; simpl;
    [done|].
  destruct (cancellationFlag (S i)); [done|].
  apply Forall_cons in Hdoc as [Hspec Hdoc].
  rewrite fmap_cons in Hname. apply not_elem_of_cons in Hname as [Hne Hname].
  pose proof (createSubtreeAndAddTest_first r spec st Hwf) as (Hwf1 & _ & Hstep).
  pose proof (createSubtreeAndAddTest_fields r spec st) as Hfs.
  destruct (_createSubtreeAndAddTest r spec st) as [[t' changed] st1|st1];
    simpl in *.
  - destruct Hstep as [Hres Hthr]. destruct Hfs as [_ Hother].
    rewrite IH by done. apply Hother. intros ->.
    apply Hne. by apply (resolves_named r st1).
  - by rewrite Hfs.
Qed.

(** The listing loop from a well-formed tree: its course, and the state it
    leaves, in which the course is settled. *)
Lemma reloadLoop_first (r : Runnable) (cancellationFlag : CancellationFlag)
    (testCases : list TestSpec) :
  ∀ i reloadResult st, wellFormed (_rootSuite r) st →
    let out := reloadLoop r cancellationFlag testCases i reloadResult st in
    wellFormed (_rootSuite r) (finalState out) ∧ extends st (finalState out) ∧
    ∃ done thrown,
      Course cancellationFlag testCases i done thrown ∧
      settled r (finalState out) done ∧
      match thrown with
      | None => ∃ changed,
          out = Return (mkReloadResult (resultTests (tests reloadResult) done) changed)
                       (finalState out)
      | Some spec => out = Throw (finalState out) ∧ throwsIn r (finalState out) spec
      end ∧
      (Forall isDocCase testCases → NoDup (specName <$> testCases) →
       Forall (upToDate r (finalState out)) done).
Proof.
  induction testCases as [|spec rest IH]; intros i res st Hwf; simpl.
  - split; [done|]. split; [apply extends_refl|].
    exists [], None. split; [constructor|]. split; [constructor|].
    split; [|constructor]. exists (changedAny res). by destruct res.
  - destruct (cancellationFlag (S i)) eqn:Eflag.
    + simpl. split; [done|]. split; [apply extends_refl|].
      exists [], None. split; [by constructor|]. split; [constructor|].
      split; [|constructor]. exists (changedAny res). by destruct res.
    + pose proof (createSubtreeAndAddTest_first r spec st Hwf) as (Hwf1 & Hext1 & Hstep).
      pose proof (createSubtreeAndAddTest_fields r spec st) as Hfs.
      destruct (_createSubtreeAndAddTest r spec st) as [[t changed] st1|st1];
        simpl in *.
      * destruct Hstep as [Hres Hthr]. destruct Hfs as [Hup _].
        destruct (IH (S i) (add res t changed) st1 Hwf1)
          as (Hwf2 & Hext2 & done & thrown & Hcourse & Hsettled & Hout & Hfields).
        split; [done|]. split; [by eapply extends_trans|].
        exists ((spec, t) :: done), thrown.
        split; [by constructor|]. split; [|split; [done|]].
        -- constructor; [|done]. split; [|done]. by eapply resolves_extends.
        -- intros [Hspec Hdoc]%Forall_cons Hnd.
           apply NoDup_cons in Hnd as [Hnotin Hnd].
           constructor; [|by apply Hfields].
           destruct Hup as (f & Hf & Hu). exists f. split; [|done]. simpl in *.
           rewrite <- Hf. apply reloadLoop_fields; [done| |done].
           by rewrite (resolves_named r st1 spec t Hspec Hres Hthr).
      * split; [done|]. split; [done|].
        exists [], (Some spec). split; [by constructor|]. split; [constructor|].
        split; [done | constructor].
Qed.



Lemma reloadChildren_loop (r : Runnable) (enumeration : Enumeration)
    (cancellationFlag : CancellationFlag) (st : State) :
  _reloadChildren r enumeration cancellationFlag st =
    match loopOf enumeration cancellationFlag with
    | Some (flag, testCases) => reloadLoop r flag testCases 0 emptyReloadResult st
    | None => Throw st
    end.
Proof.
  destruct enumeration as [testCases|stdout stderr|]; simpl;
    [by destruct testCases| |done].
  unfold _createAndAddError.
  by destruct (_createSubtreeAndAddTest _ _ _) as [[t changed] st1|st1].
Qed.













(** C7.  Take a well-formed tree and a reload of the doctest runnable that
    is neither cancelled at the call nor skipped, and whose enumeration
    returns a result.  A test that the runnable knew before the reload and
    that is not in the result is, after the reload, neither among the tests
    of the runnable nor contained in the tree; and a suite on its route
    that had children before the reload and has none after it is not
    contained in the tree either. *)
Theorem reload_removes_absent_tests (r : Runnable) (enumeration : Enumeration)
    (cancellationFlag : CancellationFlag) (lastModiTime : option Z) (st : State)
    (reloadResult : RunnableReloadResult) (st1 : State) :
  wellFormed (_rootSuite r) st → cancellationFlag 0 = false →
  notSkipped st lastModiTime →
  _reloadChildren r enumeration cancellationFlag (setLastReloadTime lastModiTime st)
  = Return reloadResult st1 →
  let st2 :=
    finalState (reloadTestsDOC r enumeration cancellationFlag lastModiTime st) in
  ∀ t, t ∈ _tests st → t ∉ tests reloadResult →
    (t ∉ _tests st2)
    ∧ ¬ contains st2 (_rootSuite r) (ITest t)
    ∧ ∀ g, g ∈ route t → becameEmpty st st2 g →
           ¬ contains st2 (_rootSuite r) (ISuite g).
Proof.
  intros Hwf Hflag Hns Hrc st2 t Ht Hnot.
  assert (wellFormed (_rootSuite r) st1 ∧ extends (setLastReloadTime lastModiTime st) st1)
    as [Hwf1 Hext].
  { rewrite reloadChildren_loop in Hrc.
    destruct (loopOf enumeration cancellationFlag) as [[flag testCases]|];
      [|discriminate].
    pose proof (reloadLoop_first r flag testCases 0 emptyReloadResult
                  (setLastReloadTime lastModiTime st) Hwf) as (H1 & H2 & _).
    rewrite Hrc in H1, H2. done. }
  destruct Hext as (Hpre & _ & Htests & _).
  set (toRemove := filter (λ t, t ∉ tests reloadResult) (_tests st1)).
  assert (t ∈ toRemove) as Htr.
  { apply list_elem_of_filter. split; [done|]. by apply Htests. }
  assert (st2 = foldl removeTest st1 toRemove) as ->.
  { subst st2. unfold reloadTestsDOC, reloadTests.
    rewrite Hflag, (bool_decide_eq_true_2 _ Hns), Hrc. fold toRemove.
    rewrite (bool_decide_eq_true_2 (0 < length toRemove)); [done|].
    destruct toRemove; [by inversion Htr | simpl; lia]. }
  assert (prunedExcept st1 st1 None) as Hpr0.
  { intros h q _ _ [H1 H2]. congruence. }
  destruct (removal_loop st1 toRemove st1 (wellFormed_noRepeat _ _ Hwf1) Hpr0)
    as (_ & Hpr & Hsub & Hdet & Hts & _).
  assert (coherent (foldl removeTest st1 toRemove)) as Hco.
  { intros g x Hx. apply (wellFormed_coherent _ _ Hwf1).
    eapply elem_of_sublist; [exact Hx | apply Hsub]. }
  split; [|split].
  - rewrite Hts. intros [Hn _]%list_elem_of_filter. by apply Hn.
  - intros Hc. apply (contains_in_parent _ _ _ Hco) in Hc as (g & Hg & Hin).
    simpl in Hg. injection Hg as <-. by apply (Hdet t Htr).
  - intros g _ [Hbefore Hafter] Hc.
    apply (contains_in_parent _ _ _ Hco) in Hc as (p & Hp & Hin).
    apply (Hpr g p); [done | exact Hp | | exact Hin].
    split; [|done]. intros Hempty. apply Hbefore.
    specialize (Hpre g). rewrite Hempty in Hpre. by apply prefix_nil_inv in Hpre.
Qed.

Lemma reload_removes_absent_tests_witness :
  wellFormed Samples.root Samples.treeState
  ∧ (Samples.testC ∉ _tests Samples.reloadedAB)
  ∧ ¬ contains Samples.reloadedAB Samples.root (ITest Samples.testC)
  ∧ ¬ contains Samples.reloadedAB Samples.root (ISuite Samples.otherSuite).
Proof.
  assert (wellFormed Samples.root Samples.treeState) as Hwf.
  { apply (bool_decide_unpack _). vm_compute. exact I. }
  split; [exact Hwf|].
  assert (notSkipped Samples.treeState (Some 200%Z)) as Hns
    by (right; right; discriminate).
  assert (tests <$> returned
            (_reloadChildren Samples.runnable Samples.listingAB Samples.neverCancelled
               (setLastReloadTime (Some 200%Z) Samples.treeState))
          = Some [Samples.testA; Samples.testB]) as Hres
    by (vm_compute; reflexivity).
  destruct (_reloadChildren Samples.runnable Samples.listingAB Samples.neverCancelled
              (setLastReloadTime (Some 200%Z) Samples.treeState))
    as [reloadResult st1|st1] eqn:Hrc; [|discriminate].
  injection Hres as Htests.
  destruct (reload_removes_absent_tests Samples.runnable Samples.listingAB
              Samples.neverCancelled (Some 200%Z) Samples.treeState reloadResult st1
              Hwf eq_refl Hns Hrc Samples.testC) as (H1 & H2 & H3).
  - apply list_elem_of_In. simpl. tauto.
  - rewrite Htests. intros H. apply list_elem_of_In in H. simpl in H.
    destruct H as [H|[H|[]]]; discriminate.
  - split; [exact H1|]. split; [exact H2|].
    apply (H3 Samples.otherSuite).
    + left.
    + split; [vm_compute; discriminate | vm_compute; reflexivity].
Defined.

End WellFormedFacts.

(** ** More on batching and buckets *)

Section BatchingShape.
Import Batching.

(** Once [charCount] has reached the limit it stays there, and every
    further test opens a subset of its own. *)
Lemma splitLoop_closed (tests : list AbstractTest) :
  ∀ closed lastSet charCount, (limit ≤ charCount)%Z →
    splitLoop tests closed lastSet charCount
    = closed ++ [lastSet] ++ ((λ t, [t]) <$> tests).
Proof.
  induction tests as [|t tests IH]; intros closed lastSet c Hc; simpl; [done|].
  pose proof (idLength_nonneg t).
  destruct (decide _) as [_|?]; [|lia].
  rewrite IH by lia. by rewrite <- app_assoc.
Qed.

Lemma cumulativeLength_cons (t : AbstractTest) (b : list AbstractTest) :
  cumulativeLength (t :: b) = (idLength t + cumulativeLength b)%Z.
Proof. done. Qed.

Lemma splitLoop_open (tests : list AbstractTest) :
  ∀ closed lastSet charCount, (charCount < limit)%Z →
    ∃ first rest,
      tests = first ++ rest
      ∧ splitLoop tests closed lastSet charCount
        = closed ++ [lastSet ++ first] ++ ((λ t, [t]) <$> rest)
      ∧ (charCount + cumulativeLength first < limit)%Z
      ∧ (∀ t rest', rest = t :: rest' →
           (limit ≤ charCount + cumulativeLength first + idLength t)%Z).
Proof.
  induction tests as [|t tests IH]; intros closed lastSet c Hc; simpl.
  - exists [], []. change (cumulativeLength []) with 0%Z.
    split; [done|]. split; [by rewrite app_nil_r|]. split; [lia | done].
  - destruct (decide _) as [Hge|Hlt].
    + exists [], (t :: tests). change (cumulativeLength []) with 0%Z.
      split; [done|]. split.
      * rewrite splitLoop_closed, app_nil_r by done. by rewrite <- app_assoc.
      * split; [lia|]. intros ? ? [= <- <-]. lia.
    + destruct (IH closed (lastSet ++ [t]) (c + idLength t)%Z ltac:(lia))
        as (first & rest & -> & -> & Hsum & Hnext).
      exists (t :: first), rest. rewrite <- app_assoc, cumulativeLength_cons.
      split; [done|]. split; [done|]. split; [lia|].
      intros t' rest' E. specialize (Hnext t' rest' E). lia.
Qed.

(** [_splitTestsToSmallEnoughSubsets] cuts the list once: the first subset
    is the longest prefix whose identities stay below the limit together
    (it is empty when the first identity alone reaches the limit), and
    every test after it is a subset of its own, because [charCount] is
    never reset. *)
Theorem splitTestsToSmallEnoughSubsets_later_singletons (tests : list AbstractTest) :
  ∃ first rest,
    tests = first ++ rest
    ∧ _splitTestsToSmallEnoughSubsets tests = first :: ((λ t, [t]) <$> rest)
    ∧ (cumulativeLength first < limit)%Z
    ∧ (∀ t rest', rest = t :: rest' →
         (limit ≤ cumulativeLength first + idLength t)%Z).
Proof.
  destruct (splitLoop_open tests [] [] 0%Z) as (first & rest & E & Hs & Hsum & Hnext);
    [unfold limit; lia|].
  exists first, rest. unfold _splitTestsToSmallEnoughSubsets.
  rewrite Hs. simpl. split; [done|]. split; [done|]. split; [lia|].
  intros t rest' Er. specialize (Hnext t rest' Er). lia.
Qed.

End BatchingShape.

Section MultirunBalance.
Import Multirun.

Lemma dealt_step (k i j : nat) :
  0 < k → j < k →
  dealt k (S i) j = dealt k i j + (if decide (j = i `mod` k) then 1 else 0).
Proof.
  intros Hk Hj. unfold dealt.
  pose proof (Nat.div_mod_eq i k) as Hi.
  pose proof (Nat.mod_upper_bound i k ltac:(lia)) as Hr.
  set (q := i `div` k) in *. set (r := i `mod` k) in *.
  destruct (decide (S r < k)) as [Hlt|Hge].
  - assert (S i `div` k = q ∧ S i `mod` k = S r) as [-> ->].
    { assert (S i = q * k + S r) as E by lia.
      rewrite E. split.
      - rewrite Nat.div_add_l by lia. rewrite Nat.div_small by lia. lia.
      - rewrite Nat.add_comm, Nat.Div0.mod_add. by apply Nat.mod_small. }
    repeat destruct (decide _); lia.
  - assert (S i `div` k = S q ∧ S i `mod` k = 0) as [-> ->].
    { assert (S i = S q * k + 0) as E by lia.
      rewrite E. split.
      - rewrite Nat.div_add_l by lia. rewrite Nat.div_small by lia. lia.
      - rewrite Nat.add_comm, Nat.Div0.mod_add. by apply Nat.mod_small. }
    repeat destruct (decide _); lia.
Qed.

Lemma pushAt_lookup_length (j i : nat) (t : AbstractTest) (bs : list (list AbstractTest))
    (b : list AbstractTest) :
  pushAt i t bs !! j = Some b →
  ∃ b0, bs !! j = Some b0 ∧ length b = length b0 + (if decide (j = i) then 1 else 0).
Proof.
  unfold pushAt. intros H. destruct (decide (j = i)) as [->|Hne].
  - rewrite list_lookup_alter_eq in H.
    destruct (bs !! i) as [b0|]; [|discriminate]. injection H as <-.
    exists b0. split; [done|]. rewrite length_app. simpl. lia.
  - rewrite list_lookup_alter_ne in H by done. exists b. split; [done | lia].
Qed.

Lemma distribute_sizes (tests : list AbstractTest) :
  ∀ i bs, 0 < length bs →
    (∀ j b, bs !! j = Some b → length b = dealt (length bs) i j) →
    ∀ j b, distribute tests i bs !! j = Some b →
           length b = dealt (length bs) (i + length tests) j.
Proof.
  induction tests as [|t tests IH]; intros i bs Hk Hinv j b Hb; simpl in *.
  - rewrite Nat.add_0_r. by apply Hinv.
  - replace (i + S (length tests)) with (S i + length tests) by lia.
    rewrite <- (pushAt_length (i `mod` length bs) t bs).
    apply (IH (S i) (pushAt (i `mod` length bs) t bs)); [by rewrite pushAt_length| |done].
    intros j' b' Hb'. rewrite pushAt_length.
    destruct (pushAt_lookup_length _ _ _ _ _ Hb') as (b0 & Hb0 & Hlen).
    rewrite Hlen, (Hinv j' b0 Hb0).
    apply lookup_lt_Some in Hb0.
    by rewrite dealt_step.
Qed.

Lemma dealt_bounds (k n j : nat) :
  0 < k → n `div` k ≤ dealt k n j ≤ n `div` k + 1.
Proof. intros Hk. unfold dealt. destruct (decide _); lia. Qed.

Lemma dealt_pos (k n j : nat) : 0 < k → k ≤ n → 0 < dealt k n j.
Proof.
  intros Hk Hkn. pose proof (dealt_bounds k n j Hk).
  assert (1 ≤ n `div` k); [|lia].
  apply Nat.div_le_lower_bound; lia.
Qed.

(** With a parallelization limit above 1 and a selection that is not
    empty, [_splitTestSetForMultirunIfEnabled] leaves no bucket empty, and
    the sizes of two buckets differ by one test at most; bucket [j] holds
    [n / k] tests, one more if [j < n mod k], for [n] tests and [k]
    buckets. *)
Theorem splitTestSetForMultirun_balanced
    (parallelizationLimit testsSize : nat) (tests : list AbstractTest) :
  1 < parallelizationLimit → tests ≠ [] →
  let buckets :=
    _splitTestSetForMultirunIfEnabled parallelizationLimit testsSize tests in
  0 < length buckets ≤ length tests
  ∧ (∀ j b, buckets !! j = Some b →
            length b = dealt (length buckets) (length tests) j ∧ b ≠ [])
  ∧ (∀ a b, a ∈ buckets → b ∈ buckets → length a ≤ length b + 1).
Proof.
  intros Hlim Hne buckets. subst buckets.
  unfold _splitTestSetForMultirunIfEnabled. destruct (decide _) as [_|?]; [|done].
  set (k := targetTaskCount testsSize parallelizationLimit (length tests)).
  assert (0 < length tests) as Hn by (destruct tests; [done | simpl; lia]).
  assert (0 < k ≤ length tests) as Hk by (unfold k, targetTaskCount; lia).
  rewrite distribute_length, length_replicate.
  assert (∀ j b, distribute tests 0 (replicate k []) !! j = Some b →
                 length b = dealt k (length tests) j) as Hsize.
  { intros j b Hb.
    pose proof (distribute_sizes tests 0 (replicate k [])) as H.
    rewrite length_replicate in H. apply H; [lia| |done].
    intros j' b' [-> Hj']%lookup_replicate. simpl. unfold dealt.
    rewrite Nat.Div0.div_0_l, Nat.Div0.mod_0_l.
    destruct (decide _); lia. }
  split; [done|]. split.
  - intros j b Hb. split; [by apply Hsize|].
    pose proof (Hsize j b Hb) as E.
    pose proof (dealt_pos k (length tests) j ltac:(lia) ltac:(lia)).
    intros ->. simpl in E. lia.
  - intros a b [i Hi]%list_elem_of_lookup_1 [j Hj]%list_elem_of_lookup_1.
    rewrite (Hsize i a Hi), (Hsize j b Hj).
    pose proof (dealt_bounds k (length tests) i ltac:(lia)).
    pose proof (dealt_bounds k (length tests) j ltac:(lia)). lia.
Qed.

Lemma splitTestSetForMultirun_balanced_witness :
  0 < length (_splitTestSetForMultirunIfEnabled 2 3
                [Samples.testA; Samples.testB; Samples.testC])
  ≤ length [Samples.testA; Samples.testB; Samples.testC].
Proof.
  apply (splitTestSetForMultirun_balanced 2 3
           [Samples.testA; Samples.testB; Samples.testC]); [lia | done].
Defined.

End MultirunBalance.

(** ** [removeTests] *)

Section RemoveTestsFacts.
Import Tree.

Lemma elem_of_delete_other {A} (l : list A) (i : nat) (x y : A) :
  x ∈ l → l !! i = Some y → x ≠ y → x ∈ delete i l.
Proof.
  intros [j Hj]%list_elem_of_lookup_1 Hi Hne.
  assert (j ≠ i) by (intros ->; congruence).
  destruct (decide (j < i)) as [Hlt|Hge].
  - apply (list_elem_of_lookup_2 _ j). by rewrite list_lookup_delete_lt.
  - apply (list_elem_of_lookup_2 _ (pred j)).
    rewrite list_lookup_delete_ge by lia.
    by replace (S (pred j)) with j by lia.
Qed.

Lemma sublist_nil_of_nil {A} (l : list A) : l `sublist_of` [] → l = [].
Proof. intros H. by apply sublist_nil_r. Qed.

Lemma removeIfLeaf_keeps (h : Suite) :
  ∀ st x p, x ∈ childrenOf st p → survives (removeIfLeaf h st) [] x →
            x ∈ childrenOf (removeIfLeaf h st) p.
Proof.
  induction h as [u|u l d t ph IH]; intros st x p Hx Hs; simpl in *; [done|].
  set (h := ChildSuite u l d t ph) in *.
  destruct (childrenOf st h) as [|y ys] eqn:Eh; [|done].
  destruct (indexOf (childrenOf st ph) (ISuite h)) as [i|] eqn:Ei; [|done].
  apply IH; [|done].
  rewrite childrenOf_setChildren. destruct (decide (ph = p)) as [<-|?]; [|done].
  apply indexOf_lookup in Ei as [Hi _].
  apply (elem_of_delete_other _ _ _ (ISuite h)); [done | done |].
  intros ->. simpl in Hs. apply Hs. apply sublist_nil_of_nil.
  rewrite <- Eh. etrans; [apply removeIfLeaf_sublist|].
  rewrite childrenOf_setChildren.
  destruct (decide (ph = h)) as [E|?]; [|done].
  rewrite <- E. apply sublist_delete.
Qed.

Lemma removeWithLeafAscendants_keeps (t : AbstractTest) (st : State) (x : TestItem)
    (p : Suite) :
  x ∈ childrenOf st p → survives (removeWithLeafAscendants t st) [t] x →
  x ∈ childrenOf (removeWithLeafAscendants t st) p.
Proof.
  unfold removeWithLeafAscendants.
  destruct (indexOf _ _) as [i|] eqn:Ei; [|done].
  intros Hx Hs. apply removeIfLeaf_keeps.
  - rewrite childrenOf_setChildren. destruct (decide (parent t = p)) as [<-|?]; [|done].
    apply indexOf_lookup in Ei as [Hi _].
    apply (elem_of_delete_other _ _ _ (ITest t)); [done | done |].
    intros ->. simpl in Hs. apply Hs. left.
  - destruct x; simpl in *; [done | apply not_elem_of_nil].
Qed.

(** The loop of [removeTests] over the tests [gone]. *)
Lemma removeAll_loop (st0 : State) (gone : list AbstractTest) :
  ∀ st, noRepeat st → prunedExcept st0 st None →
    let st' := foldl (λ s t, removeWithLeafAscendants t s) st gone in
    noRepeat st' ∧ prunedExcept st0 st' None
    ∧ (∀ h, childrenOf st' h `sublist_of` childrenOf st h)
    ∧ (∀ t, t ∈ gone → ITest t ∉ childrenOf st' (parent t))
    ∧ (∀ x p, x ∈ childrenOf st p → survives st' gone x → x ∈ childrenOf st' p)
    ∧ fields st' = fields st ∧ nextUid st' = nextUid st
    ∧ _lastReloadTime st' = _lastReloadTime st.
Proof.
  induction gone as [|t ts IH]; intros st Hnd Hpr; simpl.
  - split; [done|]. split; [done|]. split; [done|].
    split; [intros t Ht; inversion Ht|]. done.
  - destruct (removeWithLeafAscendants_rest t st) as (_ & Hf & Hn & Hl).
    assert (noRepeat (removeWithLeafAscendants t st)) as Hnd1.
    { intros h. apply (sublist_NoDup _ (childrenOf st h)); [apply Hnd|].
      apply removeWithLeafAscendants_sublist. }
    pose proof (removeWithLeafAscendants_pruned st0 t st Hnd Hpr) as Hpr1.
    destruct (IH (removeWithLeafAscendants t st) Hnd1 Hpr1)
      as (Hnd' & Hpr' & Hsub & Hdet & Hkeep & Hfields & Hnext & Hlast).
    split; [done|]. split; [done|]. split; [|split; [|split]].
    + intros h. etrans; [apply Hsub|]. apply removeWithLeafAscendants_sublist.
    + intros t' [->|Hin]%elem_of_cons; [|by apply Hdet].
      intros Hin. eapply elem_of_sublist in Hin; [|apply Hsub].
      by apply (removeWithLeafAscendants_detached t st Hnd).
    + intros x p Hx Hs. apply Hkeep.
      * apply removeWithLeafAscendants_keeps; [done|].
        destruct x as [g|t']; simpl in *.
        -- intros Hempty. apply Hs. apply sublist_nil_of_nil.
           rewrite <- Hempty. apply Hsub.
        -- intros ->%list_elem_of_singleton. apply Hs. left.
      * destruct x as [g|t']; simpl in *; [done|].
        intros Hin. apply Hs. by right.
    + by rewrite Hfields, Hnext, Hlast, Hf, Hn, Hl.
Qed.

Lemma contains_survives (root : Suite) (st st' : State) (gone : list AbstractTest) :
  (∀ x p, x ∈ childrenOf st p → survives st' gone x → x ∈ childrenOf st' p) →
  ∀ x, contains st root x → survives st' gone x → contains st' root x.
Proof.
  intros Hkeep x Hc. induction Hc as [x Hx|g x Hg IH Hx]; intros Hs.
  - apply contains_child. by apply Hkeep.
  - pose proof (Hkeep x g Hx Hs) as Hx'.
    apply (contains_below _ _ g); [|done].
    apply IH. simpl. intros E. rewrite E in Hx'. by inversion Hx'.
Qed.

(** [removeTests] on a well-formed tree: the runnable knows no test
    afterwards; none of the tests it knew is in the tree any more; a suite
    that lost its last child this way is out of the tree too; and a test
    the runnable did not know, of another runnable say, stays in the
    tree. *)
Theorem removeTests_only_own (root : Suite) (st : State) :
  wellFormed root st →
  let st' := removeTests st in
  _tests st' = []
  ∧ (∀ t, t ∈ _tests st → ¬ contains st' root (ITest t))
  ∧ (∀ g, becameEmpty st st' g → ¬ contains st' root (ISuite g))
  ∧ (∀ t, t ∉ _tests st → contains st root (ITest t) → contains st' root (ITest t)).
Proof.
  intros Hwf st'.
  assert (prunedExcept st st None) as Hpr0.
  { intros h q _ _ [H1 H2]. congruence. }
  destruct (removeAll_loop st (_tests st) st (wellFormed_noRepeat _ _ Hwf) Hpr0)
    as (_ & Hpr & Hsub & Hdet & Hkeep & _).
  set (st1 := foldl (λ s t, removeWithLeafAscendants t s) st (_tests st)) in *.
  assert (∀ h, childrenOf st' h = childrenOf st1 h) as Hsame by done.
  assert (coherent st') as Hco.
  { intros g x Hx. apply (wellFormed_coherent _ _ Hwf).
    rewrite Hsame in Hx. eapply elem_of_sublist; [exact Hx | apply Hsub]. }
  split; [done|]. split; [|split].
  - intros t Ht Hc. apply (contains_in_parent _ _ _ Hco) in Hc as (g & Hg & Hin).
    simpl in Hg. injection Hg as <-. rewrite Hsame in Hin. by apply (Hdet t Ht).
  - intros g [Hbefore Hafter] Hc.
    apply (contains_in_parent _ _ _ Hco) in Hc as (p & Hp & Hin).
    rewrite Hsame in Hin, Hafter.
    by apply (Hpr g p).
  - intros t Ht Hc.
    apply (contains_survives root st st' (_tests st)); [|done|done].
    intros x p Hx Hs. rewrite Hsame. apply Hkeep; [done|].
    destruct x; simpl in *; [by rewrite <- Hsame | done].
Qed.

Lemma removeTests_only_own_witness :
  wellFormed Samples.root Samples.flatState ∧
  _tests (removeTests Samples.flatState) = [].
Proof.
  assert (wellFormed Samples.root Samples.flatState) as Hwf.
  { apply (bool_decide_unpack _). vm_compute. exact I. }
  split; [exact Hwf|].
  exact (proj1 (removeTests_only_own Samples.root Samples.flatState Hwf)).
Defined.

End RemoveTestsFacts.

(** ** [_updateBase] called again *)

Section UpdateFacts.
Import Tree.

Lemma updateBase_written (r : Runnable) (label : string) (file : option string)
    (line : option Z) (skipped : bool) (tags : list string)
    (testDescription typeParam valueParam : option string)
    (staticEvent : option StaticTestEventBase) (this f : TestFields) (c : bool) :
  _updateBase r label file line skipped tags testDescription typeParam valueParam
              staticEvent this = Some (f, c) →
  lineThrows line = false
  ∧ f = {| _label := label;
           _file := match file with
                    | Some p => if decide (p = ""%string) then None
                                else Some (normalize r p)
                    | None => None
                    end;
           _line := line; _skipped := skipped; _tags := _tags f;
           _testDescription := testDescription; _typeParam := typeParam;
           _valueParam := valueParam; _staticEvent := staticEvent |}.
Proof.
  unfold _updateBase. fold (lineThrows line).
  destruct (lineThrows line); [discriminate|]. by intros [= <- _].
Qed.

(** [_updateBase] once more, with the arguments of a call that returned:
    no change is reported and the fields stay.  The same holds when only
    the tag list differs, as long as it has as many tags as the stored
    list and each of them occurs there: the stored tags are kept. *)
Theorem updateBase_repeat (r : Runnable) (label : string) (file : option string)
    (line : option Z) (skipped : bool) (tags : list string)
    (testDescription typeParam valueParam : option string)
    (staticEvent : option StaticTestEventBase) (this f : TestFields) (c : bool) :
  _updateBase r label file line skipped tags testDescription typeParam valueParam
              staticEvent this = Some (f, c) →
  _updateBase r label file line skipped tags testDescription typeParam valueParam
              staticEvent f = Some (f, false)
  ∧ ∀ tags', length tags' = length (_tags f) → (∀ t, t ∈ tags' → t ∈ _tags f) →
      _updateBase r label file line skipped tags' testDescription typeParam
                  valueParam staticEvent f = Some (f, false).
Proof.
  intros H. split; [by eapply updateBase_again|].
  intros tags' Hlen Hsub.
  destruct (updateBase_written _ _ _ _ _ _ _ _ _ _ _ _ _ H) as [Hline Hf].
  unfold _updateBase. fold (lineThrows line). rewrite Hline.
  assert (bool_decide (length tags' ≠ length (_tags f))
          || existsb (λ t, bool_decide (indexOf (_tags f) t = None)) tags' = false)
    as Htags.
  { rewrite bool_decide_eq_false_2 by (intros Hne; by apply Hne).
    rewrite orb_false_l.
    apply not_true_iff_false. rewrite existsb_exists.
    intros (t & Hin & Hnone). apply bool_decide_eq_true in Hnone.
    apply indexOf_None in Hnone. apply Hnone, Hsub. by apply list_elem_of_In. }
  rewrite Htags. clear Htags H Hsub Hlen.
  destruct f as [fl ff fln fsk ftg ftd ftp fvp fse].
  cbn [_label _file _line _skipped _tags _testDescription _typeParam _valueParam
       _staticEvent] in *.
  injection Hf as -> -> -> -> -> -> -> ->.
  rewrite !bool_decide_eq_false_2 by (intros Hne; by apply Hne).
  done.
Qed.

Lemma updateBase_repeat_witness :
  _updateBase Samples.runnable "T" None None false ["a"; "a"]%string None None None None
    {| _label := "T"; _file := None; _line := None; _skipped := false;
       _tags := ["a"; "b"]%string; _testDescription := None; _typeParam := None;
       _valueParam := None; _staticEvent := None |}
  = Some ({| _label := "T"; _file := None; _line := None; _skipped := false;
             _tags := ["a"; "b"]%string; _testDescription := None;
             _typeParam := None; _valueParam := None; _staticEvent := None |},
          false).
Proof.
  refine (proj2 (updateBase_repeat Samples.runnable "T" None None false
                   ["a"; "b"]%string None None None None initialFields _ true _)
                ["a"; "a"]%string _ _).
  - reflexivity.
  - reflexivity.
  - intros t Ht. apply elem_of_cons in Ht as [->|Ht]; [left|].
    apply elem_of_cons in Ht as [->|Ht]; [left | inversion Ht].
Defined.

End UpdateFacts.

(** ** More on [run] and [runTasks] *)

Section RunMore.
Import Tree Streaming Run Batching.

Lemma spawned_foldl (logs : list RunLog) :
  ∀ a, spawned (foldl appendLog a logs) = spawned a ++ concat (spawned <$> logs).
Proof.
  induction logs as [|l logs IH]; intros a; simpl; [by rewrite app_nil_r|].
  rewrite IH. simpl. by rewrite <- app_assoc.
Qed.

(** The tests of a sub-batch that go to a process, as a list of at most
    one list. *)
Lemma runInner_fulfilled (st : State) (runProcess : list AbstractTest → ProcessEnd)
    (childrenToRun : list AbstractTest) :
  (∀ l, runProcess l = Fulfilled) →
  (_runInner st false runProcess childrenToRun).2 = false
  ∧ spawned (_runInner st false runProcess childrenToRun).1 =
      match filter (λ t, (getStaticEvent st t).2 = false) childrenToRun with
      | [] => []
      | p => [p]
      end.
Proof.
  intros Hok. unfold _runInner.
  destruct (filter _ childrenToRun) as [|t p] eqn:E;
    [by rewrite decide_True by done|].
  rewrite decide_False by done. by rewrite Hok.
Qed.

Lemma runSubsets_fulfilled (st : State) (runProcess : list AbstractTest → ProcessEnd)
    (subsets : list (list AbstractTest)) :
  (∀ l, runProcess l = Fulfilled) →
  (runSubsets st false runProcess subsets).2 = false
  ∧ spawned (runSubsets st false runProcess subsets).1 =
      concat ((λ b, match filter (λ t, (getStaticEvent st t).2 = false) b with
                    | [] => []
                    | p => [p]
                    end) <$> subsets).
Proof.
  intros Hok. induction subsets as [|b subsets [IH1 IH2]]; [done|].
  cbn [runSubsets]. destruct (runInner_fulfilled st runProcess b Hok) as [H1 H2].
  destruct (_runInner st false runProcess b) as [log rejected].
  simpl in H1, H2. subst rejected.
  destruct (runSubsets st false runProcess subsets) as [log' rejected'].
  simpl in IH1, IH2. subst rejected'. split; [done|].
  rewrite fmap_cons. cbn [concat]. simpl. by rewrite H2, IH2.
Qed.

Lemma subsets_spawned (st : State) (runProcess : list AbstractTest → ProcessEnd)
    (subsets : list (list AbstractTest)) :
  (∀ l, runProcess l = Fulfilled) →
  concat (spawned (runSubsets st false runProcess subsets).1)
  = filter (λ t, (getStaticEvent st t).2 = false) (concat subsets).
Proof.
  intros Hok. destruct (runSubsets_fulfilled st runProcess subsets Hok) as [_ ->].
  induction subsets as [|b subsets IH]; [done|].
  rewrite !fmap_cons. cbn [concat]. rewrite concat_app, filter_app, IH. f_equal.
  destruct (filter _ b); simpl; [done | by rewrite app_nil_r].
Qed.

Lemma buckets_spawned (st : State) (runProcess : list AbstractTest → ProcessEnd)
    (buckets : list (list AbstractTest)) :
  (∀ l, runProcess l = Fulfilled) →
  let ends := (λ bucket, runSubsets st false runProcess
                           (_splitTestsToSmallEnoughSubsets bucket)) <$> buckets in
  existsb snd ends = false
  ∧ concat (spawned (foldl appendLog (mkRunLog [] []) (fst <$> ends)))
    = filter (λ t, (getStaticEvent st t).2 = false) (concat buckets).
Proof.
  intros Hok ends. subst ends. rewrite spawned_foldl. simpl.
  induction buckets as [|b buckets [IH1 IH2]]; [done|].
  rewrite !fmap_cons. cbn [concat existsb].
  destruct (runSubsets_fulfilled st runProcess (_splitTestsToSmallEnoughSubsets b) Hok)
    as [-> _].
  split; [exact IH1|].
  rewrite concat_app, filter_app, IH2. f_equal.
  rewrite subsets_spawned by done. unfold _splitTestsToSmallEnoughSubsets.
  by rewrite splitLoop_concat.
Qed.

Lemma multirun_concat (parallelizationLimit testsSize : nat) (tests : list AbstractTest) :
  concat (Multirun._splitTestSetForMultirunIfEnabled parallelizationLimit testsSize tests)
  ≡ₚ tests.
Proof.
  unfold Multirun._splitTestSetForMultirunIfEnabled.
  destruct (decide _) as [_|_]; [|simpl; by rewrite app_nil_r].
  destruct tests as [|t tests];
    [cbn [Multirun.distribute]; by rewrite concat_replicate_nil|].
  rewrite distribute_concat.
  - by rewrite concat_replicate_nil.
  - rewrite length_replicate. unfold Multirun.targetTaskCount. cbn [length]. lia.
Qed.

Lemma cumulativeLength_filter (P : AbstractTest → Prop) `{∀ t, Decision (P t)}
    (b : list AbstractTest) :
  (cumulativeLength (filter P b) ≤ cumulativeLength b)%Z.
Proof.
  induction b as [|t b IH]; [done|].
  pose proof (idLength_nonneg t).
  destruct (decide (P t)).
  - rewrite filter_cons_True by done. rewrite !cumulativeLength_cons. lia.
  - rewrite filter_cons_False by done. rewrite cumulativeLength_cons. lia.
Qed.

Lemma spawned_subsets_elem (st : State) (runProcess : list AbstractTest → ProcessEnd)
    (subsets : list (list AbstractTest)) (p : list AbstractTest) :
  (∀ l, runProcess l = Fulfilled) →
  p ∈ spawned (runSubsets st false runProcess subsets).1 →
  p ≠ [] ∧ ∃ b, b ∈ subsets ∧ p = filter (λ t, (getStaticEvent st t).2 = false) b.
Proof.
  intros Hok. destruct (runSubsets_fulfilled st runProcess subsets Hok) as [_ ->].
  induction subsets as [|b subsets IH]; [by inversion 1|].
  rewrite !fmap_cons. cbn [concat].
  rewrite elem_of_app. intros [Hp|Hp].
  - destruct (filter _ b) as [|t q] eqn:E; [by inversion Hp|].
    apply list_elem_of_singleton in Hp as ->. split; [done|].
    exists b. split; [left | done].
  - destruct (IH Hp) as (Hne & b' & Hb' & ->). split; [done|].
    exists b'. split; [by right | done].
Qed.

(** After [beforeEach] tasks that went through, [run] reloads the tests;
    the call is not inside a [try].  When the reload throws, the promise of
    [run] is rejected and nothing else is done: nothing is reported and no
    process is spawned.  When it returns, the run is not cancelled and
    every process ends well: the tests handed to the processes spawned
    are, taken together, the selected tests without a static event, each
    as often as it was selected; no process is spawned for nothing; the
    identities of the tests of one process stay below the limit together,
    unless it is a single test; and the promise of [run] is fulfilled. *)
Theorem run_each_test_once (c : RunConfig) (st : State) :
  runTasks (executeTask c) "beforeEach" (beforeEach c) = None →
  cancelled c = false →
  match reload c st with
  | Throw st1 => run c st = (mkRunLog [] [], st1, true)
  | Return _ st1 =>
      (∀ l, runProcess c l = Fulfilled) →
      (run c st).2 = false
      ∧ (run c st).1.2 = st1
      ∧ concat (spawned (run c st).1.1)
        ≡ₚ filter (λ t, (getStaticEvent st1 t).2 = false) (collectChildrenToRun c st1)
      ∧ ∀ p, p ∈ spawned (run c st).1.1 →
             p ≠ [] ∧ ((cumulativeLength p < limit)%Z ∨ ∃ t, p = [t])
  end.
Proof.
  intros Hbefore Hcancel. unfold run. rewrite Hbefore.
  destruct (reload c st) as [[] st1|st1]; [|done]. intros Hok.
  destruct (decide (collectChildrenToRun c st1 = [])) as [E|Hne].
  { simpl. rewrite E. split; [done|]. split; [done|]. split; [done|]. by inversion 1. }
  set (buckets := Multirun._splitTestSetForMultirunIfEnabled _ _ _).
  rewrite Hcancel.
  destruct (buckets_spawned st1 (runProcess c) buckets Hok) as [Hnone Hconcat].
  cbv zeta in Hnone, Hconcat. rewrite Hnone.
  set (log := foldl appendLog _ _) in *.
  assert (concat (spawned log)
          ≡ₚ filter (λ t, (getStaticEvent st1 t).2 = false) (collectChildrenToRun c st1))
    as Hperm.
  { rewrite Hconcat. apply filter_Permutation, multirun_concat. }
  assert (∀ p, p ∈ spawned log →
               p ≠ [] ∧ ((cumulativeLength p < limit)%Z ∨ ∃ t, p = [t])) as Hsize.
  { intros p. unfold log. rewrite spawned_foldl. simpl.
    generalize buckets. intros bs.
    induction bs as [|b bs IH]; [by inversion 1|].
    rewrite !fmap_cons. cbn [concat].
    rewrite elem_of_app. intros [Hp|Hp]; [|by apply IH].
    apply spawned_subsets_elem in Hp as (Hnonempty & sub & Hsub & ->); [|done].
    split; [done|].
    assert (Forall smallEnough (_splitTestsToSmallEnoughSubsets b)) as HF.
    { apply splitLoop_smallEnough; [constructor|]. left.
      unfold cumulativeLength, limit. simpl. lia. }
    rewrite Forall_forall in HF. destruct (HF sub Hsub) as [Hlt|[t ->]].
    - left. pose proof (cumulativeLength_filter
                          (λ t, (getStaticEvent st1 t).2 = false) sub). lia.
    - right. exists t. destruct (decide ((getStaticEvent st1 t).2 = false)).
      + by rewrite filter_cons_True.
      + rewrite filter_cons_False in Hnonempty by done. done. }
  destruct (runTasks (executeTask c) "afterEach" (afterEach c)) as [e|]; simpl.
  - rewrite app_nil_r. done.
  - done.
Qed.

Lemma run_each_test_once_witness :
  (run Samples.runAB Samples.treeState).2 = false
  ∧ concat (spawned (run Samples.runAB Samples.treeState).1.1)
    ≡ₚ [Samples.testA; Samples.testB].
Proof.
  pose proof (run_each_test_once Samples.runAB Samples.treeState eq_refl eq_refl)
    as H.
  cbn [Samples.runAB reload] in H.
  destruct (H (λ _, eq_refl)) as (H1 & _ & H2 & _).
  split; [exact H1 | exact H2].
Defined.

(** The loop of [runTasks] goes through the tasks in order and stops at
    the first one whose exit code is a number other than zero: the tasks
    after it are not executed, and the error names that task and its exit
    code.  Without such a task every task is executed and nothing is
    thrown. *)
Theorem runTasks_first_failure (executeTask : string → option Z) (type : string)
    (tasks : list string) :
  match runTasks executeTask type tasks with
  | None =>
      Forall (λ t, executeTask t = None ∨ executeTask t = Some 0%Z) tasks
      ∧ executedTasks executeTask tasks = tasks
  | Some e =>
      ∃ passed taskName later exitCode,
        tasks = passed ++ taskName :: later
        ∧ Forall (λ t, executeTask t = None ∨ executeTask t = Some 0%Z) passed
        ∧ executeTask taskName = Some exitCode ∧ exitCode ≠ 0%Z
        ∧ executedTasks executeTask tasks = passed ++ [taskName]
        ∧ e = ("One of the tasks of the `testMate.test.advancedExecutables:runTask."
               ++ type ++ "` array has failed: Error: Task " ++ dquote ++ taskName
               ++ dquote ++ " has returned with exitCode(" ++ pretty exitCode
               ++ ") != 0. (`testMate.test.advancedExecutables:runTask."
               ++ type ++ "`)")%string
  end.
Proof.
  unfold runTasks.
  induction tasks as [|t tasks IH]; simpl; [done|].
  destruct (executeTask t) as [code|] eqn:Et.
  - destruct (decide (code ≠ 0%Z)) as [Hne|Heq].
    + exists [], t, tasks, code. done.
    + assert (code = 0%Z) as -> by lia.
      destruct (runTaskLoop executeTask type tasks) as [e|].
      * destruct IH as (passed & name & later & code & -> & Hall & Hname & Hcode & Hex & He).
        exists (t :: passed), name, later, code. simpl. rewrite Hex.
        split; [done|]. split; [constructor; [by right | done]|]. done.
      * destruct IH as [Hall Hex]. rewrite Hex. split; [|done].
        constructor; [by right | done].
  - destruct (runTaskLoop executeTask type tasks) as [e|].
    + destruct IH as (passed & name & later & code & -> & Hall & Hname & Hcode & Hex & He).
      exists (t :: passed), name, later, code. simpl. rewrite Hex.
      split; [done|]. split; [constructor; [by left | done]|]. done.
    + destruct IH as [Hall Hex]. rewrite Hex. split; [|done].
      constructor; [by left | done].
Qed.

End RunMore.

(** ** More on [reloadTests] *)

Section ReloadMore.
Import Tree.

Lemma getOrCreateChildSuite_time (label description tooltip : string) (group : Suite)
    (st : State) :
  _lastReloadTime (_getOrCreateChildSuite label description tooltip group st).2
  = _lastReloadTime st.
Proof.
  unfold _getOrCreateChildSuite. by destruct (findSuite _ _ _).
Qed.

Lemma walkGrouping_time (levels : list (string * string * string)) :
  ∀ group st, _lastReloadTime (walkGrouping levels group st).2 = _lastReloadTime st.
Proof.
  induction levels as [|[[label description] tooltip] rest IH]; intros group st;
    simpl; [done|].
  pose proof (getOrCreateChildSuite_time label description tooltip group st) as H.
  destruct (_getOrCreateChildSuite label description tooltip group st) as [g st1].
  rewrite IH. exact H.
Qed.

Lemma createSubtreeAndAddTest_time (r : Runnable) (spec : TestSpec) (st : State) :
  _lastReloadTime (finalState (_createSubtreeAndAddTest r spec st)) = _lastReloadTime st.
Proof.
  unfold _createSubtreeAndAddTest.
  pose proof (walkGrouping_time (specGrouping r spec) (_rootSuite r) st) as H.
  destruct (walkGrouping _ _ _) as [group st1]. simpl in H.
  destruct (findTest _ _) as [old|].
  - by destruct (updateTest _ _ _ _) as [[fs changed]|].
  - by destruct (createTest _ _ _ _) as [[test fs]|].
Qed.

Lemma reloadLoop_time (r : Runnable) (cancellationFlag : CancellationFlag)
    (testCases : list TestSpec) :
  ∀ i reloadResult st,
    _lastReloadTime (finalState (reloadLoop r cancellationFlag testCases i reloadResult st))
    = _lastReloadTime st.
Proof.
  induction testCases as [|spec rest IH]; intros i res st; simpl; [done|].
  destruct (cancellationFlag (S i)); [done|].
  pose proof (createSubtreeAndAddTest_time r spec st) as H.
  destruct (_createSubtreeAndAddTest r spec st) as [[t changed] st1|st1]; [|done].
  rewrite IH. exact H.
Qed.

Lemma removal_time (toRemove : list AbstractTest) :
  ∀ st, _lastReloadTime (foldl removeTest st toRemove) = _lastReloadTime st.
Proof.
  induction toRemove as [|t ts IH]; intros st; simpl; [done|].
  rewrite IH. simpl. by destruct (removeWithLeafAscendants_rest t st) as (_ & _ & _ & ->).
Qed.

Lemma reloadTestsDOC_time (r : Runnable) (enumeration : Enumeration)
    (cancellationFlag : CancellationFlag) (lastModiTime : option Z) (st : State) :
  cancellationFlag 0 = false → notSkipped st lastModiTime →
  _lastReloadTime
    (finalState (reloadTestsDOC r enumeration cancellationFlag lastModiTime st))
  = lastModiTime.
Proof.
  intros Hflag Hns. unfold reloadTestsDOC, reloadTests.
  rewrite Hflag, (bool_decide_eq_true_2 _ Hns), reloadChildren_loop.
  destruct (loopOf enumeration cancellationFlag) as [[flag testCases]|]; [|done].
  pose proof (reloadLoop_time r flag testCases 0 emptyReloadResult
                (setLastReloadTime lastModiTime st)) as H.
  destruct (reloadLoop _ _ _ _ _ _) as [res st1|st1]; [|done].
  simpl in H. destruct (_ || _); simpl; [|done].
  by rewrite removal_time.
Qed.

(** [reloadTests] records the modification time before it enumerates.
    So after a reload that was neither cancelled at the call nor skipped,
    whether it returned or threw, a further [reloadTests] that sees the
    same modification time is skipped: it returns at once and leaves the
    state as it is, whatever the executable would list. *)
Theorem reload_not_retried (r : Runnable) (enumeration : Enumeration)
    (cancellationFlag : CancellationFlag) (lastModiTime : Z) (st : State) :
  cancellationFlag 0 = false → notSkipped st (Some lastModiTime) →
  let st1 := finalState (reloadTestsDOC r enumeration cancellationFlag
                           (Some lastModiTime) st) in
  _lastReloadTime st1 = Some lastModiTime
  ∧ ∀ enumeration' cancellationFlag',
      reloadTestsDOC r enumeration' cancellationFlag' (Some lastModiTime) st1
      = Return () st1.
Proof.
  intros Hflag Hns st1.
  assert (_lastReloadTime st1 = Some lastModiTime) as Htime
    by (by apply reloadTestsDOC_time).
  split; [done|]. intros enumeration' flag'. unfold reloadTestsDOC, reloadTests.
  destruct (flag' 0); [done|].
  rewrite bool_decide_eq_false_2; [done|].
  unfold notSkipped. rewrite Htime. intros [?|[?|?]]; congruence.
Qed.

Lemma reload_not_retried_witness :
  reloadTestsDOC Samples.flatRunnable EnumerationFailure Samples.neverCancelled
    (Some 200%Z) Samples.flatState
  = Throw (setLastReloadTime (Some 200%Z) Samples.flatState)
  ∧ reloadTestsDOC Samples.flatRunnable (Listing [DocCase "R" None None false []])
      Samples.neverCancelled (Some 200%Z)
      (setLastReloadTime (Some 200%Z) Samples.flatState)
    = Return () (setLastReloadTime (Some 200%Z) Samples.flatState).
Proof.
  split; [reflexivity|].
  refine (proj2 (reload_not_retried Samples.flatRunnable EnumerationFailure
                   Samples.neverCancelled 200%Z Samples.flatState _ _)
                (Listing [DocCase "R" None None false []]) Samples.neverCancelled).
  - reflexivity.
  - right. right. discriminate.
Defined.

(** A reload that passes the guard of [reloadTests], gets a listing with
    at least one test case, and is cancelled before the first entry of the
    listing is read gets an empty result from [_reloadFromString], and
    removes on it every test the runnable knew: none is left in [_tests],
    and none in the tree.  (A listing without a test case throws before
    the flag is read, and nothing is removed.) *)
Theorem reload_cancelled_removes_all (r : Runnable) (testCases : list TestSpec)
    (cancellationFlag : CancellationFlag) (lastModiTime : option Z) (st : State) :
  wellFormed (_rootSuite r) st →
  testCases ≠ [] →
  cancellationFlag 0 = false → cancellationFlag 1 = true →
  notSkipped st lastModiTime →
  ∃ st2,
    reloadTestsDOC r (Listing testCases) cancellationFlag lastModiTime st = Return () st2
    ∧ _tests st2 = []
    ∧ (∀ t, t ∈ _tests st → ¬ contains st2 (_rootSuite r) (ITest t))
    ∧ _lastReloadTime st2 = lastModiTime.
Proof.
  intros Hwf Hne H0 H1 Hns. unfold reloadTestsDOC, reloadTests.
  rewrite H0, (bool_decide_eq_true_2 _ Hns).
  set (st0 := setLastReloadTime lastModiTime st).
  assert (_reloadChildren r (Listing testCases) cancellationFlag st0
          = Return emptyReloadResult st0) as ->.
  { destruct testCases as [|spec rest]; simpl; [done | by rewrite H1]. }
  cbn [tests changedAny emptyReloadResult].
  assert (filter (λ t, t ∉ []) (_tests st0) = _tests st) as ->.
  { apply filter_all. intros t _. apply not_elem_of_nil. }
  rewrite orb_false_r.
  destruct (_tests st) as [|t0 ts] eqn:Ets.
  { rewrite bool_decide_eq_false_2 by (simpl; lia).
    exists st0. split; [done|]. split; [done|]. split; [|done].
    intros t Ht. inversion Ht. }
  rewrite bool_decide_eq_true_2 by (simpl; lia). rewrite <- Ets.
  exists (foldl removeTest st0 (_tests st)). split; [done|].
  assert (noRepeat st0) as Hnd.
  { intros g. apply (wellFormed_noRepeat _ _ Hwf g). }
  assert (prunedExcept st0 st0 None) as Hpr0.
  { intros h q _ _ [Ha Hb]. congruence. }
  destruct (removal_loop st0 (_tests st) st0 Hnd Hpr0)
    as (_ & _ & Hsub & Hdet & Hts & _ & _ & Htime).
  assert (coherent (foldl removeTest st0 (_tests st))) as Hco.
  { intros g x Hx. apply (wellFormed_coherent _ _ Hwf).
    eapply elem_of_sublist in Hx; [|apply Hsub]. exact Hx. }
  split; [|split; [|by rewrite Htime]].
  - rewrite Hts. apply filter_none. intros t Ht Hn. by apply Hn.
  - intros t Ht Hc. apply (contains_in_parent _ _ _ Hco) in Hc as (g & Hg & Hin).
    simpl in Hg. injection Hg as <-. by apply (Hdet t Ht).
Qed.

Lemma reload_cancelled_removes_all_witness :
  ∃ st2,
    reloadTestsDOC Samples.flatRunnable (Listing [DocCase "R" None None false []])
      (λ i, bool_decide (i = 1)) (Some 200%Z) Samples.flatState = Return () st2
    ∧ _tests st2 = []
    ∧ (∀ t, t ∈ _tests Samples.flatState → ¬ contains st2 Samples.root (ITest t))
    ∧ _lastReloadTime st2 = Some 200%Z.
Proof.
  assert (wellFormed Samples.root Samples.flatState) as Hwf.
  { apply (bool_decide_unpack _). vm_compute. exact I. }
  refine (reload_cancelled_removes_all Samples.flatRunnable
            [DocCase "R" None None false []] (λ i, bool_decide (i = 1))
            (Some 200%Z) Samples.flatState Hwf _ _ _ _).
  - discriminate.
  - reflexivity.
  - reflexivity.
  - right. right. discriminate.
Defined.

End ReloadMore.

(** ** The error node and the next listing *)

Section ErrorNodeFacts.
Import Tree.

Lemma getOrCreateChildSuite_suitesOnly (label description tooltip : string)
    (group : Suite) (st : State) :
  suitesOnly st → suitesOnly (_getOrCreateChildSuite label description tooltip group st).2.
Proof.
  intros Hso.
  destruct (findSuite label description (childrenOf st group)) as [found|] eqn:Hf.
  - by rewrite (getOrCreateChildSuite_found label description tooltip _ _ _ Hf).
  - destruct (getOrCreateChildSuite_created label description tooltip _ _ Hf)
      as (Hg & Hgroup & Hnew & Hother & _).
    intros h x. destruct (decide (h = group)) as [->|Hhg].
    + rewrite Hgroup, elem_of_app. intros [Hx|Hx%list_elem_of_singleton].
      * by apply (Hso group).
      * by eexists.
    + destruct (decide (h = ChildSuite (nextUid st) label description tooltip group))
        as [->|Hhn].
      * rewrite Hnew. by inversion 1.
      * rewrite Hother by done. apply Hso.
Qed.

Lemma walkGrouping_suitesOnly (levels : list (string * string * string)) :
  ∀ group st, suitesOnly st → suitesOnly (walkGrouping levels group st).2.
Proof.
  induction levels as [|[[label description] tooltip] rest IH];
    intros group st Hso; simpl; [done|].
  pose proof (getOrCreateChildSuite_suitesOnly label description tooltip group st Hso).
  destruct (_getOrCreateChildSuite label description tooltip group st) as [g st1].
  by apply IH.
Qed.

Lemma findTest_suitesOnly (name : string) (l : list TestItem) :
  (∀ x, x ∈ l → ∃ s, x = ISuite s) → findTest name l = None.
Proof.
  induction l as [|x l IH]; intros H; simpl; [done|].
  destruct (H x) as [s ->]; [left|]. apply IH. intros y Hy. apply H. by right.
Qed.

(** The first enumeration of a runnable writes to stderr, so that
    [_reloadChildren] adds the error node; the next one gives a listing
    whose first test case is grouped as the error node is (as with the
    default grouping, by executable).  The lookup in
    [_createSubtreeAndAddTest] then finds the error node, whose [compare]
    accepts every name, and [updateTest] calls [update] on it, which that
    class does not have: the second [reloadTests] throws at the first test
    case and leaves the tree with the error node as the only test. *)
Theorem error_node_blocks_listing (r : Runnable) (st : State) (stdout stderr : string)
    (flag1 flag2 : CancellationFlag) (time1 time2 : option Z)
    (spec : TestSpec) (rest : list TestSpec) :
  wellFormed (_rootSuite r) st → suitesOnly st → _tests st = [] →
  flag1 0 = false → notSkipped st time1 →
  isDocCase spec → specGrouping r spec = errorGrouping r →
  flag2 0 = false → flag2 1 = false →
  ∃ st1 e,
    reloadTestsDOC r (UnexpectedStdErr stdout stderr) flag1 time1 st = Return () st1
    ∧ _tests st1 = [e] ∧ test_class e = ErrorTest
    ∧ (notSkipped st1 time2 →
       reloadTestsDOC r (Listing (spec :: rest)) flag2 time2 st1
       = Throw (setLastReloadTime time2 st1)).
Proof.
  intros Hwf Hso Hts Hf1 Hns1 Hdoc Hgr Hf2 Hf2'.
  set (label := "⚡️ Unexpected ERROR while parsing"%string).
  set (message := unexpectedStdErrMessage stdout stderr).
  set (st0 := setLastReloadTime time1 st).
  assert (wellFormed (_rootSuite r) st0) as Hwf0 by exact Hwf.
  pose proof (walkGrouping_wellFormed (_rootSuite r) (errorGrouping r)
                (_rootSuite r) st0 Hwf0 (proj1 Hwf0))
    as (Hwfa & _ & _ & Hfind & _ & Htsa).
  pose proof (walkGrouping_suitesOnly (errorGrouping r) (_rootSuite r) st0 Hso) as Hsoa.
  destruct (walkGrouping (errorGrouping r) (_rootSuite r) st0) as [g sa] eqn:Ewalk.
  simpl in Hfind, Htsa, Hsoa, Hwfa.
  set (e := mkTest (nextUid sa) ErrorTest (runnableId r) g label).
  assert (findTest label (childrenOf sa g) = None) as Hnone
    by (apply findTest_suitesOnly, Hsoa).
  destruct (createTest r (ErrorCase label message) g (nextUid sa)) as [[e' fs]|] eqn:Ec;
    [|discriminate].
  assert (e' = e) as -> by (simpl in Ec; by injection Ec as <- _).
  set (sb := addTest g e sa).
  set (st1 := mkState (children sb) (<[e := fs]> (fields sb)) (setAdd e (_tests sb))
                      (_lastReloadTime sb) (S (nextUid sb))).
  assert (_createSubtreeAndAddTest r (ErrorCase label message) st0
          = Return (e, true) st1) as Hcreate.
  { unfold _createSubtreeAndAddTest. cbn [specGrouping specName].
    by rewrite Ewalk, Hnone, Ec. }
  assert (_tests st1 = [e]) as Hts1.
  { unfold st1. cbn [_tests sb addTest setChildren]. rewrite Htsa.
    unfold st0. cbn [_tests setLastReloadTime]. by rewrite Hts. }
  exists st1, e. split; [|split; [done|split; [done|]]].
  - unfold reloadTestsDOC, reloadTests.
    rewrite Hf1, (bool_decide_eq_true_2 _ Hns1).
    cbn [_reloadChildren]. unfold _createAndAddError. fold label message st0.
    rewrite Hcreate. cbn [tests changedAny add emptyReloadResult].
    rewrite orb_true_r, Hts1. unfold setAdd. simpl.
    rewrite filter_cons_False; [done|]. intros Hn. apply Hn. left.
  - intros Hns2. unfold reloadTestsDOC, reloadTests.
    rewrite Hf2, (bool_decide_eq_true_2 _ Hns2).
    set (st2 := setLastReloadTime time2 st1).
    cbn [_reloadChildren _reloadFromString reloadLoop]. rewrite Hf2'.
    assert (childrenOf st2 g = childrenOf sa g ++ [ITest e]) as Hg.
    { change (childrenOf (addTest g e sa) g = childrenOf sa g ++ [ITest e]).
      unfold addTest. apply childrenOf_setChildren_eq. }
    assert (walkFind (errorGrouping r) (_rootSuite r) st2 = Some g) as Hfind2.
    { rewrite (walkFind_children _ _ st2 st1) by done.
      apply (walkFind_extends _ _ sa); [|done].
      split; [|split; [simpl; lia|split; [|done]]].
      - intros h. change (childrenOf sa h `prefix_of` childrenOf (addTest g e sa) h).
        unfold addTest. rewrite childrenOf_setChildren.
        destruct (decide (g = h)) as [->|?]; [by apply prefix_app_r | done].
      - intros t Ht. rewrite Htsa in Ht. unfold st0 in Ht. simpl in Ht.
        rewrite Hts in Ht. inversion Ht. }
    assert (_createSubtreeAndAddTest r spec st2 = Throw st2) as ->; [|done].
    unfold _createSubtreeAndAddTest.
    rewrite Hgr, (walkFind_walkGrouping _ _ _ _ Hfind2), Hg, findTest_app.
    rewrite (findTest_suitesOnly _ _ (Hsoa g)). cbn [findTest].
    unfold AbstractTest_compare. cbn [test_class e].
    rewrite bool_decide_eq_true_2 by done.
    destruct spec as [n f line sk tags|l m]; [|done]. done.
Qed.

Lemma error_node_blocks_listing_witness :
  ∃ st1 e,
    reloadTestsDOC Samples.runnable (UnexpectedStdErr "" "warning") Samples.neverCancelled
      (Some 1%Z) (mkState ∅ ∅ [] None 1) = Return () st1
    ∧ _tests st1 = [e] ∧ test_class e = ErrorTest
    ∧ (notSkipped st1 (Some 2%Z) →
       reloadTestsDOC Samples.runnable (Listing [DocCase "A" None None false []])
         Samples.neverCancelled (Some 2%Z) st1
       = Throw (setLastReloadTime (Some 2%Z) st1)).
Proof.
  refine (error_node_blocks_listing Samples.runnable (mkState ∅ ∅ [] None 1) "" "warning"
            Samples.neverCancelled Samples.neverCancelled (Some 1%Z) (Some 2%Z)
            (DocCase "A" None None false []) [] _ _ _ _ _ _ _ _ _).
  - apply (bool_decide_unpack _). vm_compute. exact I.
  - intros g x Hx. unfold childrenOf in Hx. simpl in Hx.
    rewrite lookup_empty in Hx. simpl in Hx. inversion Hx.
  - reflexivity.
  - reflexivity.
  - left. reflexivity.
  - exact I.
  - reflexivity.
  - reflexivity.
  - reflexivity.
Defined.

End ErrorNodeFacts.

(** ** The root suite *)

Section RootFacts.
Import Tree Root.

Lemma runningStep_ok (s : Running) (c : RunningCall) :
  runningOk s →
  runningOk (runningStep s c)
  ∧ (_runningCounter (runningStep s c)
     = _runningCounter s + (if decide (isStart c) then 1 else 0)
       - (Z.of_nat (length (finishedEvents (runningStep s c)))
          - Z.of_nat (length (finishedEvents s))))%Z
  ∧ finishedEvents s `prefix_of` finishedEvents (runningStep s c).
Proof.
  intros [Hpos Hres]. destruct c as [|testRunId]; simpl.
  - unfold sendStartEventIfNeeded. simpl. split; [|split; [lia|done]].
    split; [simpl; lia|]. simpl.
    destruct (decide (_runningCounter s = 0%Z)) as [E|Hne].
    + split; [discriminate | lia].
    + rewrite Hres. lia.
  - unfold sendFinishedEventIfNeeded.
    destruct (decide (_runningCounter s < 1)%Z) as [Hlt|Hge]; simpl.
    + assert (_runningCounter s = 0%Z) as E by lia.
      split; [|split; [lia|done]].
      split; [simpl; lia|]. simpl. rewrite Hres. tauto.
    + split; [|split; [rewrite length_app; simpl; lia | by apply prefix_app_r]].
      split; [simpl; lia|]. simpl.
      destruct (decide (_runningCounter s = 1%Z)) as [E|Hne].
      * split; [lia | done].
      * rewrite Hres. lia.
Qed.

(** Whatever calls of [sendStartEventIfNeeded] and
    [sendFinishedEventIfNeeded] are made from a state in which the counter
    is not negative and the running promise is resolved exactly when
    it is zero (as at construction), this stays so: [isRunning] is true
    exactly while the promise is pending.  The counter moves by the number
    of starts minus the number of ['finished'] events sent: a finish that
    finds nothing running sends no event and leaves the counter at
    zero. *)
Theorem running_counter_invariant (calls : list RunningCall) (s : Running) :
  runningOk s →
  let s' := foldl runningStep s calls in
  runningOk s'
  ∧ isRunning s' = negb (runningPromiseResolved s')
  ∧ (_runningCounter s'
     = _runningCounter s + Z.of_nat (length (filter isStart calls))
       - (Z.of_nat (length (finishedEvents s'))
          - Z.of_nat (length (finishedEvents s))))%Z
  ∧ finishedEvents s `prefix_of` finishedEvents s'.
Proof.
  revert s. induction calls as [|c calls IH]; intros s Hok; simpl.
  - split; [done|]. split; [|split; [lia | done]].
    destruct Hok as [Hpos [H1 H2]]. unfold isRunning.
    destruct (runningPromiseResolved s); simpl.
    + apply bool_decide_eq_false_2. specialize (H1 eq_refl). lia.
    + apply bool_decide_eq_true_2.
      destruct (decide (_runningCounter s = 0%Z)) as [E0|?]; [|lia].
      specialize (H2 E0). discriminate.
  - destruct (runningStep_ok s c Hok) as (Hok1 & Hcount1 & Hpre1).
    destruct (IH (runningStep s c) Hok1) as (Hok' & Hrun & Hcount & Hpre).
    split; [done|]. split; [done|]. split; [|by etrans].
    rewrite Hcount, Hcount1.
    destruct (decide (isStart c)).
    + rewrite filter_cons_True by done. simpl length. lia.
    + rewrite filter_cons_False by done. lia.
Qed.

Lemma running_counter_invariant_witness :
  runningOk initialRunning
  ∧ runningOk (foldl runningStep initialRunning
                 [Start; Start; Finish "a"; Finish "b"; Finish "c"]%string).
Proof.
  assert (runningOk initialRunning) as Hok by (split; simpl; [lia | done]).
  split; [exact Hok|].
  exact (proj1 (running_counter_invariant
                  [Start; Start; Finish "a"; Finish "b"; Finish "c"]%string
                  initialRunning Hok)).
Defined.

Lemma mapPush_fmap (key : nat) (curr : AbstractTest) (F : nat → list AbstractTest)
    (keys : list nat) :
  NoDup keys →
  mapPush key curr ((λ k, (k, F k)) <$> keys)
  = ((λ k, (k, if decide (k = key) then F k ++ [curr] else F k)) <$> keys)
    ++ (if decide (key ∈ keys) then [] else [(key, [curr])]).
Proof.
  induction keys as [|k0 keys IH]; intros Hnd.
  - destruct (decide (key ∈ [])) as [H|_]; [inversion H | done].
  - apply NoDup_cons in Hnd as [Hk0 Hnd]. rewrite !fmap_cons. cbn [mapPush].
    destruct (decide (k0 = key)) as [->|Hne].
    + rewrite decide_True by left. rewrite app_nil_r. f_equal.
      apply list_fmap_ext. intros i k Hk.
      rewrite decide_False; [done|]. intros ->. apply Hk0.
      by eapply list_elem_of_lookup_2.
    + rewrite IH by done. cbn [app]. f_equal.
      destruct (decide (key ∈ keys)) as [Hin|Hnin].
      * rewrite decide_True by (by right). done.
      * rewrite decide_False; [done|].
        intros [?|?]%elem_of_cons; [congruence | done].
Qed.

(** The invariant of the [reduce] of [_collectRunnables]: [keys] are the
    runnables of the tests [l0] seen so far, each once. *)
Lemma collectRunnables_loop (l : list AbstractTest) :
  ∀ l0 keys,
    NoDup keys → (∀ k, k ∈ keys ↔ ∃ t, t ∈ l0 ∧ aRunnable t = k) →
    let keys' :=
      foldl (λ keys t, if decide (aRunnable t ∈ keys) then keys
                       else keys ++ [aRunnable t]) keys l in
    foldl (λ prev curr, mapPush (aRunnable curr) curr prev)
          ((λ k, (k, filter (λ t, aRunnable t = k) l0)) <$> keys) l
    = (λ k, (k, filter (λ t, aRunnable t = k) (l0 ++ l))) <$> keys'
    ∧ NoDup keys' ∧ (∀ k, k ∈ keys' ↔ ∃ t, t ∈ l0 ++ l ∧ aRunnable t = k).
Proof.
  induction l as [|t l IH]; intros l0 keys Hnd Hkeys; cbn [foldl].
  - rewrite app_nil_r. done.
  - set (key := aRunnable t).
    set (keys1 := if decide (key ∈ keys) then keys else keys ++ [key]).
    assert (NoDup keys1) as Hnd1.
    { unfold keys1. destruct (decide _); [done|].
      apply NoDup_app. split; [done|]. split; [|apply NoDup_singleton].
      by intros k Hk ->%list_elem_of_singleton. }
    assert (∀ k, k ∈ keys1 ↔ ∃ t', t' ∈ l0 ++ [t] ∧ aRunnable t' = k) as Hkeys1.
    { intros k. unfold keys1. split.
      - intros Hk.
        assert (k ∈ keys ∨ k = key) as [Hin| ->].
        { destruct (decide (key ∈ keys)); [by left|].
          apply elem_of_app in Hk as [?|?%list_elem_of_singleton]; [by left | by right]. }
        + apply Hkeys in Hin as (t' & Ht' & E). exists t'.
          split; [apply elem_of_app; by left | done].
        + exists t. split; [apply elem_of_app; right; left | done].
      - intros (t' & [Ht'|Ht'%list_elem_of_singleton]%elem_of_app & E).
        + assert (k ∈ keys) by (apply Hkeys; by exists t').
          destruct (decide _); [done | apply elem_of_app; by left].
        + subst t'. fold key in E. subst k.
          destruct (decide (key ∈ keys)); [done|].
          apply elem_of_app. right. left. }
    assert (mapPush key t ((λ k, (k, filter (λ t, aRunnable t = k) l0)) <$> keys)
            = (λ k, (k, filter (λ t', aRunnable t' = k) (l0 ++ [t]))) <$> keys1) as ->.
    { rewrite mapPush_fmap by done. unfold keys1.
      assert (∀ k, filter (λ t', aRunnable t' = k) (l0 ++ [t])
                   = if decide (k = key) then filter (λ t', aRunnable t' = k) l0 ++ [t]
                     else filter (λ t', aRunnable t' = k) l0) as Hfilter.
      { intros k. rewrite filter_app. destruct (decide (k = key)) as [->|Hne].
        - by rewrite filter_cons_True.
        - rewrite filter_cons_False by (fold key; congruence).
          by rewrite filter_nil, app_nil_r. }
      destruct (decide (key ∈ keys)) as [Hin|Hnin].
      - rewrite app_nil_r. apply list_fmap_ext. intros i k _. by rewrite Hfilter.
      - rewrite fmap_app. f_equal.
        + apply list_fmap_ext. intros i k _. by rewrite Hfilter.
        + simpl. rewrite Hfilter, decide_True by done.
          rewrite (filter_none (λ t', aRunnable t' = key) l0); [done|].
          intros t' Ht' E. apply Hnin, Hkeys. by exists t'. }
    destruct (IH (l0 ++ [t]) keys1 Hnd1 Hkeys1) as (Heq & Hnd' & Hkeys').
    rewrite <- app_assoc in Heq, Hkeys'. done.
Qed.

(** [_collectRunnables] gives each runnable that has a test in the list
    one entry, in the order in which the runnables first appear; the
    entry of a runnable holds exactly its tests, in the order of the
    list, so it is never empty. *)
Theorem collectRunnables_groups (collected : list AbstractTest) :
  _collectRunnables collected
  = (λ k, (k, filter (λ t, aRunnable t = k) collected)) <$> runnablesOf collected
  ∧ NoDup (runnablesOf collected)
  ∧ (∀ k, k ∈ runnablesOf collected ↔ ∃ t, t ∈ collected ∧ aRunnable t = k)
  ∧ (∀ k arr, (k, arr) ∈ _collectRunnables collected → arr ≠ []).
Proof.
  destruct (collectRunnables_loop collected [] [])
    as (Heq & Hnd & Hkeys); [constructor| |].
  { intros k. split; [by inversion 1 | by intros (t & Ht & _); inversion Ht]. }
  assert (_collectRunnables collected
          = (λ k, (k, filter (λ t, aRunnable t = k) collected)) <$> runnablesOf collected)
    as E by exact Heq.
  split; [done|]. split; [exact Hnd|]. split; [exact Hkeys|].
  intros k arr. rewrite E. intros (k' & [= -> ->] & Hk')%list_elem_of_fmap.
  apply Hkeys in Hk' as (t & Ht & Et). simpl in Ht.
  intros Hempty.
  assert (t ∈ filter (λ t, aRunnable t = k') collected) as Hin
    by (by apply list_elem_of_filter).
  rewrite Hempty in Hin. inversion Hin.
Qed.

Lemma executedTasks_prefix (executeTask : string → option Z) (tasks : list string) :
  Run.executedTasks executeTask tasks `prefix_of` tasks.
Proof.
  induction tasks as [|t tasks IH]; simpl; [done|].
  apply prefix_cons.
  destruct (executeTask t) as [code|]; [|done].
  destruct (decide _); [apply prefix_nil | done].
Qed.

Lemma taskAdd_loop (l : list string) :
  ∀ acc, NoDup acc →
    NoDup (foldl (λ acc t, taskAdd t acc) acc l)
    ∧ (∀ t, t ∈ foldl (λ acc t, taskAdd t acc) acc l ↔ t ∈ acc ∨ t ∈ l)
    ∧ acc `prefix_of` foldl (λ acc t, taskAdd t acc) acc l.
Proof.
  induction l as [|x l IH]; intros acc Hnd; simpl.
  - split; [done|]. split; [|done]. intros t. split; [by left|].
    intros [?|H]; [done | inversion H].
  - assert (NoDup (taskAdd x acc)) as Hnd1.
    { unfold taskAdd. destruct (decide _); [done|].
      apply NoDup_app. split; [done|]. split; [|apply NoDup_singleton].
      by intros y Hy ->%list_elem_of_singleton. }
    destruct (IH (taskAdd x acc) Hnd1) as (Hnd' & Hel & Hpre).
    split; [done|]. split.
    + intros t. rewrite Hel. unfold taskAdd.
      destruct (decide (x ∈ acc)) as [Hin|Hnin].
      * rewrite elem_of_cons. split; [tauto|]. intros [?|[->|?]]; tauto.
      * rewrite elem_of_app, list_elem_of_singleton, elem_of_cons. tauto.
    + etrans; [|exact Hpre]. unfold taskAdd.
      destruct (decide _); [done | by apply prefix_app_r].
Qed.

Lemma collectTasks_loop (taskLists : list (option (list string))) :
  ∀ acc, NoDup acc →
    let tasks :=
      foldl (λ runTasks l, foldl (λ acc t, taskAdd t acc) runTasks (default [] l))
            acc taskLists in
    NoDup tasks
    ∧ (∀ t, t ∈ tasks ↔ t ∈ acc ∨ ∃ l, Some l ∈ taskLists ∧ t ∈ l).
Proof.
  induction taskLists as [|l taskLists IH]; intros acc Hnd; simpl.
  - split; [done|]. intros t. split; [by left|].
    intros [?|(l & Hl & _)]; [done | inversion Hl].
  - destruct (taskAdd_loop (default [] l) acc Hnd) as (Hnd1 & Hel1 & _).
    destruct (IH _ Hnd1) as (Hnd' & Hel).
    split; [done|]. intros t. rewrite Hel, Hel1. split.
    + intros [[?|Hin]|(l' & Hl' & Ht)]; [by left | |].
      * right. destruct l as [l|]; [|inversion Hin].
        exists l. split; [left | done].
      * right. exists l'. split; [by right | done].
    + intros [?|(l' & [E|Hl']%elem_of_cons & Ht)]; [left; by left | |].
      * subst l. left. by right.
      * right. by exists l'.
Qed.

(** [RootSuite.runTasks]: the tasks of the runnables are put into one
    set, so a task that several runnables name is executed once; the
    tasks are the ones that some runnable names; they are executed one
    after the other up to the first failure; and with no task at all
    nothing is executed and nothing thrown. *)
Theorem rootRunTasks_each_once (executeTask : string → option Z) (type : string)
    (taskLists : list (option (list string))) :
  let tasks := collectTasks taskLists in
  NoDup tasks
  ∧ (∀ t, t ∈ tasks ↔ ∃ l, Some l ∈ taskLists ∧ t ∈ l)
  ∧ Run.executedTasks executeTask tasks `prefix_of` tasks
  ∧ NoDup (Run.executedTasks executeTask tasks)
  ∧ (tasks = [] → runTasks executeTask type taskLists = None).
Proof.
  intros tasks.
  destruct (collectTasks_loop taskLists [] ltac:(constructor)) as [Hnd Hel].
  fold (collectTasks taskLists) in Hnd, Hel. fold tasks in Hnd, Hel.
  pose proof (executedTasks_prefix executeTask tasks) as Hpre.
  split; [done|]. split; [|split; [done|split]].
  - intros t. rewrite Hel. split; [|by right].
    intros [H|?]; [inversion H | done].
  - destruct Hpre as [rest Hrest]. rewrite Hrest in Hnd.
    by apply NoDup_app in Hnd as [? _].
  - unfold runTasks. fold tasks. by intros ->.
Qed.

End RootFacts.

(** ** Choosing the framework *)

Section FactoryFacts.
Import Text Factory.

(** [GoogleTestVersion.Create] gives a version only for a single
    [gtest.h] whose size is in the table, and then the version of the
    first entry with that size: 1.2.1, which shares its size with 1.2.0,
    is never the answer, every other version of the table is. *)
Theorem gtest_version_lookup (gtests : option (list string)) (size : string → option Z) :
  (∀ v, Create gtests size = Some v →
        ∃ gtest n, gtests = Some [gtest] ∧ size gtest = Some n
                   ∧ (n, v) ∈ _gtesthVersion)
  ∧ Create gtests size ≠ Some (1, 2, 1)%Z
  ∧ (∀ gtest n v, gtests = Some [gtest] → size gtest = Some n →
                  (n, v) ∈ _gtesthVersion → v ≠ (1, 2, 1)%Z →
                  Create gtests size = Some v).
Proof.
  assert (∀ n x, List.find (λ x : Z * (Z * Z * Z), bool_decide (x.1 = n)) _gtesthVersion
                 = Some x → x.1 = n ∧ x ∈ _gtesthVersion ∧ x.2 ≠ (1, 2, 1)%Z) as Hfind.
  { intros n x E. pose proof E as E'. apply find_some in E' as [Hin Hn].
    apply bool_decide_eq_true in Hn. split; [done|].
    split; [by apply list_elem_of_In|].
    unfold _gtesthVersion in Hin. simpl in Hin.
    repeat (destruct Hin as [<-|Hin];
            [simpl in Hn; subst n; vm_compute in E; simpl; congruence|]).
    done. }
  split; [|split].
  - intros v. unfold Create.
    destruct gtests as [[|gtest [|]]|]; try discriminate.
    destruct (size gtest) as [n|] eqn:En; [|discriminate].
    destruct (List.find _ _) as [[n' v']|] eqn:E; [|discriminate].
    intros [= <-]. destruct (Hfind n _ E) as (Hn & Hin & _). simpl in Hn. subst n'.
    by exists gtest, n.
  - unfold Create.
    destruct gtests as [[|gtest [|]]|]; try discriminate.
    destruct (size gtest) as [n|]; [|discriminate].
    destruct (List.find _ _) as [[n' v']|] eqn:E; [|discriminate].
    destruct (Hfind n _ E) as (_ & _ & Hv). simpl in *. congruence.
  - intros gtest n v -> Hsize Hin Hv. unfold Create. rewrite Hsize.
    apply list_elem_of_In in Hin. unfold _gtesthVersion in Hin. simpl in Hin.
    repeat (destruct Hin as [[= <- <-]|Hin]; [first [done | by vm_compute]|]).
    done.
Qed.

Lemma string_app_nil_l (s : string) : ("" ++ s = s)%string.
Proof. done. Qed.

Lemma dropPrefix_app (p s : string) : dropPrefix p (p ++ s)%string = Some s.
Proof.
  induction p as [|a p IH]; [by destruct s|].
  rewrite string_app_cons. simpl. by rewrite decide_True.
Qed.

Lemma search_found {A} (matchAt : string → option A) (s1 s2 : string) :
  is_Some (matchAt s2) → is_Some (search matchAt (s1 ++ s2)%string).
Proof.
  intros Hm. induction s1 as [|c s1 IH].
  - rewrite string_app_nil_l. destruct s2; simpl; by destruct (matchAt _).
  - rewrite string_app_cons. cbn [search].
    by destruct (matchAt (String c (s1 ++ s2)%string)).
Qed.

Lemma search_head {A} (matchAt : string → option A) (s : string) (m : A) :
  matchAt s = Some m → search matchAt s = Some m.
Proof. intros H. destruct s; simpl; by rewrite H. Qed.

Lemma spanDigits_app (d s : string) :
  allDigits d = true →
  spanDigits (d ++ s)%string = ((d ++ (spanDigits s).1)%string, (spanDigits s).2).
Proof.
  induction d as [|c d IH]; intros Hd.
  - rewrite !string_app_nil_l. by destruct (spanDigits s).
  - simpl in Hd. apply andb_true_iff in Hd as [Hc Hd].
    rewrite !string_app_cons. cbn [spanDigits]. rewrite Hc, (IH Hd). done.
Qed.

Lemma spanDigits_dot (s : string) :
  spanDigits ("." ++ s)%string = (EmptyString, ("." ++ s)%string).
Proof. done. Qed.

Lemma string_app_empty (a b : string) : (a ++ b)%string = EmptyString → a = EmptyString.
Proof. destruct a; [done|]. rewrite string_app_cons. discriminate. Qed.

Lemma matchVersion_found (a b c post : string) :
  allDigits a = true → allDigits b = true → allDigits c = true →
  a ≠ EmptyString → b ≠ EmptyString → c ≠ EmptyString →
  matchVersion (a ++ "." ++ b ++ "." ++ c ++ post)%string
  = Some (a, b, (c ++ (spanDigits post).1)%string, (spanDigits post).2).
Proof.
  intros Ha Hb Hc Hna Hnb Hnc. unfold matchVersion.
  rewrite (spanDigits_app a) by done. rewrite spanDigits_dot. cbn [fst snd].
  rewrite string_app_nil_r. rewrite decide_False by done.
  rewrite dropPrefix_app.
  rewrite (spanDigits_app b) by done. rewrite spanDigits_dot. cbn [fst snd].
  rewrite string_app_nil_r. rewrite decide_False by done.
  rewrite dropPrefix_app.
  rewrite (spanDigits_app c) by done.
  rewrite decide_False; [done|].
  intros E. by apply string_app_empty in E.
Qed.

Lemma determineTestTypeOfExecutable_Some (stdout : string) :
  determineTestTypeOfExecutable (Some stdout) = frameworkOfOutput stdout.
Proof. reflexivity. Qed.

(** The Catch2 banner decides: an output of [--help] that holds
    [Catch v], three runs of digits and two dots between them is taken for
    Catch2 wherever the banner stands and whatever else the output holds,
    the notices of Google Test and doctest included.  At the start of the
    output, and not followed by a digit, the banner gives the version it
    shows: [Number] of each run, which is the integer the run reads when
    that is below 2^53. *)
Theorem determine_catch2_first (pre a b c post : string) :
  allDigits a = true → allDigits b = true → allDigits c = true →
  a ≠ EmptyString → b ≠ EmptyString → c ≠ EmptyString →
  type <$> determineTestTypeOfExecutable
             (Some (pre ++ "Catch v" ++ a ++ "." ++ b ++ "." ++ c ++ post)%string)
  = Some catch2
  ∧ (spanDigits post = (EmptyString, post) →
     determineTestTypeOfExecutable
       (Some ("Catch v" ++ a ++ "." ++ b ++ "." ++ c ++ post)%string)
     = Some (mkFramework catch2 (Number a, Number b, Number c)))
  ∧ ∀ d, (digitsToZ d < 2 ^ 53)%Z → Number d = Exactly (digitsToZ d).
Proof.
  intros Ha Hb Hc Hna Hnb Hnc.
  assert (catch2At ("Catch v" ++ a ++ "." ++ b ++ "." ++ c ++ post)%string
          = Some (Number a, Number b, Number (c ++ (spanDigits post).1)%string))
    as Hat.
  { unfold catch2At. rewrite dropPrefix_app, matchVersion_found by done. done. }
  split; [|split].
  - destruct (search_found catch2At pre _ (mk_is_Some _ _ Hat)) as [v Hv].
    rewrite determineTestTypeOfExecutable_Some. unfold frameworkOfOutput.
    by rewrite Hv.
  - intros Hpost. rewrite determineTestTypeOfExecutable_Some.
    unfold frameworkOfOutput.
    rewrite (search_head _ _ _ Hat), Hpost. cbn [fst]. by rewrite string_app_nil_r.
  - intros d Hd. unfold Number. by rewrite (proj2 (Z.ltb_lt _ _) Hd).
Qed.

Lemma determine_catch2_first_witness :
  determineTestTypeOfExecutable (Some "Catch v2.13.4 "%string)
  = Some (mkFramework catch2 (Exactly 2, Exactly 13, Exactly 4)).
Proof.
  refine (proj1 (proj2 (determine_catch2_first "" "2" "13" "4" " " _ _ _ _ _ _)) _);
    done.
Defined.

(** [create] never gives a [GoogleTestSuiteInfo]: the clause of ['google']
    has no [return], so control goes on into the clause of ['catch2'].  Its
    promise is rejected exactly when the one of
    [determineTestTypeOfExecutable] is; the [throw] after the [switch] is
    never reached.  An executable whose [--help] shows the notice of
    Google Test, and no Catch2 banner, gets a [Catch2TestSuiteInfo] with
    the version 0.0.0. *)
Theorem google_executable_gets_catch2 (pre post : string) (c : ascii) :
  startsWithLineTerminator (String c post) = false →
  search catch2At
    (pre ++ "This program contains tests written using Google Test" ++ String c post)%string
  = None →
  determineTestTypeOfExecutable
    (Some (pre ++ "This program contains tests written using Google Test"
               ++ String c post)%string)
  = Some (mkFramework google (Exactly 0, Exactly 0, Exactly 0))
  ∧ create
      (Some (pre ++ "This program contains tests written using Google Test"
                 ++ String c post)%string)
    = Some (Catch2TestSuiteInfo (Exactly 0, Exactly 0, Exactly 0))
  ∧ (∀ help,
       create help
       = match determineTestTypeOfExecutable help with
         | Some framework =>
             Some (match type framework with
                   | doc => DOCTestSuiteInfo (version framework)
                   | catch2 | google => Catch2TestSuiteInfo (version framework)
                   end)
         | None => None
         end)
  ∧ ∀ help version, create help ≠ Some (GoogleTestSuiteInfo version).
Proof.
  intros Hc Hcatch.
  assert (∀ help,
            create help
            = match determineTestTypeOfExecutable help with
              | Some framework =>
                  Some (match type framework with
                        | doc => DOCTestSuiteInfo (version framework)
                        | catch2 | google => Catch2TestSuiteInfo (version framework)
                        end)
              | None => None
              end) as Hcreate.
  { intros help. unfold create.
    destruct (determineTestTypeOfExecutable help) as [[[] v]|]; reflexivity. }
  assert (determineTestTypeOfExecutable
            (Some (pre ++ "This program contains tests written using Google Test"
                       ++ String c post)%string)
          = Some (mkFramework google (Exactly 0, Exactly 0, Exactly 0))) as Hdet.
  { rewrite determineTestTypeOfExecutable_Some. unfold frameworkOfOutput.
    rewrite Hcatch.
    assert (googleAt ("This program contains tests written using Google Test"
                      ++ String c post)%string = Some ()) as Hat.
    { unfold googleAt. rewrite dropPrefix_app, Hc. done. }
    destruct (search_found googleAt pre _ (mk_is_Some _ _ Hat)) as [[] Hv].
    by rewrite Hv. }
  split; [exact Hdet|]. split; [by rewrite Hcreate, Hdet|]. split; [exact Hcreate|].
  intros help v. rewrite Hcreate.
  destruct (determineTestTypeOfExecutable help) as [[[] ?]|]; discriminate.
Qed.

Lemma google_executable_gets_catch2_witness :
  create
    (Some "This program contains tests written using Google Test. Use --gtest_filter"%string)
  = Some (Catch2TestSuiteInfo (Exactly 0, Exactly 0, Exactly 0)).
Proof.
  exact (proj1 (proj2 (google_executable_gets_catch2 "" " Use --gtest_filter" "."
                         eq_refl eq_refl))).
Defined.

End FactoryFacts.

(** ** Resolving variables *)

Section ReplaceFacts.
Import Text Resolve.

Lemma dropPrefix_Some (p s after : string) :
  dropPrefix p s = Some after → s = (p ++ after)%string.
Proof.
  revert s. induction p as [|a p IH]; intros s; simpl.
  - by intros [= ->].
  - destruct s as [|b s]; [discriminate|].
    destruct (decide (a = b)) as [->|?]; [|discriminate].
    intros H. rewrite string_app_cons. by rewrite (IH s H).
Qed.

Lemma searchSplit_Some {A} (matchAt : string → option A) (s before : string) (m : A) :
  searchSplit matchAt s = Some (before, m) →
  ∃ rest, s = (before ++ rest)%string ∧ matchAt rest = Some m.
Proof.
  revert before. induction s as [|c s IH]; intros before; simpl.
  - destruct (matchAt EmptyString) eqn:E; [|discriminate].
    intros [= <- <-]. by exists EmptyString.
  - destruct (matchAt (String c s)) eqn:E.
    + intros [= <- <-]. by exists (String c s).
    + destruct (searchSplit matchAt s) as [[b m']|]; [|discriminate].
      intros [= <- <-]. destruct (IH b eq_refl) as (rest & -> & Hrest).
      exists rest. by rewrite string_app_cons.
Qed.

Lemma search_split_head {A} (matchAt : string → option A) (s : string) (m : A) :
  matchAt s = Some m → searchSplit matchAt s = Some (EmptyString, m).
Proof. intros H. destruct s; simpl; by rewrite H. Qed.

Lemma splitAtFirst_Some (pattern s before after : string) :
  splitAtFirst pattern s = Some (before, after) →
  s = (before ++ pattern ++ after)%string.
Proof.
  intros (rest & -> & Hrest)%searchSplit_Some.
  by rewrite (dropPrefix_Some _ _ _ Hrest).
Qed.

Lemma getSubstitution_noDollar (matched before after template : string) :
  noDollar template = true →
  getSubstitution matched before after template = template.
Proof.
  induction template as [|c t IH]; [done|]. simpl.
  intros [Hc Ht]%andb_true_iff. apply negb_true_iff, bool_decide_eq_false in Hc.
  rewrite decide_False by done. by rewrite IH.
Qed.

(** [replaceAllString] comes to an end after one round at most, and its
    result is [input.replace (resolve, rule)]: each round computes the
    replacement from [input] again, not from the result of the round
    before.  So only the first occurrence of [resolve] is replaced; what
    follows it is left as it is, also where [resolve] stands there
    again. *)
Theorem replaceAllString_once (fuel : nat) (input resolve rule : string) :
  2 ≤ fuel →
  replaceAllString fuel input resolve rule = Some (replace input resolve rule)
  ∧ (splitAtFirst resolve input = None →
     replaceAllString fuel input resolve rule = Some input)
  ∧ ∀ before after,
      splitAtFirst resolve input = Some (before, after) → noDollar rule = true →
      input = (before ++ resolve ++ after)%string
      ∧ replaceAllString fuel input resolve rule = Some (before ++ rule ++ after)%string.
Proof.
  intros Hfuel.
  assert (replaceAllString fuel input resolve rule = Some (replace input resolve rule))
    as Hone.
  { unfold replaceAllString. destruct fuel as [|[|fuel]]; [lia | lia |].
    cbn [replaceAllLoop].
    destruct (decide (input ≠ replace input resolve rule)) as [Hne|Heq].
    - by rewrite decide_False by (intros H; by apply H).
    - f_equal. by destruct (decide (input = replace input resolve rule)). }
  split; [done|]. split.
  - intros Hnone. rewrite Hone. unfold replace. by rewrite Hnone.
  - intros before after Hsplit Hrule. split; [by apply splitAtFirst_Some|].
    rewrite Hone. unfold replace. rewrite Hsplit.
    by rewrite getSubstitution_noDollar.
Qed.

Lemma replaceAllString_once_witness :
  replaceAllString 2 "${a} and ${a}" "${a}" "x" = Some "x and ${a}"%string.
Proof.
  refine (proj2 (proj2 (proj2 (replaceAllString_once 2 "${a} and ${a}" "${a}" "x" _))
                       "" " and ${a}" _ _)); [lia | reflexivity | reflexivity].
Defined.

End ReplaceFacts.

Section IndexerFacts.
Import Text Resolve.
Context {A : Type}.

Lemma element_None (arr : list A) (i : Z) :
  element arr i = None ↔ (i < 0 ∨ Z.of_nat (length arr) ≤ i)%Z.
Proof.
  unfold element. destruct (decide (0 ≤ i)%Z) as [Hi|Hi]; [|split; [lia | done]].
  rewrite lookup_ge_None. lia.
Qed.

Lemma slice_complement (arr : list A) (k : Z) :
  slice arr None (Some k) ++ slice arr (Some k) None = arr.
Proof.
  unfold slice. cbn [relativeIndex].
  set (len := Z.of_nat (length arr)).
  set (p := if decide (k < 0)%Z then Z.max (len + k) 0 else Z.min k len).
  assert (0 ≤ p ≤ len)%Z as Hp by (unfold p; destruct (decide _); lia).
  rewrite Z.sub_0_r. cbn [Z.to_nat drop].
  rewrite (take_ge (drop (Z.to_nat p) arr)).
  - apply take_drop.
  - rewrite length_drop. lia.
Qed.

Lemma pythonIndexer_whole (arr : list A) :
  processArrayWithPythonIndexer arr None None None = Some <$> arr.
Proof.
  unfold processArrayWithPythonIndexer, slice. cbn [relativeIndex].
  rewrite Z.sub_0_r, Nat2Z.id. cbn [Z.to_nat drop]. by rewrite firstn_all.
Qed.

(** [processArrayWithPythonIndexer].  With an index the result is always
    one element: the element at that position, counted from the end for
    a negative index, and [undefined] if there is none.  Without an
    indexer it is the whole array.  With a range the positions are clipped
    to the array, so that for every number [k] the ranges [[:k]] and
    [[k:]] cut the array in two. *)
Theorem pythonIndexer_semantics (arr : list A) (m2 m3 : option Z) :
  (∀ idx, ∃ x,
     processArrayWithPythonIndexer arr (Some idx) m2 m3 = [x]
     ∧ (x = None ↔ (idx < - Z.of_nat (length arr) ∨ Z.of_nat (length arr) ≤ idx)%Z)
     ∧ (∀ i, i < length arr →
             (idx = Z.of_nat i ∨ idx = Z.of_nat i - Z.of_nat (length arr))%Z →
             x = arr !! i))
  ∧ processArrayWithPythonIndexer arr None None None = Some <$> arr
  ∧ (∀ k, processArrayWithPythonIndexer arr None None (Some k)
          ++ processArrayWithPythonIndexer arr None (Some k) None
          = Some <$> arr)
  ∧ (∀ a b, (0 ≤ a ≤ b)%Z → (b ≤ Z.of_nat (length arr))%Z →
            processArrayWithPythonIndexer arr None (Some a) (Some b)
            = Some <$> take (Z.to_nat (b - a)) (drop (Z.to_nat a) arr)).
Proof.
  split; [|split; [|split]].
  - intros idx. unfold processArrayWithPythonIndexer.
    destruct (decide (idx < 0)%Z) as [Hneg|Hpos].
    + eexists. split; [done|]. split.
      * rewrite element_None. lia.
      * intros i Hi [->| ->]; [lia|]. unfold element.
        rewrite decide_True by lia. f_equal. lia.
    + eexists. split; [done|]. split.
      * rewrite element_None. lia.
      * intros i Hi [->| ->]; [|lia]. unfold element.
        rewrite decide_True by lia. f_equal. lia.
  - apply pythonIndexer_whole.
  - intros k. unfold processArrayWithPythonIndexer.
    by rewrite <- fmap_app, slice_complement.
  - intros a b Hab Hb. unfold processArrayWithPythonIndexer, slice. cbn [relativeIndex].
    rewrite !decide_False by lia. by rewrite !Z.min_l by lia.
Qed.

End IndexerFacts.

Section SplitJoinFacts.
Import Text Resolve.

Lemma splitOn_nonempty (isSep : ascii → bool) (s : string) : splitOn isSep s ≠ [].
Proof. destruct s as [|c s]; simpl; [done|]. by destruct (isSep c), (splitOn isSep s). Qed.

Lemma concat_cons_nonempty (sep x : string) (l : list string) :
  l ≠ [] → String.concat sep (x :: l) = (x ++ sep ++ String.concat sep l)%string.
Proof. by destruct l. Qed.

Lemma join_splitOn (isSep : ascii → bool) (joiner : ascii) (s : string) :
  String.concat (String joiner EmptyString) (splitOn isSep s)
  = mapChars (λ c, if isSep c then joiner else c) s.
Proof.
  induction s as [|c s IH]; [done|]. cbn [splitOn mapChars].
  pose proof (splitOn_nonempty isSep s) as Hne.
  destruct (isSep c).
  - rewrite concat_cons_nonempty by done. by rewrite IH.
  - destruct (splitOn isSep s) as [|h t] eqn:E; [done|]. rewrite <- IH.
    destruct t as [|h' t]; [done|].
    rewrite !concat_cons_nonempty by done. by rewrite string_app_cons.
Qed.

Lemma mapChars_id (f : ascii → ascii) (s : string) :
  (∀ c, f c = c) → mapChars f s = s.
Proof. intros Hf. induction s as [|c s IH]; simpl; [done | by rewrite Hf, IH]. Qed.

Lemma fmap_default_Some (l : list string) :
  default EmptyString <$> (Some <$> l) = l.
Proof. induction l as [|x l IH]; [done|]. rewrite !fmap_cons. by rewrite IH. Qed.

(** The rule of [createPythonIndexerForStringVariable] for the variable
    without an indexer: the value with every separator character replaced
    by the joining character, so the value itself when the two are the
    same character.  With a range, the pieces before position [k] and the
    pieces from [k] on are together the pieces of the value. *)
Theorem indexerRule_whole (isSep : ascii → bool) (joiner : ascii) (value : string) :
  indexerRule isSep (String joiner EmptyString) value None None None
  = mapChars (λ c, if isSep c then joiner else c) value
  ∧ indexerRule (λ c, bool_decide (c = joiner)) (String joiner EmptyString) value
                None None None = value
  ∧ ∀ k, processArrayWithPythonIndexer (splitOn isSep value) None None (Some k)
         ++ processArrayWithPythonIndexer (splitOn isSep value) None (Some k) None
         = Some <$> splitOn isSep value.
Proof.
  assert (∀ p, indexerRule p (String joiner EmptyString) value None None None
               = mapChars (λ c, if p c then joiner else c) value) as Hwhole.
  { intros p. unfold indexerRule, join.
    by rewrite pythonIndexer_whole, fmap_default_Some, join_splitOn. }
  split; [apply Hwhole|]. split.
  - rewrite Hwhole. apply mapChars_id. intros c.
    by destruct (bool_decide_reflect (c = joiner)).
  - intros k. unfold processArrayWithPythonIndexer.
    by rewrite <- fmap_app, slice_complement.
Qed.

End SplitJoinFacts.

Section OsEnvFacts.
Import Text Resolve.

Lemma string_length_app (a b : string) :
  String.length (a ++ b)%string = String.length a + String.length b.
Proof.
  induction a as [|c a IH]; [done|]. rewrite string_app_cons. simpl. by rewrite IH.
Qed.

Lemma spanName_app (s : string) : s = ((spanName s).1 ++ (spanName s).2)%string.
Proof.
  induction s as [|c s IH]; [done|]. simpl.
  destruct (isNameChar c); [|done].
  destruct (spanName s) as [name rest]. simpl in *.
  by rewrite string_app_cons, <- IH.
Qed.

Lemma spanName_name (name rest : string) :
  allNameChars name = true →
  spanName (name ++ "}" ++ rest)%string = (name, ("}" ++ rest)%string).
Proof.
  induction name as [|c name IH]; [done|]. cbn [allNameChars].
  intros [Hc Hname]%andb_true_iff. rewrite string_app_cons. cbn [spanName].
  by rewrite Hc, (IH Hname).
Qed.

Lemma nameAndBrace_length (s name after : string) :
  nameAndBrace s = Some (name, after) → String.length after < String.length s.
Proof.
  unfold nameAndBrace. destruct s as [|c s']; [discriminate|].
  destruct (isNameStart c); [|discriminate].
  pose proof (spanName_app (String c s')) as Hs.
  destruct (spanName (String c s')) as [n rest]. simpl in Hs.
  destruct (dropPrefix "}" rest) as [a|] eqn:Ed; [|discriminate].
  intros [= <- <-]. apply dropPrefix_Some in Ed. rewrite Hs, Ed.
  rewrite !string_length_app. simpl. lia.
Qed.

Lemma osEnvAt_length (s : string) (strict : bool) (name after : string) :
  osEnvAt s = Some (strict, name, after) → String.length after < String.length s.
Proof.
  unfold osEnvAt. destruct (dropPrefix "${os_env" s) as [r|] eqn:E1; [|discriminate].
  apply dropPrefix_Some in E1. rewrite E1, string_length_app.
  destruct (dropPrefix ":" r) as [r'|] eqn:E2.
  - apply dropPrefix_Some in E2. rewrite E2, string_length_app.
    destruct (nameAndBrace r') as [[n a]|] eqn:E3; [|discriminate].
    intros [= <- <- <-]. apply nameAndBrace_length in E3. lia.
  - destruct (dropPrefix "_strict:" r) as [r'|] eqn:E3; [|discriminate].
    apply dropPrefix_Some in E3. rewrite E3, string_length_app.
    destruct (nameAndBrace r') as [[n a]|] eqn:E4; [|discriminate].
    intros [= <- <- <-]. apply nameAndBrace_length in E4. lia.
Qed.

Lemma searchSplit_osEnv_length (s before : string) (strict : bool) (name after : string) :
  searchSplit osEnvAt s = Some (before, (strict, name, after)) →
  String.length after < String.length s.
Proof.
  intros (rest & -> & Hrest)%searchSplit_Some. apply osEnvAt_length in Hrest.
  rewrite string_length_app. lia.
Qed.

Lemma resolveOSEnvLoop_total (env : string → option string) (strictAllowed : bool)
    (fuel : nat) :
  ∀ replacedS s, String.length s < fuel →
    ∃ r, resolveOSEnvLoop fuel env strictAllowed replacedS s = Some r
         ∧ (strictAllowed = false → ∃ resolved, r = Some resolved).
Proof.
  induction fuel as [|fuel IH]; intros replacedS s Hlen; [lia|]. cbn [resolveOSEnvLoop].
  destruct (searchSplit osEnvAt s) as [[before [[strict name] after]]|] eqn:E.
  - apply searchSplit_osEnv_length in E.
    destruct (env name) as [val|]; [apply IH; lia|].
    destruct strict; [|apply IH; lia].
    destruct strictAllowed; [|apply IH; lia].
    eexists. split; [done | discriminate].
  - eexists. split; [done|]. by eexists.
Qed.

Lemma osEnvAt_plain (name rest : string) :
  isName name = true →
  osEnvAt ("${os_env:" ++ name ++ "}" ++ rest)%string = Some (false, name, rest).
Proof.
  intros Hname. unfold osEnvAt.
  change ("${os_env:" ++ name ++ "}" ++ rest)%string
    with ("${os_env" ++ ":" ++ name ++ "}" ++ rest)%string.
  rewrite !dropPrefix_app. unfold nameAndBrace.
  destruct name as [|c name]; [discriminate|].
  simpl in Hname. apply andb_true_iff in Hname as [Hc Hall].
  rewrite string_app_cons, Hc, <- string_app_cons.
  rewrite spanName_name by (by simpl). by rewrite dropPrefix_app.
Qed.

Lemma osEnvAt_strict (name rest : string) :
  isName name = true →
  osEnvAt ("${os_env_strict:" ++ name ++ "}" ++ rest)%string = Some (true, name, rest).
Proof.
  intros Hname. unfold osEnvAt.
  change ("${os_env_strict:" ++ name ++ "}" ++ rest)%string
    with ("${os_env" ++ "_strict:" ++ name ++ "}" ++ rest)%string.
  rewrite dropPrefix_app.
  change (dropPrefix ":" ("_strict:" ++ name ++ "}" ++ rest)%string) with (@None string).
  cbv iota. rewrite dropPrefix_app. unfold nameAndBrace.
  destruct name as [|c name]; [discriminate|].
  simpl in Hname. apply andb_true_iff in Hname as [Hc Hall].
  rewrite string_app_cons, Hc, <- string_app_cons.
  rewrite spanName_name by (by simpl). by rewrite dropPrefix_app.
Qed.

Lemma resolveOSEnvString_single (env : string → option string) (strictAllowed : bool)
    (s name : string) (strict : bool) :
  osEnvAt s = Some (strict, name, EmptyString) →
  resolveOSEnvString env strictAllowed s
  = Some (match env name with
          | Some val => Some val
          | None => if strict then if strictAllowed then None else Some "<missing env>"%string
                    else Some EmptyString
          end).
Proof.
  intros Hat. unfold resolveOSEnvString.
  pose proof (osEnvAt_length _ _ _ _ Hat) as Hlen.
  destruct (String.length s) as [|n]; [simpl in Hlen; lia|].
  cbn [resolveOSEnvLoop]. rewrite (search_split_head _ _ _ Hat).
  change (searchSplit osEnvAt EmptyString) with (@None (string * (bool * string * string))).
  cbv iota. rewrite !string_app_nil_l, ?string_app_nil_r.
  destruct (env name) as [val|]; [by rewrite string_app_nil_r|].
  destruct strict; [|done]. by destruct strictAllowed.
Qed.

(** The mapper of [resolveOSEnvironmentVariables] on a string.  Its loop
    comes to an end.  A string in which the regular expression matches
    nowhere is returned as it is.  Unless [strictAllowed] is set the
    result is a string, never [undefined].  What the read
    [_normalizedEnvCache[NAME]] gives is put in as it is and not looked at
    again; when the read gives [undefined], [os_env] puts in nothing, and
    [os_env_strict] makes the result [undefined] when [strictAllowed] is
    set and puts in [<missing env>] otherwise.  (The read is a property
    read: for a name that the prototype of the object defines it gives
    that property, also when no such variable is set.) *)
Theorem resolveOSEnv_string (env : string → option string) (strictAllowed : bool)
    (s : string) :
  (∃ r, resolveOSEnvString env strictAllowed s = Some r)
  ∧ (∃ resolved, resolveOSEnvString env false s = Some (Some resolved))
  ∧ (searchSplit osEnvAt s = None →
     resolveOSEnvString env strictAllowed s = Some (Some s))
  ∧ (∀ name, isName name = true →
       resolveOSEnvString env strictAllowed ("${os_env:" ++ name ++ "}")%string
       = Some (Some (default EmptyString (env name)))
       ∧ resolveOSEnvString env strictAllowed ("${os_env_strict:" ++ name ++ "}")%string
         = Some (match env name with
                 | Some val => Some val
                 | None => if strictAllowed then None else Some "<missing env>"%string
                 end)).
Proof.
  split; [|split; [|split]].
  - destruct (resolveOSEnvLoop_total env strictAllowed (S (String.length s))
                EmptyString s ltac:(lia)) as (r & Hr & _).
    by exists r.
  - destruct (resolveOSEnvLoop_total env false (S (String.length s))
                EmptyString s ltac:(lia)) as (r & Hr & Hs).
    destruct (Hs eq_refl) as [resolved ->]. by exists resolved.
  - intros Hnone. unfold resolveOSEnvString. cbn [resolveOSEnvLoop].
    by rewrite Hnone.
  - intros name Hname. split.
    + rewrite (resolveOSEnvString_single env strictAllowed _ name false).
      * by destruct (env name).
      * rewrite <- (string_app_nil_r "}"). by apply osEnvAt_plain.
    + rewrite (resolveOSEnvString_single env strictAllowed _ name true).
      * by destruct (env name).
      * rewrite <- (string_app_nil_r "}"). by apply osEnvAt_strict.
Qed.

Lemma mapAllStrings_array (f : string → JsValue → JsValue) (elements : list JsValue)
    (parent : JsValue) :
  ∃ l, _mapAllStrings f (JArray elements) parent = JArray l
       ∧ length l ≤ length elements ∧ Forall (λ v, v ≠ JUndefined) l.
Proof.
  cbn [_mapAllStrings]. generalize (JArray elements). intros value.
  set (each := fix each (l : list JsValue) : list JsValue := _).
  exists (each elements). split; [done|].
  induction elements as [|v elements [IHlen IHall]]; [split; [done | constructor]|].
  cbn [each]. fold each.
  destruct (isUndefined (_mapAllStrings f v value)) eqn:E.
  - split; [simpl; lia | done].
  - split; [simpl; lia|]. constructor; [|done].
    intros Hu. by rewrite Hu in E.
Qed.

Lemma mapAllStrings_object (f : string → JsValue → JsValue)
    (properties : list (string * JsValue)) (parent : JsValue) :
  ∃ ps, _mapAllStrings f (JObject properties) parent = JObject ps
        ∧ ps.*1 = properties.*1.
Proof.
  cbn [_mapAllStrings]. generalize (JObject properties). intros value.
  set (each := fix each (l : list (string * JsValue)) : list (string * JsValue) := _).
  exists (each properties). split; [done|].
  induction properties as [|[prop v] properties IH]; [done|].
  cbn [each]. fold each. rewrite !fmap_cons. by rewrite IH.
Qed.

(** [_mapAllStrings] treats a string that the mapper turns into
    [undefined] in two ways: in an array the element is left out, in an
    object the property keeps its old value.  An array never gets longer
    and holds no [undefined] afterwards; an object keeps its property
    names.  So with [strictAllowed], a text that is one [os_env_strict]
    variable without a value disappears from an array, and stays
    unresolved as the value of a property. *)
Theorem mapAllStrings_undefined (f : string → JsValue → JsValue) (parent : JsValue) :
  (∀ elements, ∃ l, _mapAllStrings f (JArray elements) parent = JArray l
                    ∧ length l ≤ length elements ∧ Forall (λ v, v ≠ JUndefined) l)
  ∧ (∀ properties, ∃ ps, _mapAllStrings f (JObject properties) parent = JObject ps
                         ∧ ps.*1 = properties.*1)
  ∧ (∀ env name prop,
       isName name = true → env name = None →
       resolveOSEnvironmentVariables env
         (JString ("${os_env_strict:" ++ name ++ "}")) true = JUndefined
       ∧ resolveOSEnvironmentVariables env
           (JArray [JString ("${os_env_strict:" ++ name ++ "}")]) true = JArray []
       ∧ resolveOSEnvironmentVariables env
           (JObject [(prop, JString ("${os_env_strict:" ++ name ++ "}"))]) true
         = JObject [(prop, JString ("${os_env_strict:" ++ name ++ "}"))]).
Proof.
  split; [intros; apply mapAllStrings_array|].
  split; [intros; apply mapAllStrings_object|].
  intros env name prop Hname Henv.
  assert (resolveOSEnvString env true ("${os_env_strict:" ++ name ++ "}")%string
          = Some None) as Hstr.
  { rewrite (resolveOSEnvString_single env true _ name true).
    - by rewrite Henv.
    - rewrite <- (string_app_nil_r "}"). by apply osEnvAt_strict. }
  unfold resolveOSEnvironmentVariables. cbn [_mapAllStrings]. by rewrite Hstr.
Qed.

End OsEnvFacts.

Section RegExpFacts.
Import Text Resolve.

Lemma dropChars_app (a b : string) : dropChars (String.length a) (a ++ b)%string = b.
Proof. induction a as [|c a IH]; [by destruct b|]. by rewrite string_app_cons. Qed.

Lemma takeChars_app (a b : string) : takeChars (String.length a) (a ++ b)%string = a.
Proof.
  induction a as [|c a IH]; [by destruct b|]. rewrite string_app_cons. simpl.
  by rewrite IH.
Qed.

Lemma concat_empty_snoc (l : list string) (x : string) :
  String.concat EmptyString (l ++ [x]) = (String.concat EmptyString l ++ x)%string.
Proof.
  induction l as [|y l IH]; [done|].
  destruct l as [|z l].
  { change ((y ++ EmptyString ++ x)%string = (y ++ x)%string).
    by rewrite string_app_nil_l. }
  change (String.concat EmptyString ((y :: z :: l) ++ [x]))
    with (y ++ EmptyString ++ String.concat EmptyString ((z :: l) ++ [x]))%string.
  rewrite IH.
  change (String.concat EmptyString (y :: z :: l))
    with (y ++ EmptyString ++ String.concat EmptyString (z :: l))%string.
  by rewrite !string_app_nil_l, string_app_assoc.
Qed.

Lemma matchOf_step (s : string) (m : RegExpMatch) :
  matchOf s m →
  s = (takeChars (index m) s ++ matched m
       ++ dropChars (index m + String.length (matched m)) s)%string
  ∧ String.length s
    = index m + String.length (matched m)
      + String.length (dropChars (index m + String.length (matched m)) s).
Proof.
  intros (after & Hs & Hlen).
  assert (dropChars (index m + String.length (matched m)) s = after) as ->.
  { rewrite Hs at 1. rewrite <- Hlen at 1.
    rewrite <- string_length_app, <- string_app_assoc. apply dropChars_app. }
  split; [done|]. rewrite Hs at 1. rewrite !string_length_app. lia.
Qed.

Lemma replaceAllRegExpLoop_runs (resolve : string → option RegExpMatch)
    (rule : RegExpMatch → option string) :
  (∀ s m, resolve s = Some m → matchOf s m ∧ matched m ≠ EmptyString) →
  (∀ m, is_Some (rule m)) →
  ∀ fuel m remainingStr newStr,
    (∀ m', m = Some m' → matchOf remainingStr m' ∧ matched m' ≠ EmptyString) →
    String.length remainingStr < fuel →
    ∃ r, replaceAllRegExpLoop fuel resolve rule m remainingStr newStr = Some (Some r)
         ∧ ((∀ m', rule m' = Some (matched m')) →
            r = (String.concat EmptyString newStr ++ remainingStr)%string).
Proof.
  intros Hresolve Hrule. induction fuel as [|fuel IH];
    intros m remainingStr newStr Hm Hlen; [lia|].
  cbn [replaceAllRegExpLoop]. destruct m as [m|]; [|by eexists].
  destruct (Hm m eq_refl) as [Hmatch Hne].
  destruct (Hrule m) as [ruleV HruleV]. rewrite HruleV.
  destruct (matchOf_step _ _ Hmatch) as [Hs Hl].
  set (rest := dropChars (index m + String.length (matched m)) remainingStr) in *.
  assert (0 < String.length (matched m)) as Hpos.
  { destruct (matched m); [done | simpl; lia]. }
  destruct (IH (resolve rest) rest
               ((newStr ++ [takeChars (index m) remainingStr]) ++ [ruleV]))
    as (r & Hr & Hid); [by apply Hresolve | lia |].
  exists r. split; [done|]. intros Hident. rewrite (Hid Hident).
  rewrite Hident in HruleV. injection HruleV as <-.
  rewrite !concat_empty_snoc, !string_app_assoc. by rewrite <- Hs.
Qed.

Lemma literalRegExp_matchOf (pattern s : string) (m : RegExpMatch) :
  literalRegExp pattern s = Some m → matchOf s m ∧ matched m = pattern.
Proof.
  unfold literalRegExp. destruct (splitAtFirst pattern s) as [[before after]|] eqn:E;
    [|discriminate].
  intros [= <-]. apply splitAtFirst_Some in E. split; [|done].
  exists after. cbn [index matched]. subst s. by rewrite takeChars_app.
Qed.

(** [replaceAllRegExp] with a regular expression whose matches are never
    empty and a rule that always gives a string comes to an end and
    throws nothing.  It goes through the matches from left to right, each
    found in what is left after the one before: if the rule gives back
    the text matched, the result is the input.  With a regular expression
    that matches the empty text at the start of every string the loop
    never ends. *)
Theorem replaceAllRegExp_runs (fuel : nat) (input : string)
    (resolve : string → option RegExpMatch) (rule : RegExpMatch → option string)
    (firstMatch : RegExpMatch) :
  (∀ m, is_Some (rule m)) →
  ((∀ s m, resolve s = Some m → matchOf s m ∧ matched m ≠ EmptyString) →
   matchOf input firstMatch → matched firstMatch ≠ EmptyString →
   String.length input < fuel →
   ∃ r, replaceAllRegExp fuel input resolve rule firstMatch = Some (Some r)
        ∧ ((∀ m, rule m = Some (matched m)) → r = input))
  ∧ ((∀ s, resolve s = Some (mkMatch 0 EmptyString [])) →
     replaceAllRegExp fuel input resolve rule (mkMatch 0 EmptyString []) = None).
Proof.
  intros Hrule. split.
  - intros Hresolve Hfirst Hne Hlen. unfold replaceAllRegExp.
    destruct (replaceAllRegExpLoop_runs resolve rule Hresolve Hrule fuel
                (Some firstMatch) input [])
      as (r & Hr & Hid); [by intros m' [= <-] | done |].
    exists r. split; [done|]. intros Hident. by rewrite (Hid Hident).
  - intros Hempty. unfold replaceAllRegExp. generalize (@nil string).
    induction fuel as [|fuel IH]; intros newStr; [done|].
    cbn [replaceAllRegExpLoop index matched].
    destruct (Hrule (mkMatch 0 EmptyString [])) as [ruleV ->].
    cbn [String.length Nat.add dropChars]. rewrite Hempty. apply IH.
Qed.

Lemma replaceAllRegExp_runs_witness :
  ∃ r, replaceAllRegExp 20 "a ${v} b ${v}" (literalRegExp "${v}")
         (λ m, Some (matched m)) (mkMatch 2 "${v}" [])
       = Some (Some r)
       ∧ ((∀ m, (λ m, Some (matched m)) m = Some (matched m)) → r = "a ${v} b ${v}"%string).
Proof.
  refine (proj1 (replaceAllRegExp_runs 20 "a ${v} b ${v}" (literalRegExp "${v}")
                   (λ m, Some (matched m)) (mkMatch 2 "${v}" []) _) _ _ _ _).
  - intros m. by eexists.
  - intros s m Hm. destruct (literalRegExp_matchOf _ _ _ Hm) as [H1 H2].
    split; [done|]. by rewrite H2.
  - exists " b ${v}"%string. split; reflexivity.
  - discriminate.
  - simpl. lia.
Defined.

End RegExpFacts.

(** ** Arguments of the doctest executable *)

Section DocParamsFacts.
Import Text DocParams.

Lemma splitOn_hasNo (isSep : ascii → bool) (x : string) :
  hasNo isSep x = true → splitOn isSep x = [x].
Proof.
  induction x as [|c x IH]; [done|]. cbn [hasNo splitOn].
  intros [Hc Hx]%andb_true_iff. apply negb_true_iff in Hc. rewrite Hc, (IH Hx). done.
Qed.

Lemma splitOn_app_sep (isSep : ascii → bool) (sep : ascii) (x s : string) :
  hasNo isSep x = true → isSep sep = true →
  splitOn isSep (x ++ String sep s)%string = x :: splitOn isSep s.
Proof.
  intros Hx Hsep. induction x as [|c x IH].
  - rewrite string_app_nil_l. cbn [splitOn]. by rewrite Hsep.
  - cbn [hasNo] in Hx. apply andb_true_iff in Hx as [Hc Hx].
    apply negb_true_iff in Hc. rewrite string_app_cons. cbn [splitOn].
    by rewrite Hc, (IH Hx).
Qed.

Lemma splitOn_concat (isSep : ascii → bool) (sep : ascii) (parts : list string) :
  isSep sep = true → parts ≠ [] → Forall (λ x, hasNo isSep x = true) parts →
  splitOn isSep (String.concat (String sep EmptyString) parts) = parts.
Proof.
  intros Hsep Hne Hall. induction Hall as [|x parts Hx Hall IH]; [done|].
  destruct parts as [|y parts]; [by apply splitOn_hasNo|].
  rewrite concat_cons_nonempty by done.
  change (String sep EmptyString ++ ?s)%string with (String sep s).
  rewrite (splitOn_app_sep isSep sep) by done. by rewrite IH.
Qed.

Lemma getEscapedTestName_hasNo (name : string) :
  hasNo (λ c, bool_decide (c = ","%char)) (getEscapedTestName name) = true.
Proof.
  induction name as [|c name IH]; [done|]. cbn [getEscapedTestName hasNo].
  rewrite IH, andb_true_r. by destruct (decide (c = ","%char)) as [->|?];
    [|rewrite bool_decide_eq_false_2].
Qed.

Lemma getEscapedTestName_length (name : string) :
  String.length (getEscapedTestName name) = String.length name.
Proof. induction name as [|c name IH]; [done|]. simpl. by rewrite IH. Qed.

(** The first argument that [_getRunParamsInner] of the doctest runnable
    builds is [--test-case=] and the escaped names joined by commas.  An
    escaped name has the length of the name and holds no comma, so
    cutting the list at its commas gives back one entry for each test to
    run, its escaped name.  [getDebugParams] gives the arguments of
    [_getRunParams], whatever [breakOnFailure] is. *)
Theorem docFilter_entries (prependTestRunningArgs : list string) (c : Configuration)
    (childrenToRun : list AbstractTest) (breakOnFailure : bool) :
  childrenToRun ≠ [] →
  ∃ filter rest,
    _getRunParamsInner c childrenToRun = ("--test-case=" ++ filter)%string :: rest
    ∧ splitOn (λ ch, bool_decide (ch = ","%char)) filter
      = (λ t, getEscapedTestName (testNameAsId t)) <$> childrenToRun
    ∧ (∀ t, t ∈ childrenToRun →
            String.length (getEscapedTestName (testNameAsId t))
            = String.length (testNameAsId t))
    ∧ getDebugParams prependTestRunningArgs c childrenToRun breakOnFailure
      = _getRunParams prependTestRunningArgs c childrenToRun.
Proof.
  intros Hne. unfold _getRunParamsInner. eexists _, _. split; [done|].
  split; [|split; [|done]].
  - unfold join.
    assert (default EmptyString
              <$> ((λ t, Some (getEscapedTestName (testNameAsId t))) <$> childrenToRun)
            = (λ t, getEscapedTestName (testNameAsId t)) <$> childrenToRun) as ->.
    { rewrite <- list_fmap_compose. by apply list_fmap_ext. }
    apply (splitOn_concat _ ","%char); [done | by destruct childrenToRun |].
    apply Forall_fmap, Forall_forall. intros t _. apply getEscapedTestName_hasNo.
  - intros t _. apply getEscapedTestName_length.
Qed.

Lemma docFilter_entries_witness :
  ∃ filter rest,
    _getRunParamsInner (mkConfiguration false None)
      [mkTest 1 DOCTest 0 (RootSuite 0) "a,b"; mkTest 2 DOCTest 0 (RootSuite 0) "c"]
    = ("--test-case=" ++ filter)%string :: rest
    ∧ splitOn (λ ch, bool_decide (ch = ","%char)) filter = ["a?b"; "c"]%string.
Proof.
  destruct (docFilter_entries [] (mkConfiguration false None)
              [mkTest 1 DOCTest 0 (RootSuite 0) "a,b"; mkTest 2 DOCTest 0 (RootSuite 0) "c"]
              false ltac:(done)) as (filter & rest & H1 & H2 & _).
  exists filter, rest. split; [exact H1 | exact H2].
Defined.

End DocParamsFacts.

(** ** [sendMinimalEventsIfNeeded] on arbitrary arrays *)

Section MinimalEventsFacts.
Import Tree Streaming.

Lemma scanCompleted_none (rest running : list Suite) (k : nat) :
  (∀ y, y ∈ rest → y ∉ running) →
  scanCompleted rest running k = (k + length rest, None).
Proof.
  revert k. induction rest as [|y rest IH]; intros k Hd; simpl.
  - f_equal. lia.
  - assert (indexOf running y = None) as ->.
    { apply indexOf_None, Hd. left. }
    rewrite IH; [f_equal; lia|].
    intros z Hz. apply Hd. by right.
Qed.

(** X23. [sendMinimalEventsIfNeeded] on any two arrays.  With nothing
    completed every running suite is opened, the last of the array first.
    With something completed and no suite in both arrays every completed
    suite is closed and no running suite is opened.  With a suite in both
    arrays the completed suites before the first shared one are closed,
    and the running suites before it are opened, the nearest to it
    first; what follows it in either array is not looked at. *)
Theorem sendMinimalEventsIfNeeded_arrays (completed running : list Suite) :
  sendMinimalEventsIfNeeded [] running = SuiteRunning <$> rev running
  ∧ (completed ≠ [] → (∀ y, y ∈ completed → y ∉ running) →
     sendMinimalEventsIfNeeded completed running = SuiteCompleted <$> completed)
  ∧ (∀ a x rest b rest',
       completed = a ++ x :: rest → running = b ++ x :: rest' →
       (∀ y, y ∈ a → y ∉ running) → x ∉ b →
       sendMinimalEventsIfNeeded completed running
       = (SuiteCompleted <$> a) ++ (SuiteRunning <$> rev b)).
Proof.
  split; [done|]. split.
  - intros Hne Hd. destruct completed as [|c0 completed']; [done|].
    destruct running as [|r0 running']; [done|].
    unfold sendMinimalEventsIfNeeded.
    destruct (decide (c0 = r0)) as [->|Hne0].
    { exfalso. apply (Hd r0); left. }
    rewrite (scanCompleted_none _ _ 0 Hd). cbv beta iota.
    replace (0 + length (c0 :: completed')) with (length (c0 :: completed')) by lia.
    rewrite firstn_all. by rewrite app_nil_r.
  - intros a x rest b rest' -> -> Ha Hb.
    assert (indexOf (b ++ x :: rest') x = Some (length b)) as Hix
      by by apply indexOf_app_r.
    pose proof (scanCompleted_found a x rest (b ++ x :: rest') 0 (length b) Ha Hix)
      as Hscan.
    assert (take (length b) (b ++ x :: rest') = b) as Htb by apply take_app_length.
    assert (take (0 + length a) (a ++ x :: rest) = a) as Hta
      by apply (take_app_length a).
    destruct a as [|a0 a'], b as [|b0 b']; simpl app in *.
    + unfold sendMinimalEventsIfNeeded. by rewrite decide_True.
    + unfold sendMinimalEventsIfNeeded. rewrite decide_False.
      2:{ intros ->. apply Hb. left. }
      rewrite Hscan. cbv beta iota. by rewrite Hta, Htb.
    + unfold sendMinimalEventsIfNeeded. rewrite decide_False.
      2:{ intros ->. apply (Ha x); left. }
      rewrite Hscan. cbv beta iota. by rewrite Hta, Htb.
    + unfold sendMinimalEventsIfNeeded. rewrite decide_False.
      2:{ intros ->. apply (Ha b0); left. }
      rewrite Hscan. cbv beta iota. by rewrite Hta, Htb.
Qed.

End MinimalEventsFacts.

(** ** Listing by text *)

Section GoogleListFacts.
Import GoogleList.

Context (testGroupRe testRe : RegExp) {St : Type}.
Context (add : GoogleCase → St → option St) (cancellationFlag : nat → bool).

Lemma trimLineCount_spec (lines : list string) (n : nat) :
  trimLineCount testRe lines n ≤ n
  ∧ (∀ i, trimLineCount testRe lines n ≤ i < n → lines !! i ≫= testRe = None)
  ∧ (trimLineCount testRe lines n = 0
     ∨ ∃ c, trimLineCount testRe lines n = S c ∧ is_Some (lines !! c ≫= testRe)).
Proof.
  induction n as [|n (IH1 & IH2 & IH3)]; simpl.
  - split; [lia|]. split; [intros i ?; lia | by left].
  - destruct (lines !! n ≫= testRe) as [m|] eqn:E.
    + split; [lia|]. split; [intros i ?; lia|]. right. exists n. by rewrite E.
    + split; [lia|]. split; [|done].
      intros i Hi. destruct (decide (i = n)) as [->|?]; [done|]. apply IH2. lia.
Qed.

Lemma trimLineCount_above (lines : list string) (j : nat) :
  is_Some (lines !! j ≫= testRe) → j < trimLineCount testRe lines (length lines).
Proof.
  intros Hj. destruct (trimLineCount_spec lines (length lines)) as (_ & H2 & _).
  destruct (decide (j < trimLineCount testRe lines (length lines))) as [|Hge]; [done|].
  assert (j < length lines) as Hlt.
  { apply lookup_lt_is_Some. destruct (lines !! j); [done|]. by destruct Hj. }
  rewrite H2 in Hj by lia. by destruct Hj.
Qed.

Lemma skipToGroup_spec (lines : list string) (lineCount fuel lineNum : nat) :
  lineCount - lineNum ≤ fuel → lineNum ≤ lineCount →
  ∃ k, skipToGroup testGroupRe fuel lines lineCount lineNum = Some k
       ∧ lineNum ≤ k ≤ lineCount
       ∧ (∀ i, lineNum ≤ i < k → lines !! i ≫= testGroupRe = None)
       ∧ (k < lineCount → is_Some (lines !! k ≫= testGroupRe)).
Proof.
  revert lineNum. induction fuel as [|fuel IH]; intros lineNum Hfuel Hle.
  - assert (lineNum = lineCount) as -> by lia. exists lineCount. simpl.
    rewrite Nat.ltb_irrefl. simpl. split; [done|]. split; [lia|].
    split; intros; lia.
  - simpl. destruct (lineNum <? lineCount) eqn:Hlt; simpl.
    + apply Nat.ltb_lt in Hlt.
      destruct (lines !! lineNum ≫= testGroupRe) as [m|] eqn:E.
      * exists lineNum. split; [done|]. split; [lia|]. split; [intros; lia|].
        intros _. by rewrite E.
      * destruct (IH (S lineNum)) as (k & Hk & Hb & Hnone & Hsome); [lia..|].
        exists k. split; [done|]. split; [lia|]. split; [|done].
        intros i Hi. destruct (decide (i = lineNum)) as [->|?]; [done|].
        apply Hnone. lia.
    + apply Nat.ltb_ge in Hlt. exists lineNum. split; [done|].
      split; [lia|]. split; intros; lia.
Qed.

Lemma testsLoop_total (lines : list string) (lineCount : nat) (g : RegExpMatchArray)
    (fuel lineNum reads : nat) (st : St) :
  lineCount - lineNum ≤ fuel →
  ∃ e, testsLoop testRe St add cancellationFlag fuel lines lineCount g lineNum
                 (matchLine testRe lines lineCount lineNum) reads st = Some e
       ∧ match e with NextGroup k _ _ => lineNum ≤ k | _ => True end.
Proof.
  revert lineNum reads st. induction fuel as [|fuel IH]; intros lineNum reads st Hfuel.
  - unfold matchLine. assert ((lineNum <? lineCount) = false) as ->
      by (apply Nat.ltb_ge; lia).
    simpl. eexists; split; [reflexivity | simpl; try lia; done].
  - unfold matchLine at 1. destruct (lineNum <? lineCount) eqn:Hlt.
    2:{ simpl. eexists; split; [reflexivity | simpl; try lia; done]. }
    apply Nat.ltb_lt in Hlt.
    destruct (lines !! lineNum ≫= testRe) as [m|]; simpl; [|eexists; split; [reflexivity | simpl; try lia; done]].
    destruct (cancellationFlag reads); [eexists; split; [reflexivity | simpl; try lia; done]|].
    destruct (add (caseOf g m) st) as [st1|]; [|eexists; split; [reflexivity | simpl; try lia; done]].
    destruct (IH (S lineNum) (S reads) st1) as (e & He & Hk); [lia|].
    exists e. split; [done|]. destruct e; [lia|done..].
Qed.

Lemma groupsLoop_total (lines : list string) (lineCount fuel lineNum reads : nat)
    (st : St) :
  lineCount - lineNum ≤ fuel →
  ∃ r, groupsLoop testGroupRe testRe St add cancellationFlag fuel lines lineCount
                  lineNum (matchLine testGroupRe lines lineCount lineNum) reads st
       = Some r
       ∧ r ≠ ThrownWrongTestList.
Proof.
  revert lineNum reads st. induction fuel as [|fuel IH]; intros lineNum reads st Hfuel.
  - unfold matchLine. assert ((lineNum <? lineCount) = false) as ->
      by (apply Nat.ltb_ge; lia).
    simpl. eexists; split; [reflexivity | done].
  - unfold matchLine at 1. destruct (lineNum <? lineCount) eqn:Hlt.
    2:{ simpl. eexists; split; [reflexivity | done]. }
    apply Nat.ltb_lt in Hlt.
    destruct (lines !! lineNum ≫= testGroupRe) as [g|]; simpl; [|eexists; split; [reflexivity | done]].
    destruct (testsLoop_total lines lineCount g fuel (S lineNum) reads st)
      as (e & -> & Hk); [lia|].
    destruct e as [k reads1 st1|st1|st1]; [|eexists; split; [reflexivity | done]..].
    apply IH. lia.
Qed.

(** X24. [_reloadFromString] of the Google Test runnable always comes to
    an end, whatever the two regular expressions match.  It throws 'Wrong
    test list.', before anything is added, exactly when no line that matches
    [testRe] stands at or after a line that matches [testGroupRe]: an
    executable that lists no test, or only groups without tests, is not
    given an empty tree but an exception. *)
Theorem reloadFromString_wrong_test_list (stdOutStr : string) (st : St) :
  is_Some (_reloadFromString testGroupRe testRe St add cancellationFlag stdOutStr st)
  ∧ (_reloadFromString testGroupRe testRe St add cancellationFlag stdOutStr st
     = Some ThrownWrongTestList
     ↔ ¬ ∃ i j, i ≤ j ∧ is_Some (split stdOutStr !! i ≫= testGroupRe)
                ∧ is_Some (split stdOutStr !! j ≫= testRe)).
Proof.
  unfold _reloadFromString. set (lines := split stdOutStr).
  set (lineCount := trimLineCount testRe lines (length lines)).
  destruct (trimLineCount_spec lines (length lines)) as (Hc1 & Hc2 & Hc3).
  fold lineCount in Hc1, Hc2, Hc3.
  destruct (skipToGroup_spec lines lineCount (length lines) 0)
    as (lineNum & -> & Hb & Hnone & Hsome); [lia..|].
  destruct (Z.of_nat lineCount - Z.of_nat lineNum =? 0)%Z eqn:Hz.
  - apply Z.eqb_eq in Hz. assert (lineNum = lineCount) as -> by lia.
    split; [done|]. split; [|done]. intros _ (i & j & Hij & Hi & Hj).
    pose proof (trimLineCount_above lines j Hj) as Hjc. fold lineCount in Hjc.
    rewrite Hnone in Hi by lia. by destruct Hi.
  - apply Z.eqb_neq in Hz. assert (lineNum < lineCount) as Hlt by lia.
    destruct (groupsLoop_total lines lineCount (length lines) lineNum 0 st)
      as (r & -> & Hr); [lia|].
    split; [done|]. split; [intros [= ->]; done|].
    intros Hno. exfalso. apply Hno.
    destruct Hc3 as [Hc3|(c & Hc & Hm)]; [lia|].
    exists lineNum, c. split; [lia|]. split; [by apply Hsome | done].
Qed.

Lemma addInOrder_app (xs ys : list GoogleCase) (reads : nat) (st : St) :
  addInOrder St add cancellationFlag (xs ++ ys) reads st
  = match addInOrder St add cancellationFlag xs reads st with
    | Done r s => addInOrder St add cancellationFlag ys r s
    | e => e
    end.
Proof.
  revert reads st. induction xs as [|x xs IH]; intros reads st; simpl; [done|].
  destruct (cancellationFlag reads); [done|].
  destruct (add x st) as [st1|]; [apply IH | done].
Qed.

Lemma testsLoop_block (lines : list string) (lineCount : nat) (g : RegExpMatchArray)
    (ts : list string) (fuel lineNum reads : nat) (st : St) :
  (∀ k t, ts !! k = Some t → lines !! (lineNum + k) = Some t) →
  lineNum + length ts ≤ lineCount →
  Forall (λ t, is_Some (testRe t)) ts →
  matchLine testRe lines lineCount (lineNum + length ts) = None →
  length ts ≤ fuel →
  testsLoop testRe St add cancellationFlag fuel lines lineCount g lineNum
            (matchLine testRe lines lineCount lineNum) reads st
  = Some match addInOrder St add cancellationFlag
                          (omap (λ t, caseOf g <$> testRe t) ts) reads st with
         | Done r s => NextGroup (lineNum + length ts) r s
         | Cancelled s => CancelledAt s
         | Failed s => FailedAt s
         end.
Proof.
  revert fuel lineNum reads st.
  induction ts as [|t ts IH]; intros fuel lineNum reads st Hat Hle Hts Hend Hfuel.
  - simpl in *. rewrite Nat.add_0_r in *. rewrite Hend. by destruct fuel.
  - simpl in Hle, Hfuel, Hend.
    apply Forall_cons in Hts as [[m Hm] Hts].
    assert (matchLine testRe lines lineCount lineNum = Some m) as ->.
    { unfold matchLine. assert ((lineNum <? lineCount) = true) as ->
        by (apply Nat.ltb_lt; lia).
      specialize (Hat 0 t eq_refl). rewrite Nat.add_0_r in Hat.
      by rewrite Hat. }
    destruct fuel as [|fuel]; [lia|]. simpl. rewrite Hm. simpl.
    destruct (cancellationFlag reads); [done|].
    destruct (add (caseOf g m) st) as [st1|]; [|done].
    rewrite (IH fuel (S lineNum) (S reads) st1).
    + replace (S lineNum + length ts) with (lineNum + S (length ts)) by lia. done.
    + intros k t' Hk. replace (S lineNum + k) with (lineNum + S k) by lia.
      by apply Hat.
    + lia.
    + done.
    + by replace (S lineNum + length ts) with (lineNum + S (length ts)) by lia.
    + lia.
Qed.

Lemma linesOf_cons (b : string * list string) (blocks : list (string * list string)) :
  linesOf (b :: blocks) = b.1 :: b.2 ++ linesOf blocks.
Proof. done. Qed.

Lemma groupsLoop_blocks (lines : list string) (lineCount : nat)
    (blocks : list (string * list string)) (fuel lineNum reads : nat) (st : St) :
  (∀ k l, linesOf blocks !! k = Some l → lines !! (lineNum + k) = Some l) →
  lineNum + length (linesOf blocks) ≤ lineCount →
  Forall (λ b, is_Some (testGroupRe b.1) ∧ testRe b.1 = None
               ∧ Forall (λ t, is_Some (testRe t)) b.2) blocks →
  matchLine testGroupRe lines lineCount (lineNum + length (linesOf blocks)) = None →
  matchLine testRe lines lineCount (lineNum + length (linesOf blocks)) = None →
  length (linesOf blocks) ≤ fuel →
  groupsLoop testGroupRe testRe St add cancellationFlag fuel lines lineCount lineNum
             (matchLine testGroupRe lines lineCount lineNum) reads st
  = Some (completionOf (addInOrder St add cancellationFlag
                                   (casesOf testGroupRe testRe blocks) reads st)).
Proof.
  revert fuel lineNum reads st.
  induction blocks as [|b blocks IH];
    intros fuel lineNum reads st Hat Hle Hwf Hend1 Hend2 Hfuel.
  - simpl in *. rewrite Nat.add_0_r in *. rewrite Hend1. by destruct fuel.
  - rewrite linesOf_cons in *. simpl length in *. rewrite length_app in *.
    apply Forall_cons in Hwf as [([g Hg] & Hgt & Hts) Hwf].
    assert (matchLine testGroupRe lines lineCount lineNum = Some g) as ->.
    { unfold matchLine. assert ((lineNum <? lineCount) = true) as ->
        by (apply Nat.ltb_lt; lia).
      specialize (Hat 0 b.1 eq_refl). rewrite Nat.add_0_r in Hat.
      by rewrite Hat. }
    destruct fuel as [|fuel]; [lia|]. simpl.
    assert (matchLine testRe lines lineCount (S lineNum + length b.2) = None) as Hnext.
    { destruct blocks as [|b' blocks'].
      - simpl in Hend2. rewrite Nat.add_0_r in Hend2.
        by replace (S lineNum + length b.2) with (lineNum + S (length b.2)) by lia.
      - unfold matchLine. destruct (_ <? _); [|done].
        replace (S lineNum + length b.2) with (lineNum + S (length b.2)) by lia.
        rewrite (Hat (S (length b.2)) b'.1).
        + by apply Forall_cons in Hwf as [(_ & Hb' & _) _].
        + simpl. rewrite lookup_app_r by lia.
          by replace (length b.2 - length b.2) with 0 by lia. }
    rewrite (testsLoop_block lines lineCount g b.2 fuel (S lineNum) reads st).
    + unfold casesOf. rewrite fmap_cons. cbn [concat]. rewrite Hg.
      fold (casesOf testGroupRe testRe blocks). rewrite addInOrder_app.
      destruct (addInOrder St add cancellationFlag
                  (omap (λ t, caseOf g <$> testRe t) b.2) reads st)
        as [r s|s|s]; [|done..].
      apply IH.
      * intros k l Hk.
        replace (S lineNum + length b.2 + k) with (lineNum + S (length b.2 + k)) by lia.
        apply Hat. simpl. rewrite lookup_app_r by lia.
        by replace (length b.2 + k - length b.2) with k by lia.
      * lia.
      * done.
      * by replace (S lineNum + length b.2 + length (linesOf blocks))
          with (lineNum + S (length b.2 + length (linesOf blocks))) by lia.
      * by replace (S lineNum + length b.2 + length (linesOf blocks))
          with (lineNum + S (length b.2 + length (linesOf blocks))) by lia.
      * lia.
    + intros k t Hk. replace (S lineNum + k) with (lineNum + S k) by lia.
      apply Hat. simpl. by apply lookup_app_l_Some.
    + lia.
    + done.
    + done.
    + lia.
Qed.

Lemma linesOf_app (xs ys : list (string * list string)) :
  linesOf (xs ++ ys) = linesOf xs ++ linesOf ys.
Proof. unfold linesOf. by rewrite fmap_app, concat_app. Qed.

(** X25. A listing made of lines without a test group, then blocks of a
    group line followed by its test lines, then either nothing or a line
    that is neither (and whatever comes after it): if a test line ends the
    blocks or comes later, [_reloadFromString] adds exactly the tests of
    the blocks, each under the name of the group line above it, in order,
    until the flag is set or an addition throws.  The lines after the first
    line that is neither are dropped without an error, test groups among
    them included. *)
Theorem reloadFromString_blocks (stdOutStr : string) (pre : list string)
    (blocks : list (string * list string)) (tail : list string) (st : St) :
  split stdOutStr = pre ++ linesOf blocks ++ tail →
  Forall (λ l, testGroupRe l = None) pre →
  blocks ≠ [] →
  Forall (λ b, is_Some (testGroupRe b.1) ∧ testRe b.1 = None
               ∧ Forall (λ t, is_Some (testRe t)) b.2) blocks →
  head tail ≫= testGroupRe = None ∧ head tail ≫= testRe = None →
  (∃ l, l ∈ tail ∧ is_Some (testRe l)) ∨ (∃ b, last blocks = Some b ∧ b.2 ≠ []) →
  _reloadFromString testGroupRe testRe St add cancellationFlag stdOutStr st
  = Some (completionOf (addInOrder St add cancellationFlag
                                   (casesOf testGroupRe testRe blocks) 0 st)).
Proof.
  intros Hsplit Hpre Hne Hwf [Htail1 Htail2] Hcount.
  unfold _reloadFromString. rewrite Hsplit.
  set (lines := pre ++ linesOf blocks ++ tail).
  set (lineCount := trimLineCount testRe lines (length lines)).
  assert (∀ k, k < length (linesOf blocks) →
               lines !! (length pre + k) = linesOf blocks !! k) as Hin.
  { intros k Hk. unfold lines. rewrite lookup_app_r by lia.
    replace (length pre + k - length pre) with k by lia.
    by rewrite lookup_app_l. }
  assert (lines !! (length pre + length (linesOf blocks)) = head tail) as Hafter.
  { unfold lines. rewrite lookup_app_r by lia.
    replace (length pre + length (linesOf blocks) - length pre)
      with (length (linesOf blocks)) by lia.
    rewrite lookup_app_r by lia. rewrite Nat.sub_diag. by destruct tail. }
  assert (0 < length (linesOf blocks)) as Hpos.
  { destruct blocks as [|b blocks']; [done|]. rewrite linesOf_cons. simpl. lia. }
  assert (length pre + length (linesOf blocks) ≤ lineCount) as Hcnt.
  { destruct Hcount as [(l & Hl & Hm)|(b & Hb & Hts)].
    - apply list_elem_of_lookup_1 in Hl as [k Hk].
      assert (is_Some (lines !! (length pre + length (linesOf blocks) + k) ≫= testRe))
        as Hj.
      { unfold lines. rewrite lookup_app_r by lia. rewrite lookup_app_r by lia.
        replace (length pre + length (linesOf blocks) + k - length pre
                 - length (linesOf blocks)) with k by lia.
        by rewrite Hk. }
      apply trimLineCount_above in Hj. fold lineCount in Hj. lia.
    - apply last_Some in Hb as [blocks' ->].
      destruct (exists_last Hts) as (ts' & t & Ets).
      assert (is_Some (testRe t)) as Hm.
      { apply Forall_app in Hwf as [_ Hwf].
        apply Forall_cons in Hwf as [(_ & _ & Hb) _].
        rewrite Ets in Hb. apply Forall_app in Hb as [_ Hb].
        by apply Forall_cons in Hb as [? _]. }
      assert (linesOf (blocks' ++ [b]) = (linesOf blocks' ++ b.1 :: ts') ++ [t]) as E.
      { rewrite linesOf_app, linesOf_cons, Ets. simpl.
        rewrite app_nil_r. by rewrite <- !app_assoc. }
      assert (is_Some (lines !! (length pre + length (linesOf blocks' ++ b.1 :: ts'))
                       ≫= testRe)) as Hj.
      { rewrite Hin.
        - rewrite E. rewrite lookup_app_r by lia. rewrite Nat.sub_diag. done.
        - rewrite E. rewrite !length_app. simpl. lia. }
      apply trimLineCount_above in Hj. fold lineCount in Hj.
      rewrite E. rewrite !length_app in *. simpl in *. lia. }
  destruct (skipToGroup_spec lines lineCount (length lines) 0)
    as (lineNum & -> & Hb & Hnone & Hsome).
  { pose proof (trimLineCount_spec lines (length lines)) as [Hc _].
    fold lineCount in Hc. lia. }
  { lia. }
  assert (lineNum = length pre) as ->.
  { destruct (decide (lineNum < length pre)) as [Hlt|Hge].
    - exfalso. destruct (Hsome ltac:(lia)) as [m Hm].
      destruct (lookup_lt_is_Some_2 pre lineNum Hlt) as [l Hl].
      unfold lines in Hm. rewrite lookup_app_l in Hm by done.
      rewrite Hl in Hm. simpl in Hm.
      rewrite Forall_forall in Hpre.
      rewrite (Hpre l) in Hm; [done|]. by eapply list_elem_of_lookup_2.
    - destruct (decide (lineNum = length pre)) as [|Hne']; [done|]. exfalso.
      specialize (Hnone (length pre) ltac:(lia)).
      specialize (Hin 0 Hpos). rewrite Nat.add_0_r in Hin. rewrite Hin in Hnone.
      destruct blocks as [|b blocks']; [done|].
      apply Forall_cons in Hwf as [([g Hg] & _) _].
      rewrite linesOf_cons in Hnone. simpl in Hnone. congruence. }
  assert ((Z.of_nat lineCount - Z.of_nat (length pre) =? 0)%Z = false) as ->
    by (apply Z.eqb_neq; lia).
  assert (∀ re, head tail ≫= re = None →
                matchLine re lines lineCount (length pre + length (linesOf blocks))
                = None) as Hend.
  { intros re Hre. unfold matchLine. destruct (_ <? _); [|done]. by rewrite Hafter. }
  apply groupsLoop_blocks.
  - intros k l Hk. rewrite Hin; [done|]. by eapply lookup_lt_Some.
  - done.
  - done.
  - by apply Hend.
  - by apply Hend.
  - unfold lines. rewrite !length_app. lia.
Qed.

End GoogleListFacts.

Section GoogleListExamples.
Import GoogleList Samples.

Lemma reloadFromString_blocks_witness :
  _reloadFromString sampleGroupRe sampleTestRe (list GoogleCase) sampleAdd (λ _, false)
                    sampleListing []
  = Some (Returned [ mkGoogleCase "Suite.a" "a" "Suite" None None;
                     mkGoogleCase "Suite.DISABLED_b" "b" "Suite" None None ]).
Proof.
  apply (reloadFromString_blocks sampleGroupRe sampleTestRe sampleAdd (λ _, false)
           sampleListing ["Running main() from gtest_main.cc"%string]
           [("Suite."%string, ["  a"; "  DISABLED_b"]%string)]
           [""; "Suite."; "  a"; ""]%string []).
  - reflexivity.
  - repeat constructor.
  - discriminate.
  - repeat constructor; by eexists.
  - split; reflexivity.
  - left. exists "  a"%string. split; [|by eexists].
    apply list_elem_of_In. simpl. tauto.
Defined.

End GoogleListExamples.

(** ** The sections of a doctest test case *)

Section DocSectionsFacts.
Import Text DocSections.

Lemma escapeBackticks_length (name : string) :
  String.length name ≤ String.length (escapeBackticks name)
  ∧ (hasBacktick name = true →
     String.length name < String.length (escapeBackticks name)).
Proof.
  unfold hasBacktick. induction name as [|c s [IH1 IH2]]; simpl; [split; [lia|done]|].
  destruct (decide (c = backtick)) as [->|Hne]; simpl.
  - split; [lia|]. intros _. lia.
  - rewrite bool_decide_eq_false_2 by done. simpl. split; [lia|].
    intros H. specialize (IH2 H). lia.
Qed.

Lemma escapeBackticks_id (name : string) :
  hasBacktick name = false → escapeBackticks name = name.
Proof.
  unfold hasBacktick. induction name as [|c s IH]; simpl; [done|].
  destruct (decide (c = backtick)) as [->|Hne]; simpl.
  - done.
  - rewrite bool_decide_eq_false_2 by done. simpl. intros H. by rewrite IH.
Qed.

Lemma findIndex_Some {A} (p : A → bool) (l : list A) (i : nat) :
  findIndex p l = Some i → ∃ x, l !! i = Some x ∧ p x = true.
Proof.
  revert i. induction l as [|y l IH]; intros i; simpl; [done|].
  destruct (p y) eqn:E.
  - intros [= <-]. by exists y.
  - destruct (findIndex p l) as [j|]; simpl; [|done].
    intros [= <-]. by apply IH.
Qed.

Lemma findIndex_None {A} (p : A → bool) (l : list A) :
  findIndex p l = None ↔ Forall (λ x, p x = false) l.
Proof.
  induction l as [|y l IH]; simpl; [by split|].
  destruct (p y) eqn:E.
  - split; [done|]. intros H. apply Forall_cons in H as [H _]. congruence.
  - rewrite Forall_cons, <- IH. destruct (findIndex p l); simpl; split; try done.
    + by intros [_ ?].
Qed.

(** One round of the loop: the section found, or the new one put at the
    end, is altered; name, file and line of a section never change. *)
Lemma processSubcase_round (_isSecnario : bool) (a : Attributes)
    (SubCase : option (list XmlSubCase)) (Expression : option (list XmlExpression))
    (children : list DOCSection) :
  ∃ f : DOCSection → DOCSection,
    (∀ v, sectionKey (f v) = sectionKey v)
    ∧ (isLeaf SubCase = true → ∀ v, sec_children (f v) = sec_children v)
    ∧ processSubcase _isSecnario (mkXmlSubCase (Some a) SubCase Expression) children
      = match findIndex (sameSection a) children with
        | Some index => alter f index children
        | None =>
            alter f (length children)
                  (children ++ [newDOCSection (default EmptyString (attr_name a))
                                              (attr_filename a) (attr_line a)])
        end.
Proof.
  eexists. split; [|split]; last first.
  - cbn [processSubcase]. destruct (findIndex (sameSection a) children); reflexivity.
  - intros Hleaf v. cbn [sec_children].
    destruct (_isSecnario && bool_decide (attr_name a = None)); [done|].
    destruct SubCase as [[|? ?]|]; done.
  - done.
Qed.

Lemma processSubcase_keys (_isSecnario : bool) (a : Attributes)
    (SubCase : option (list XmlSubCase)) (Expression : option (list XmlExpression))
    (children : list DOCSection) :
  sectionKey <$> processSubcase _isSecnario (mkXmlSubCase (Some a) SubCase Expression)
                                children
  = match findIndex (sameSection a) children with
    | Some _ => sectionKey <$> children
    | None =>
        (sectionKey <$> children)
        ++ [(escapeBackticks (default EmptyString (attr_name a)),
             attr_filename a, attr_line a)]
    end.
Proof.
  destruct (processSubcase_round _isSecnario a SubCase Expression children)
    as (f & Hkey & _ & ->).
  assert (∀ (l : list DOCSection) (i : nat),
            sectionKey <$> alter f i l = sectionKey <$> l) as Halter.
  { intros l i. rewrite (list_fmap_alter sectionKey f id).
    - by apply list_alter_id.
    - apply Forall_forall. intros v _. apply Hkey. }
  destruct (findIndex (sameSection a) children); rewrite Halter; [done|].
  by rewrite fmap_app.
Qed.

Lemma sameSection_key (a : Attributes) (v : DOCSection) (name : string) :
  attr_name a = Some name →
  sameSection a v = true ↔ sectionKey v = (name, attr_filename a, attr_line a).
Proof.
  intros Hname. unfold sameSection, sectionKey. rewrite Hname.
  rewrite !andb_true_iff, !bool_decide_eq_true. split.
  - intros [[[= ->] ->] ->]. done.
  - intros [= -> -> ->]. done.
Qed.

(** X26. The [find] of [_processXmlTagSubcase] recognises a section by
    name, file and line.  When every sub-case of a list has attributes and
    a name without a backtick, the sections it leaves under a fresh parent
    are one for each different (name, file, line) among the sub-cases:
    sub-cases that agree in the three share one section. *)
Theorem doc_sections_merged (_isSecnario : bool) (SubCase : list XmlSubCase) :
  Forall (λ s, ∃ a name, xml_attributes s = Some a ∧ attr_name a = Some name
                         ∧ hasBacktick name = false) SubCase →
  NoDup (sectionKey <$> sectionsOf _isSecnario (Some SubCase))
  ∧ ∀ k, k ∈ sectionKey <$> sectionsOf _isSecnario (Some SubCase)
         ↔ k ∈ omap subcaseKey SubCase.
Proof.
  unfold sectionsOf, _processXmlTagSubcase. intros Hall.
  assert (∀ subs children,
            Forall (λ s, ∃ a name, xml_attributes s = Some a ∧ attr_name a = Some name
                                   ∧ hasBacktick name = false) subs →
            NoDup (sectionKey <$> children) →
            NoDup (sectionKey
                     <$> foldl (λ ch s, processSubcase _isSecnario s ch) children subs)
            ∧ ∀ k, k ∈ sectionKey
                         <$> foldl (λ ch s, processSubcase _isSecnario s ch) children subs
                   ↔ k ∈ sectionKey <$> children ∨ k ∈ omap subcaseKey subs) as Hgen.
  { induction subs as [|s subs IH]; intros children Hsubs Hnd.
    - simpl. split; [done|]. intros k. rewrite elem_of_nil. tauto.
    - apply Forall_cons in Hsubs as [(a & name & Ha & Hname & Hbt) Hsubs].
      destruct s as [attributes Sub Expr]. simpl in Ha. subst attributes.
      cbn [foldl].
      pose proof (processSubcase_keys _isSecnario a Sub Expr children) as Hkeys.
      assert (subcaseKey (mkXmlSubCase (Some a) Sub Expr)
              = Some (name, attr_filename a, attr_line a)) as Hkey.
      { unfold subcaseKey. simpl. by rewrite Hname. }
      cbn [omap list_omap]. fold (@omap list _ _ _ subcaseKey subs).
      rewrite Hkey.
      destruct (findIndex (sameSection a) children) as [i|] eqn:Hfind.
      + apply findIndex_Some in Hfind as (v & Hv & Hsame).
        apply (sameSection_key a v name Hname) in Hsame.
        destruct (IH (processSubcase _isSecnario (mkXmlSubCase (Some a) Sub Expr) children)
                     Hsubs) as [IH1 IH2]; [by rewrite Hkeys|].
        split; [done|]. intros k. rewrite IH2, Hkeys, elem_of_cons.
        assert ((name, attr_filename a, attr_line a) ∈ sectionKey <$> children) as Hin.
        { rewrite <- Hsame. apply list_elem_of_fmap. exists v. split; [done|].
          by eapply list_elem_of_lookup_2. }
        split; [tauto|]. intros [?|[->|?]]; tauto.
      + apply findIndex_None in Hfind.
        rewrite Hname in Hkeys.
        change (default EmptyString (Some name)) with name in Hkeys.
        rewrite (escapeBackticks_id name Hbt) in Hkeys.
        assert ((name, attr_filename a, attr_line a) ∉ sectionKey <$> children) as Hnin.
        { intros Hin. apply list_elem_of_fmap in Hin as (v & Hv & Hvin).
          rewrite Forall_forall in Hfind. specialize (Hfind v Hvin).
          symmetry in Hv. apply (sameSection_key a v name Hname) in Hv. congruence. }
        destruct (IH (processSubcase _isSecnario (mkXmlSubCase (Some a) Sub Expr) children)
                     Hsubs) as [IH1 IH2].
        { rewrite Hkeys. apply NoDup_app. split; [done|]. split.
          - intros k Hk Hk'. apply list_elem_of_singleton in Hk'. by subst k.
          - apply NoDup_singleton. }
        split; [done|]. intros k.
        rewrite IH2, Hkeys, elem_of_app, list_elem_of_singleton, elem_of_cons. tauto. }
  destruct (Hgen SubCase [] Hall) as [H1 H2]; [constructor|].
  split; [done|]. intros k. rewrite H2. simpl. rewrite elem_of_nil. tauto.
Qed.

Lemma doc_sections_merged_witness :
  NoDup (sectionKey
           <$> sectionsOf false
                 (Some [ mkXmlSubCase (Some (mkAttributes (Some "a") (Some "t.cpp") (Some "3")))
                                      None None;
                         mkXmlSubCase (Some (mkAttributes (Some "b") (Some "t.cpp") (Some "7")))
                                      None None;
                         mkXmlSubCase (Some (mkAttributes (Some "a") (Some "t.cpp") (Some "3")))
                                      None None ]%string)).
Proof.
  refine (proj1 (doc_sections_merged false _ _)).
  repeat constructor; eexists _, _; (split; [reflexivity|]); split; reflexivity.
Defined.

Lemma branches_leaves (sections : list DOCSection) (counters : nat * nat) :
  Forall (λ v, sec_children v = []) sections →
  (foldl (λ c s, traverse s c) counters sections).1
  + (foldl (λ c s, traverse s c) counters sections).2
  = counters.1 + counters.2 + length sections.
Proof.
  revert counters. induction sections as [|v sections IH]; intros counters Hall.
  - simpl. lia.
  - apply Forall_cons in Hall as [Hv Hall]. cbn [foldl]. rewrite IH by done.
    destruct v as [name filename line children failed]. simpl in Hv. subst children.
    simpl. destruct failed; simpl; lia.
Qed.

(** X27. A sub-case whose name holds a backtick, or that has no name, is
    never recognised again: the section keeps the name with a backslash
    before each backtick (the empty name for none), and [find] compares it
    with the name as it is in the XML.  Read [n] times under a fresh
    parent it leaves [n] sections where a sub-case with a plain name leaves
    one, and when it has no sub-cases of its own the branches counted for
    the description are [n]. *)
Theorem doc_sections_backtick (_isSecnario : bool) (a : Attributes)
    (SubCase : option (list XmlSubCase)) (Expression : option (list XmlExpression))
    (n : nat) :
  attr_name a = None ∨ (∃ name, attr_name a = Some name ∧ hasBacktick name = true) →
  length (sectionsOf _isSecnario
            (Some (replicate n (mkXmlSubCase (Some a) SubCase Expression)))) = n
  ∧ (isLeaf SubCase = true →
     (branches (sectionsOf _isSecnario
                  (Some (replicate n (mkXmlSubCase (Some a) SubCase Expression))))).1
     + (branches (sectionsOf _isSecnario
                    (Some (replicate n (mkXmlSubCase (Some a) SubCase Expression))))).2
     = n).
Proof.
  intros Hbad. unfold sectionsOf, _processXmlTagSubcase, branches.
  set (subcase := mkXmlSubCase (Some a) SubCase Expression).
  set (stored := escapeBackticks (default EmptyString (attr_name a))).
  assert (∀ v, sec_name v = stored → sameSection a v = false) as Hnever.
  { intros v Hv. unfold sameSection. rewrite bool_decide_eq_false_2; [done|].
    rewrite Hv. destruct Hbad as [->|(name & Hname & Hbt)]; [done|].
    unfold stored. rewrite Hname. simpl. intros [= E].
    pose proof (escapeBackticks_length name) as [_ Hlt].
    specialize (Hlt Hbt). rewrite E in Hlt. lia. }
  assert (∀ k children,
            Forall (λ v, sec_name v = stored) children →
            let after := foldl (λ ch s, processSubcase _isSecnario s ch) children
                               (replicate k subcase) in
            length after = length children + k
            ∧ (isLeaf SubCase = true → Forall (λ v, sec_children v = []) children →
               Forall (λ v, sec_children v = []) after)) as Hgen.
  { induction k as [|k IH]; intros children Hnames.
    - simpl. split; [lia | done].
    - cbn [replicate foldl].
      destruct (processSubcase_round _isSecnario a SubCase Expression children)
        as (f & Hkey & Hleaf & Hround).
      fold subcase in Hround. rewrite Hround.
      assert (findIndex (sameSection a) children = None) as ->.
      { apply findIndex_None. eapply Forall_impl; [exact Hnames|]. apply Hnever. }
      destruct (IH (alter f (length children)
                      (children ++ [newDOCSection (default EmptyString (attr_name a))
                                                  (attr_filename a) (attr_line a)])))
        as [IH1 IH2].
      { apply Forall_alter.
        - apply Forall_app. split; [done|]. by constructor.
        - intros v _ Hv. specialize (Hkey v). unfold sectionKey in Hkey. congruence. }
      split.
      + rewrite IH1, length_alter, length_app. simpl. lia.
      + intros Hl Hnone. apply IH2; [done|]. apply Forall_alter.
        * apply Forall_app. split; [done|]. by constructor.
        * intros v _ Hv. by rewrite Hleaf. }
  destruct (Hgen n []) as [H1 H2]; [constructor|].
  split; [exact H1|]. intros Hl.
  rewrite branches_leaves; [simpl in *; lia|]. apply H2; [done | constructor].
Qed.

Lemma doc_sections_backtick_witness :
  length (sectionsOf false
            (Some (replicate 3
                     (mkXmlSubCase (Some (mkAttributes (Some "run `pwd`"%string) None None))
                                   None None)))) = 3.
Proof.
  refine (proj1 (doc_sections_backtick false
                   (mkAttributes (Some "run `pwd`"%string) None None) None None 3 _)).
  right. exists "run `pwd`"%string. split; reflexivity.
Defined.

End DocSectionsFacts.
